(** * The opaque-identifier encryption service of wedding-gallery

    A shallow embedding of [class EncryptionService] of
    [src/lib/utils.server.ts] together with the parts of the Node.js
    runtime it calls: the [Buffer] text encodings (hex, base64url,
    UTF-8), [scryptSync], [randomBytes], and the AES-256-GCM objects
    that [createCipheriv] and [createDecipheriv] return; and of the
    rest of the module: [base64Encode] and [base64Decode] over the
    base64 functions of [@oslojs/encoding], the start of
    [class GoogleDriveService], the exports, and the development route
    that calls the service.

    - A byte is a [byte], a [Buffer] a list of bytes.
    - A JavaScript string is a list of 16-bit code units ([jsstring]);
      tokens, hexadecimal text and error messages, which the code only
      ever builds from 8-bit characters, are [string]s; a text given to
      [decrypt] from outside is any JavaScript string ([JS.decrypt]).
    - A call runs on a state and returns a value or throws an [Error]
      with a message; the state of a method is the instance and the
      world: the environment variable, the random source, and a journal
      of the calls into the runtime.
    - The primitives are written out from their specifications and run
      on the published test vectors at the end of the file. *)

From Stdlib Require Import List NArith ZArith Lia Bool String Ascii Ring.
From Stdlib.Strings Require Import Byte.
From Stdlib Require Import DecimalString.
Import ListNotations.

Local Open Scope N_scope.

(** ** Bytes *)

Module Bytes.

Definition bytes := list byte.

Definition b2N (b : byte) : N := Byte.to_N b.

Definition N2b (n : N) : byte :=
  match Byte.of_N (n mod 256) with
  | Some b => b
  | None => x00
  end.

Definition bxor (a b : byte) : byte := N2b (N.lxor (b2N a) (b2N b)).

(** [a[i] ^ b[i]] over the length of the first argument; the second is
    always at least as long where this is used (a key stream). *)
Fixpoint xor_bytes (a b : bytes) : bytes :=
  match a, b with
  | x :: a', y :: b' => bxor x y :: xor_bytes a' b'
  | _, _ => []
  end.

Fixpoint bytes_eqb (a b : bytes) : bool :=
  match a, b with
  | [], [] => true
  | x :: a', y :: b' => Byte.eqb x y && bytes_eqb a' b'
  | _, _ => false
  end.

(** Big-endian integer of a byte string, and back at a fixed width. *)
Definition be2N (bs : bytes) : N :=
  fold_left (fun acc b => acc * 256 + b2N b) bs 0.

Fixpoint N2be (width : nat) (n : N) : bytes :=
  match width with
  | O => []
  | S w => N2be w (n / 256) ++ [N2b n]
  end.

Definition le2N (bs : bytes) : N := be2N (rev bs).

Definition N2le (width : nat) (n : N) : bytes := rev (N2be width n).

(** Cut a byte string into pieces of [n] bytes; the last may be shorter. *)
Fixpoint chunks_fuel (fuel n : nat) (bs : bytes) : list bytes :=
  match fuel, bs with
  | _, [] => []
  | O, _ => []
  | S f, _ => firstn n bs :: chunks_fuel f n (skipn n bs)
  end.

Definition chunks (n : nat) (bs : bytes) : list bytes :=
  chunks_fuel (List.length bs) n bs.

(** [buf.slice(start, end)] and [buf.slice(start)] on a Buffer: both
    clamp to the length of the buffer. *)
Definition slice (b : bytes) (start stop : nat) : bytes :=
  firstn (stop - start) (skipn start b).

Definition slice_from (b : bytes) (start : nat) : bytes := skipn start b.

(** [Buffer.concat(list)] *)
Definition Buffer_concat (l : list bytes) : bytes := List.concat l.

End Bytes.
Import Bytes.

(** ** Hexadecimal text: [buf.toString("hex")] and [Buffer.from(s, "hex")] *)

Module Hex.

Definition hexdigit (n : N) : ascii :=
  if n <? 10 then ascii_of_N (48 + n) else ascii_of_N (87 + n).

Definition unhex (c : ascii) : option N :=
  let n := N_of_ascii c in
  if (48 <=? n) && (n <=? 57) then Some (n - 48)
  else if (97 <=? n) && (n <=? 102) then Some (n - 87)
  else if (65 <=? n) && (n <=? 70) then Some (n - 55)
  else None.

Fixpoint toString_hex (bs : bytes) : string :=
  match bs with
  | [] => EmptyString
  | b :: rest =>
      String (hexdigit (b2N b / 16))
        (String (hexdigit (b2N b mod 16)) (toString_hex rest))
  end.

(** Node decodes pairs of digits and stops at the first pair that is not
    two hexadecimal digits; a trailing single digit is dropped. *)
Fixpoint Buffer_from_hex (s : string) : bytes :=
  match s with
  | String a (String b rest) =>
      match unhex a, unhex b with
      | Some h, Some l => N2b (16 * h + l) :: Buffer_from_hex rest
      | _, _ => []
      end
  | _ => []
  end.

End Hex.
Import Hex.

(** ** Base64url text: [buf.toString("base64url")] and
       [Buffer.from(s, "base64url")] *)

Module Base64url.

Definition alphabet : list ascii :=
  list_ascii_of_string
    "ABCDEFGHIJKLMNOPQRSTUVWXYZabcdefghijklmnopqrstuvwxyz0123456789-_".

Definition b64char (n : N) : ascii := nth (N.to_nat n) alphabet "A"%char.

(** The writer: three bytes give four characters; a tail of one or two
    bytes gives two or three characters and no padding. *)
Fixpoint toString_base64url (bs : bytes) : string :=
  match bs with
  | a :: b :: c :: rest =>
      String (b64char (b2N a / 4))
        (String (b64char ((b2N a mod 4) * 16 + b2N b / 16))
           (String (b64char ((b2N b mod 16) * 4 + b2N c / 64))
              (String (b64char (b2N c mod 64)) (toString_base64url rest))))
  | [a; b] =>
      String (b64char (b2N a / 4))
        (String (b64char ((b2N a mod 4) * 16 + b2N b / 16))
           (String (b64char ((b2N b mod 16) * 4)) EmptyString))
  | [a] =>
      String (b64char (b2N a / 4))
        (String (b64char ((b2N a mod 4) * 16)) EmptyString)
  | [] => EmptyString
  end.

(** Node's decoding table serves both base64 and base64url: it knows
    ['+'] and ['-'] as 62, ['/'] and ['_'] as 63. *)
Definition unbase64 (c : ascii) : option N :=
  let n := N_of_ascii c in
  if (65 <=? n) && (n <=? 90) then Some (n - 65)
  else if (97 <=? n) && (n <=? 122) then Some (n - 71)
  else if (48 <=? n) && (n <=? 57) then Some (n + 4)
  else if (n =? 45) || (n =? 43) then Some 62
  else if (n =? 95) || (n =? 47) then Some 63
  else None.

(** The reader never fails.  A character that is not in the table is
    skipped, except ['='], which ends the decoding. *)
Fixpoint sextets (s : string) : list N :=
  match s with
  | EmptyString => []
  | String c rest =>
      if Ascii.eqb c "="%char then []
      else match unbase64 c with
           | Some n => n :: sextets rest
           | None => sextets rest
           end
  end.

Fixpoint pack_sextets (l : list N) : bytes :=
  match l with
  | a :: b :: c :: d :: rest =>
      N2b (a * 4 + b / 16) :: N2b ((b mod 16) * 16 + c / 4)
        :: N2b ((c mod 4) * 64 + d) :: pack_sextets rest
  | [a; b; c] => [N2b (a * 4 + b / 16); N2b ((b mod 16) * 16 + c / 4)]
  | [a; b] => [N2b (a * 4 + b / 16)]
  | _ => []
  end.

Definition Buffer_from_base64url (s : string) : bytes :=
  pack_sextets (sextets s).


End Base64url.
Import Base64url.

(** ** JavaScript strings and their UTF-8 form

    A JavaScript string is a sequence of 16-bit code units.  Writing it
    as UTF-8 (the ["utf8"] input encoding of [cipher.update], the string
    arguments of [scryptSync]) pairs surrogates and puts U+FFFD in the
    place of an unpaired one.  Reading UTF-8 (the ["utf8"] output
    encoding of [decipher.update] / [decipher.final]) is the decoder of
    the Encoding standard, fed chunk by chunk, with U+FFFD for every ill
    formed sequence. *)

Module JSString.

Record char16 := C16 { hi : byte; lo : byte }.

Definition jsstring := list char16.

Definition cu (c : char16) : N := 256 * b2N (hi c) + b2N (lo c).

Definition mk16 (n : N) : char16 := C16 (N2b (n / 256)) (N2b n).

(** A string literal of 8-bit characters as a JavaScript string. *)
Definition js (s : string) : jsstring :=
  map (fun a => C16 x00 (byte_of_ascii a)) (list_ascii_of_string s).

Definition is_high (u : N) : bool := (0xD800 <=? u) && (u <=? 0xDBFF).
Definition is_low (u : N) : bool := (0xDC00 <=? u) && (u <=? 0xDFFF).

Definition utf8_of_cp (cp : N) : bytes :=
  if cp <? 0x80 then [N2b cp]
  else if cp <? 0x800 then [N2b (0xC0 + cp / 64); N2b (0x80 + cp mod 64)]
  else if cp <? 0x10000 then
    [N2b (0xE0 + cp / 4096); N2b (0x80 + (cp / 64) mod 64);
     N2b (0x80 + cp mod 64)]
  else
    [N2b (0xF0 + cp / 262144); N2b (0x80 + (cp / 4096) mod 64);
     N2b (0x80 + (cp / 64) mod 64); N2b (0x80 + cp mod 64)].

Definition replacement : bytes := [xef; xbf; xbd].

Fixpoint utf8_encode (s : jsstring) : bytes :=
  match s with
  | [] => []
  | c :: rest =>
      let u := cu c in
      if is_high u then
        match rest with
        | d :: rest' =>
            if is_low (cu d)
            then utf8_of_cp (0x10000 + (u - 0xD800) * 0x400 + (cu d - 0xDC00))
                   ++ utf8_encode rest'
            else replacement ++ utf8_encode rest
        | [] => replacement
        end
      else if is_low u then replacement ++ utf8_encode rest
      else utf8_of_cp u ++ utf8_encode rest
  end.

(** No unpaired surrogate: the strings that have a UTF-8 form. *)
Fixpoint well_formed (s : jsstring) : bool :=
  match s with
  | [] => true
  | c :: rest =>
      if is_high (cu c) then
        match rest with
        | d :: rest' => is_low (cu d) && well_formed rest'
        | [] => false
        end
      else negb (is_low (cu c)) && well_formed rest
  end.

(** A Unicode scalar value: a code point that is not a surrogate. *)
Definition scalar (cp : N) : Prop :=
  cp < 0xD800 \/ (0xE000 <= cp /\ cp < 0x110000).

(** The decoder's state between bytes: the code point collected so far,
    the continuation bytes still needed, and the bounds of the next one. *)
Record decoder := Dec { dcp : N; need : nat; lower : N; upper : N }.

Definition dec0 : decoder := Dec 0 0 0x80 0xBF.

Definition utf16_of_cp (cp : N) : jsstring :=
  if cp <? 0x10000 then [mk16 cp]
  else [mk16 (0xD800 + (cp - 0x10000) / 0x400);
        mk16 (0xDC00 + (cp - 0x10000) mod 0x400)].

Definition fffd : jsstring := [mk16 0xFFFD].

(** A byte arriving when no sequence is open. *)
Definition lead (b : N) : jsstring * decoder :=
  if b <? 0x80 then ([mk16 b], dec0)
  else if (0xC2 <=? b) && (b <=? 0xDF) then ([], Dec (b - 0xC0) 1 0x80 0xBF)
  else if (0xE0 <=? b) && (b <=? 0xEF) then
    ([], Dec (b - 0xE0) 2 (if b =? 0xE0 then 0xA0 else 0x80)
             (if b =? 0xED then 0x9F else 0xBF))
  else if (0xF0 <=? b) && (b <=? 0xF4) then
    ([], Dec (b - 0xF0) 3 (if b =? 0xF0 then 0x90 else 0x80)
             (if b =? 0xF4 then 0x8F else 0xBF))
  else (fffd, dec0).

Definition feed1 (d : decoder) (b : N) : jsstring * decoder :=
  match need d with
  | O => lead b
  | S n =>
      if (lower d <=? b) && (b <=? upper d) then
        let cp := dcp d * 64 + (b - 0x80) in
        match n with
        | O => (utf16_of_cp cp, dec0)
        | _ => ([], Dec cp n 0x80 0xBF)
        end
      else
        let '(out, d') := lead b in (fffd ++ out, d')
  end.

Fixpoint feed (d : decoder) (bs : bytes) : jsstring * decoder :=
  match bs with
  | [] => ([], d)
  | b :: rest =>
      let '(o1, d1) := feed1 d (b2N b) in
      let '(o2, d2) := feed d1 rest in
      (o1 ++ o2, d2)
  end.

(** End of input: an open sequence becomes one U+FFFD. *)
Definition finish (d : decoder) : jsstring :=
  match need d with O => [] | _ => fffd end.

Definition utf8_decode (bs : bytes) : jsstring :=
  let '(o, d) := feed dec0 bs in o ++ finish d.

End JSString.
Import JSString.

(** ** SHA-256, HMAC and PBKDF2

    The hash of FIPS 180-4 on 32-bit words, and the two constructions
    scrypt is built from. *)

Module SHA256.

Definition w32 (n : N) : N := N.land n 0xFFFFFFFF.
Definition add32 (a b : N) : N := w32 (a + b).
Definition rotr (k x : N) : N := N.lor (N.shiftr x k) (w32 (N.shiftl x (32 - k))).
Definition Ch (x y z : N) := N.lxor (N.land x y) (N.land (N.lxor x 0xFFFFFFFF) z).
Definition Maj (x y z : N) := N.lxor (N.lxor (N.land x y) (N.land x z)) (N.land y z).
Definition Sigma0 x := N.lxor (N.lxor (rotr 2 x) (rotr 13 x)) (rotr 22 x).
Definition Sigma1 x := N.lxor (N.lxor (rotr 6 x) (rotr 11 x)) (rotr 25 x).
Definition sigma0 x := N.lxor (N.lxor (rotr 7 x) (rotr 18 x)) (N.shiftr x 3).
Definition sigma1 x := N.lxor (N.lxor (rotr 17 x) (rotr 19 x)) (N.shiftr x 10).

(** The first primes, by trial division. *)
Fixpoint primes_from (fuel : nat) (k : N) (count : nat) (found : list N) : list N :=
  match fuel, count with
  | _, O => rev found
  | O, _ => rev found
  | S fuel', S count' =>
      if forallb (fun p => negb (k mod p =? 0)) found
      then primes_from fuel' (k + 1) count' (k :: found)
      else primes_from fuel' (k + 1) count found
  end.

Definition primes (count : nat) : list N := primes_from 400 2 count [].

(** The integer cube root, one bit at a time from bit [bits - 1] down. *)
Fixpoint cbrt_bits (bits : nat) (x r : N) : N :=
  match bits with
  | O => r
  | S b =>
      let r' := r + 2 ^ N.of_nat b in
      cbrt_bits b x (if r' * r' * r' <=? x then r' else r)
  end.

(** The round constants: the first 32 bits of the fractional parts of
    the cube roots of the first 64 primes (FIPS 180-4, 4.2.2). *)
Definition K : list N :=
  Eval vm_compute in
    map (fun p => w32 (cbrt_bits 36 (p * 2 ^ 96) 0)) (primes 64).

Record state := St { ha : N; hb : N; hc : N; hd : N; he : N; hf : N; hg : N; hh : N }.

(** The initial hash value: the same of the square roots of the first 8
    primes (FIPS 180-4, 5.3.3). *)
Definition H0 : state :=
  Eval vm_compute in
    match map (fun p => w32 (N.sqrt (p * 2 ^ 64))) (primes 8) with
    | [a; b; c; d; e; f; g; h] => St a b c d e f g h
    | _ => St 0 0 0 0 0 0 0 0
    end.

(** Message schedule: [w] holds the words computed so far, most recent first. *)
Fixpoint schedule (n : nat) (w : list N) : list N :=
  match n with
  | O => w
  | S n' =>
      let x := add32 (add32 (sigma1 (nth 1 w 0)) (nth 6 w 0))
                     (add32 (sigma0 (nth 14 w 0)) (nth 15 w 0)) in
      schedule n' (x :: w)
  end.

Definition round (s : state) (kw : N * N) : state :=
  let '(k, w) := kw in
  let t1 := add32 (add32 (add32 (hh s) (Sigma1 (he s))) (add32 (Ch (he s) (hf s) (hg s)) k)) w in
  let t2 := add32 (Sigma0 (ha s)) (Maj (ha s) (hb s) (hc s)) in
  St (add32 t1 t2) (ha s) (hb s) (hc s) (add32 (hd s) t1) (he s) (hf s) (hg s).

Definition compress (s : state) (block : bytes) : state :=
  let w16 := map be2N (chunks 4 block) in
  let w := rev (schedule 48 (rev w16)) in
  let r := fold_left round (combine K w) s in
  St (add32 (ha s) (ha r)) (add32 (hb s) (hb r)) (add32 (hc s) (hc r)) (add32 (hd s) (hd r))
     (add32 (he s) (he r)) (add32 (hf s) (hf r)) (add32 (hg s) (hg r)) (add32 (hh s) (hh r)).

Definition pad (msg : bytes) : bytes :=
  let l := List.length msg in
  let z := Nat.modulo (64 - Nat.modulo (l + 9) 64) 64 in
  msg ++ x80 :: repeat x00 z ++ N2be 8 (8 * N.of_nat l).

Definition digest (s : state) : bytes :=
  N2be 4 (ha s) ++ N2be 4 (hb s) ++ N2be 4 (hc s) ++ N2be 4 (hd s) ++
  N2be 4 (he s) ++ N2be 4 (hf s) ++ N2be 4 (hg s) ++ N2be 4 (hh s).

Definition sha256 (msg : bytes) : bytes :=
  digest (fold_left compress (chunks 64 (pad msg)) H0).

(** HMAC-SHA256 (RFC 2104): a key longer than the block is hashed, a
    shorter one is filled with zero bytes. *)
Definition hmac_key (k : bytes) : bytes :=
  let k' := if Nat.ltb 64 (List.length k) then sha256 k else k in
  k' ++ repeat x00 (64 - List.length k').

Definition hmac (k msg : bytes) : bytes :=
  let k0 := hmac_key k in
  sha256 (map (bxor x5c) k0 ++ sha256 (map (bxor x36) k0 ++ msg)).

(** PBKDF2-HMAC-SHA256 (RFC 8018). *)
Fixpoint pbkdf2_iter (p : bytes) (c : nat) (u acc : bytes) : bytes :=
  match c with
  | O => acc
  | S c' => let u' := hmac p u in pbkdf2_iter p c' u' (xor_bytes acc u')
  end.

Definition pbkdf2_block (p s : bytes) (c : nat) (i : N) : bytes :=
  let u1 := hmac p (s ++ N2be 4 i) in
  pbkdf2_iter p (c - 1) u1 u1.

Definition pbkdf2 (p s : bytes) (c dkLen : nat) : bytes :=
  let n := Nat.div (dkLen + 31) 32 in
  firstn dkLen (flat_map (fun i => pbkdf2_block p s c (N.of_nat i)) (seq 1 n)).

End SHA256.

(** ** scrypt (RFC 7914) *)

Module Scrypt.
Import SHA256.

Definition rotl (k x : N) : N := N.lor (w32 (N.shiftl x k)) (N.shiftr x (32 - k)).

(** One quarter-round step of Salsa20: [x[t] ^= R(x[a] + x[b], k)]. *)
Definition upd (x : list N) (t a b : nat) (k : N) : list N :=
  let v := N.lxor (nth t x 0) (rotl k (add32 (nth a x 0) (nth b x 0))) in
  firstn t x ++ v :: skipn (S t) x.

Definition quarter (x : list N) (a b c d : nat) : list N :=
  let x := upd x b a d 7 in
  let x := upd x c b a 9 in
  let x := upd x d c b 13 in
  upd x a d c 18.

Definition doubleround (x : list N) : list N :=
  let x := quarter x 0 4 8 12 in
  let x := quarter x 5 9 13 1 in
  let x := quarter x 10 14 2 6 in
  let x := quarter x 15 3 7 11 in
  let x := quarter x 0 1 2 3 in
  let x := quarter x 5 6 7 4 in
  let x := quarter x 10 11 8 9 in
  quarter x 15 12 13 14.

Definition salsa20_8 (b : bytes) : bytes :=
  let x0 := map le2N (chunks 4 b) in
  let x := doubleround (doubleround (doubleround (doubleround x0))) in
  flat_map (N2le 4) (map (fun p => add32 (fst p) (snd p)) (combine x0 x)).

(** scryptBlockMix (RFC 7914, section 4) on [2r] blocks of 64 bytes. *)
Fixpoint blockmix_loop (x : bytes) (bs : list bytes) : list bytes :=
  match bs with
  | [] => []
  | b :: rest => let y := salsa20_8 (xor_bytes x b) in y :: blockmix_loop y rest
  end.

Fixpoint evens {A} (l : list A) : list A :=
  match l with
  | a :: _ :: rest => a :: evens rest
  | [a] => [a]
  | [] => []
  end.

Definition odds {A} (l : list A) : list A :=
  match l with
  | _ :: rest => evens rest
  | [] => []
  end.

Definition blockmix (b : bytes) : bytes :=
  let bs := chunks 64 b in
  let ys := blockmix_loop (last bs []) bs in
  List.concat (evens ys ++ odds ys).

Definition integerify (b : bytes) : N :=
  le2N (firstn 8 (skipn (List.length b - 64) b)).

Fixpoint romix_fill (n : nat) (x : bytes) (v : list bytes) : bytes * list bytes :=
  match n with
  | O => (x, rev v)
  | S n' => romix_fill n' (blockmix x) (x :: v)
  end.

Fixpoint romix_mix (n : nat) (N_ : N) (v : list bytes) (x : bytes) : bytes :=
  match n with
  | O => x
  | S n' =>
      let j := integerify x mod N_ in
      romix_mix n' N_ v (blockmix (xor_bytes x (nth (N.to_nat j) v [])))
  end.

Definition romix (b : bytes) (N_ : nat) : bytes :=
  let '(x, v) := romix_fill N_ b [] in
  romix_mix N_ (N.of_nat N_) v x.

Definition scrypt (p s : bytes) (N_ r par dkLen : nat) : bytes :=
  let b := pbkdf2 p s 1 (par * 128 * r) in
  let b' := flat_map (fun bi => romix bi N_) (chunks (128 * r) b) in
  pbkdf2 p b' 1 dkLen.

End Scrypt.

(** ** AES-256 and the Galois/counter mode *)

Module AES.

(** Arithmetic of GF(2^8) modulo x^8 + x^4 + x^3 + x + 1 (FIPS 197, 4.2). *)
Definition xtime (a : N) : N :=
  if a <? 0x80 then 2 * a else N.lxor (2 * a - 0x100) 0x1B.

Fixpoint gmul_fuel (n : nat) (a b : N) : N :=
  match n with
  | O => 0
  | S n' =>
      N.lxor (if N.odd b then a else 0) (gmul_fuel n' (xtime a) (b / 2))
  end.

Definition gmul (a b : N) : N := gmul_fuel 8 a b.

Fixpoint gpow (a : N) (n : nat) : N :=
  match n with
  | O => 1
  | S n' => gmul a (gpow a n')
  end.

Definition rotl8 (x k : N) : N := (N.shiftl x k + N.shiftr x (8 - k)) mod 256.

(** The S-box: the inverse in the field (a^254), then the affine map. *)
Definition sbox_of (a : N) : N :=
  let b := gpow a 254 in
  N.lxor (N.lxor (N.lxor (N.lxor (N.lxor b (rotl8 b 1)) (rotl8 b 2)) (rotl8 b 3))
            (rotl8 b 4)) 0x63.

Definition sbox : list N :=
  Eval vm_compute in map (fun i => sbox_of (N.of_nat i)) (seq 0 256).

Definition sub (x : N) : N := nth (N.to_nat x) sbox 0.

Definition word := list N.

Definition xorw (a b : word) : word := map (fun p => N.lxor (fst p) (snd p)) (combine a b).

Definition rot_word (w : word) : word :=
  match w with
  | a :: rest => rest ++ [a]
  | [] => []
  end.

(** Key expansion for Nk = 8 (FIPS 197, 5.2); [ws] holds the words made
    so far, most recent first. *)
Fixpoint expand (n : nat) (i : nat) (rcon : N) (ws : list word) : list word :=
  match n with
  | O => rev ws
  | S n' =>
      let prev := nth 0 ws [] in
      let back := nth 7 ws [] in
      if Nat.eqb (Nat.modulo i 8) 0 then
        let t := map sub (rot_word prev) in
        let t := match t with a :: r => N.lxor a rcon :: r | [] => [] end in
        expand n' (S i) (xtime rcon) (xorw back t :: ws)
      else if Nat.eqb (Nat.modulo i 8) 4 then
        expand n' (S i) rcon (xorw back (map sub prev) :: ws)
      else
        expand n' (S i) rcon (xorw back prev :: ws)
  end.

Fixpoint group4 (n : nat) (ws : list word) : list (list N) :=
  match n with
  | O => []
  | S n' => List.concat (firstn 4 ws) :: group4 n' (skipn 4 ws)
  end.

(** The fifteen round keys of AES-256, sixteen bytes each. *)
Definition round_keys (key : bytes) : list (list N) :=
  let w0 := map (map b2N) (chunks 4 key) in
  group4 15 (expand 52 8 1 (rev w0)).

Definition shift_rows (s : list N) : list N :=
  map (fun i => nth i s 0) [0; 5; 10; 15; 4; 9; 14; 3; 8; 13; 2; 7; 12; 1; 6; 11]%nat.

Definition mix_column (c : list N) : list N :=
  match c with
  | [a0; a1; a2; a3] =>
      [N.lxor (N.lxor (xtime a0) (N.lxor (xtime a1) a1)) (N.lxor a2 a3);
       N.lxor (N.lxor a0 (xtime a1)) (N.lxor (N.lxor (xtime a2) a2) a3);
       N.lxor (N.lxor a0 a1) (N.lxor (xtime a2) (N.lxor (xtime a3) a3));
       N.lxor (N.lxor (N.lxor (xtime a0) a0) a1) (N.lxor a2 (xtime a3))]
  | _ => c
  end.

Definition mix_columns (s : list N) : list N :=
  mix_column (firstn 4 s) ++ mix_column (firstn 4 (skipn 4 s)) ++
  mix_column (firstn 4 (skipn 8 s)) ++ mix_column (firstn 4 (skipn 12 s)).

Definition add_round_key (s rk : list N) : list N := xorw s rk.

Definition cipher_rounds (rks : list (list N)) (s : list N) : list N :=
  match rks with
  | rk0 :: rest =>
      let s := add_round_key s rk0 in
      let s := fold_left
                 (fun s rk => add_round_key (mix_columns (shift_rows (map sub s))) rk)
                 (removelast rest) s in
      add_round_key (shift_rows (map sub s)) (last rest [])
  | [] => s
  end.

(** The block cipher on 128-bit numbers, for a prepared key schedule. *)
Definition encrypt_block (rks : list (list N)) (x : N) : N :=
  be2N (map N2b (cipher_rounds rks (map b2N (N2be 16 x)))).

(** The inverse cipher (FIPS 197, 5.3).  The service never runs it,
    counter mode only encrypts blocks; it is here to show that the block
    cipher is one-to-one. *)
Definition inv_sbox : list N :=
  Eval vm_compute in
    map (fun y =>
           match find (fun x => sub x =? y) (map N.of_nat (seq 0 256)) with
           | Some x => x
           | None => 0
           end)
        (map N.of_nat (seq 0 256)).

Definition inv_sub (y : N) : N := nth (N.to_nat y) inv_sbox 0.

Definition inv_shift_rows (s : list N) : list N :=
  map (fun i => nth i s 0) [0; 13; 10; 7; 4; 1; 14; 11; 8; 5; 2; 15; 12; 9; 6; 3]%nat.

Definition m9 (a : N) : N := N.lxor (xtime (xtime (xtime a))) a.
Definition m11 (a : N) : N := N.lxor (N.lxor (xtime (xtime (xtime a))) (xtime a)) a.
Definition m13 (a : N) : N := N.lxor (N.lxor (xtime (xtime (xtime a))) (xtime (xtime a))) a.
Definition m14 (a : N) : N :=
  N.lxor (N.lxor (xtime (xtime (xtime a))) (xtime (xtime a))) (xtime a).

Definition inv_mix_column (c : list N) : list N :=
  match c with
  | [b0; b1; b2; b3] =>
      [N.lxor (N.lxor (m14 b0) (m11 b1)) (N.lxor (m13 b2) (m9 b3));
       N.lxor (N.lxor (m9 b0) (m14 b1)) (N.lxor (m11 b2) (m13 b3));
       N.lxor (N.lxor (m13 b0) (m9 b1)) (N.lxor (m14 b2) (m11 b3));
       N.lxor (N.lxor (m11 b0) (m13 b1)) (N.lxor (m9 b2) (m14 b3))]
  | _ => c
  end.

Definition inv_mix_columns (s : list N) : list N :=
  inv_mix_column (firstn 4 s) ++ inv_mix_column (firstn 4 (skipn 4 s)) ++
  inv_mix_column (firstn 4 (skipn 8 s)) ++ inv_mix_column (firstn 4 (skipn 12 s)).

Definition round (s rk : list N) : list N :=
  add_round_key (mix_columns (shift_rows (map sub s))) rk.

Definition inv_round (rk s : list N) : list N :=
  map inv_sub (inv_shift_rows (inv_mix_columns (add_round_key s rk))).

Definition inv_cipher_rounds (rks : list (list N)) (s : list N) : list N :=
  match rks with
  | rk0 :: rest =>
      let s := map inv_sub (inv_shift_rows (add_round_key s (last rest []))) in
      add_round_key (fold_right inv_round s (removelast rest)) rk0
  | [] => s
  end.

Definition decrypt_block (rks : list (list N)) (y : N) : N :=
  be2N (map N2b (inv_cipher_rounds rks (map b2N (N2be 16 y)))).

(** A state, and a round key: sixteen bytes; a word of the key
    schedule: four. *)
Definition octets (n : nat) (s : list N) : Prop :=
  List.length s = n /\ Forall (fun v => v < 256) s.

Definition state16 : list N -> Prop := octets 16.

Definition word4 : word -> Prop := octets 4.

(** A key schedule: an initial round key and at least one more, sixteen
    bytes each. *)
Definition schedule (rks : list (list N)) : Prop :=
  (2 <= List.length rks)%nat /\ Forall state16 rks.

(** Equality of two columns, as a test. *)
Definition same (x y : list N) : bool :=
  if list_eq_dec N.eq_dec x y then true else false.

End AES.

Module GCM.

(** Multiplication in GF(2^128) (NIST SP 800-38D, algorithm 1): bit 0 is
    the most significant bit of the block. *)
Definition R : N := N.shiftl 0xE1 120.

Fixpoint mul_loop (i : nat) (x z v : N) : N :=
  match i with
  | O => z
  | S i' =>
      let z' := if N.testbit x (N.of_nat i') then N.lxor z v else z in
      let v' := if N.odd v then N.lxor (N.shiftr v 1) R else N.shiftr v 1 in
      mul_loop i' x z' v'
  end.

Definition gf128_mul (x y : N) : N := mul_loop 128 x 0 y.

Definition ghash (h : N) (blocks : list N) : N :=
  fold_left (fun y x => gf128_mul (N.lxor y x) h) blocks 0.

(** The 128-bit blocks of a byte string, the last filled with zero bits. *)
Definition blocks_of (bs : bytes) : list N :=
  map (fun c => be2N (c ++ repeat x00 (16 - List.length c))) (chunks 16 bs).

Definition bitlen (bs : bytes) : N := 8 * N.of_nat (List.length bs).

Definition inc32 (x : N) : N := (x / 2 ^ 32) * 2 ^ 32 + (x + 1) mod 2 ^ 32.

(** The pre-counter block: the IV itself when it has 96 bits, a hash of
    it otherwise. *)
Definition J0 (h : N) (iv : bytes) : N :=
  if Nat.eqb (List.length iv) 12 then be2N iv * 2 ^ 32 + 1
  else ghash h (blocks_of iv ++ [bitlen iv]).

Fixpoint keystream (E : N -> N) (n : nat) (ctr : N) : bytes :=
  match n with
  | O => []
  | S n' => let c := inc32 ctr in N2be 16 (E c) ++ keystream E n' c
  end.

Record keyed := Keyed { E : N -> N; H : N; Y0 : N }.

Definition init (key iv : bytes) : keyed :=
  let rks := AES.round_keys key in
  let e := AES.encrypt_block rks in
  let h := e 0 in
  Keyed e h (J0 h iv).

(** Counter mode from byte offset [off] of the message. *)
Definition crypt (k : keyed) (off : nat) (data : bytes) : bytes :=
  let n := Nat.div (off + List.length data + 15) 16 in
  xor_bytes data (skipn off (keystream (E k) n (Y0 k))).

(** The tag of a ciphertext, no associated data. *)
Definition tag (k : keyed) (ct : bytes) : bytes :=
  N2be 16 (N.lxor (ghash (H k) (blocks_of ct ++ [bitlen ct])) (E k (Y0 k))).

End GCM.

(** ** The runtime: exceptions, the process, the [crypto] module *)

Module Node.

(** A call returns a value or throws an [Error] with a message. *)
Inductive result (A : Type) : Type :=
| Ok (a : A)
| Throw (message : string).
Arguments Ok {A} a.
Arguments Throw {A} message.

(** Computations over a state [S]; what was done before a throw stays
    done. *)
Definition M (S A : Type) : Type := S -> result A * S.

Definition ret {S A} (a : A) : M S A := fun s => (Ok a, s).

Definition bind {S A B} (m : M S A) (k : A -> M S B) : M S B :=
  fun s =>
    match m s with
    | (Ok a, s') => k a s'
    | (Throw e, s') => (Throw e, s')
    end.

Definition throw {S A} (e : string) : M S A := fun s => (Throw e, s).

Definition try_catch {S A} (m : M S A) (handler : string -> M S A) : M S A :=
  fun s =>
    match m s with
    | (Ok a, s') => (Ok a, s')
    | (Throw e, s') => handler e s'
    end.

Declare Scope js_scope.
Delimit Scope js_scope with js.
Notation "x <- m ;; k" := (bind m (fun x => k))
  (at level 61, m at next level, right associativity) : js_scope.
Notation "' p <- m ;; k" := (bind m (fun x => let p := x in k))
  (at level 61, p pattern, m at next level, right associativity) : js_scope.
Notation "m ;;; k" := (bind m (fun _ => k))
  (at level 61, right associativity) : js_scope.
Local Open Scope js_scope.

(** The calls into the runtime that are kept track of. *)
Inductive event : Type :=
| EvScrypt (password salt : bytes) (keylen : nat)
| EvRandomBytes (n : nat)
| EvCreateCipheriv
| EvCreateDecipheriv
| EvConsoleError (line : string).

Record World := MkWorld {
  ENCRYPTION_KEY : option jsstring;   (* process.env.ENCRYPTION_KEY *)
  entropy : nat -> byte;              (* the bytes the system RNG will give *)
  drawn : nat;                        (* how many of them were taken *)
  journal : list event                (* oldest first *)
}.

Definition record (e : event) : M World unit :=
  fun w => (Ok tt, MkWorld (ENCRYPTION_KEY w) (entropy w) (drawn w)
                           (journal w ++ [e])).

Definition console_error (line : string) : M World unit :=
  record (EvConsoleError line).

(** [scryptSync(password, salt, keylen)] with the default cost
    parameters N = 16384, r = 8, p = 1; strings are taken as UTF-8. *)
Definition scrypt_key (password salt : jsstring) (keylen : nat) : bytes :=
  Scrypt.scrypt (utf8_encode password) (utf8_encode salt) (Nat.pow 2 14) 8 1 keylen.

Definition scryptSync (password salt : jsstring) (keylen : nat) : M World bytes :=
  record (EvScrypt (utf8_encode password) (utf8_encode salt) keylen) ;;;
  ret (scrypt_key password salt keylen).

Definition next_bytes (w : World) (n : nat) : bytes :=
  map (entropy w) (seq (drawn w) n).

Definition randomBytes (n : nat) : M World bytes :=
  fun w => (Ok (next_bytes w n),
            MkWorld (ENCRYPTION_KEY w) (entropy w) (drawn w + n)
                    (journal w ++ [EvRandomBytes n])).

Definition auth_failed : string :=
  "Unsupported state or unable to authenticate data".

(** The object [createCipheriv("aes-256-gcm", key, iv)] returns. *)
Record Cipheriv := MkCipheriv {
  c_key : bytes;
  c_iv : bytes;
  c_out : bytes;            (* ciphertext produced so far *)
  c_tag : option bytes      (* set by final() *)
}.

Definition check_init (algorithm : string) (key iv : bytes) : option string :=
  if negb (String.eqb algorithm "aes-256-gcm") then Some "Unknown cipher"%string
  else if negb (Nat.eqb (List.length key) 32) then Some "Invalid key length"%string
  else if Nat.eqb (List.length iv) 0 then Some "Invalid initialization vector"%string
  else None.

Definition createCipheriv (algorithm : string) (key iv : bytes) : M World Cipheriv :=
  record EvCreateCipheriv ;;;
  match check_init algorithm key iv with
  | Some e => throw e
  | None => ret (MkCipheriv key iv [] None)
  end.

(** [cipher.update(data, "utf8", "hex")] *)
Definition Cipher_update (c : Cipheriv) (data : jsstring) : M World (string * Cipheriv) :=
  match c_tag c with
  | Some _ => throw "Trying to add data in unsupported state"
  | None =>
      let out := GCM.crypt (GCM.init (c_key c) (c_iv c)) (List.length (c_out c))
                           (utf8_encode data) in
      ret (toString_hex out, MkCipheriv (c_key c) (c_iv c) (c_out c ++ out) None)
  end.

(** [cipher.final("hex")]: counter mode holds nothing back. *)
Definition Cipher_final (c : Cipheriv) : M World (string * Cipheriv) :=
  match c_tag c with
  | Some _ => throw "Unsupported state"
  | None =>
      ret (EmptyString,
           MkCipheriv (c_key c) (c_iv c) (c_out c)
                    (Some (GCM.tag (GCM.init (c_key c) (c_iv c)) (c_out c))))
  end.

Definition getAuthTag (c : Cipheriv) : M World bytes :=
  match c_tag c with
  | Some t => ret t
  | None => throw "Invalid state for operation getAuthTag"
  end.

(** The object [createDecipheriv("aes-256-gcm", key, iv)] returns. *)
Record Decipheriv := MkDecipheriv {
  d_key : bytes;
  d_iv : bytes;
  d_tag : option bytes;     (* what setAuthTag() was given *)
  d_in : bytes;             (* ciphertext taken so far *)
  d_text : decoder          (* the UTF-8 reader of the output *)
}.

Definition createDecipheriv (algorithm : string) (key iv : bytes) : M World Decipheriv :=
  record EvCreateDecipheriv ;;;
  match check_init algorithm key iv with
  | Some e => throw e
  | None => ret (MkDecipheriv key iv None [] dec0)
  end.

(** The tag lengths GCM admits when no [authTagLength] option is given. *)
Definition valid_gcm_tag_length (n : nat) : bool :=
  Nat.eqb n 4 || Nat.eqb n 8 || (Nat.leb 12 n && Nat.leb n 16).

Definition decimal (n : nat) : string := NilEmpty.string_of_uint (Nat.to_uint n).

Definition setAuthTag (d : Decipheriv) (t : bytes) : M World Decipheriv :=
  if valid_gcm_tag_length (List.length t)
  then ret (MkDecipheriv (d_key d) (d_iv d) (Some t) (d_in d) (d_text d))
  else throw ("Invalid authentication tag length: " ++ decimal (List.length t)).

(** [decipher.update(data, "hex", "utf8")] *)
Definition Decipher_update (d : Decipheriv) (data : string) : M World (jsstring * Decipheriv) :=
  let ct := Buffer_from_hex data in
  let pt := GCM.crypt (GCM.init (d_key d) (d_iv d)) (List.length (d_in d)) ct in
  let '(out, text) := feed (d_text d) pt in
  ret (out, MkDecipheriv (d_key d) (d_iv d) (d_tag d) (d_in d ++ ct) text).

(** [decipher.final("utf8")]: the tag given is compared with as many
    bytes of the tag of what was read. *)
Definition Decipher_final (d : Decipheriv) : M World jsstring :=
  match d_tag d with
  | None => throw auth_failed
  | Some t =>
      let full := GCM.tag (GCM.init (d_key d) (d_iv d)) (d_in d) in
      if bytes_eqb (firstn (List.length t) full) t
      then ret (finish (d_text d))
      else throw auth_failed
  end.

End Node.
Import Node.
Local Open Scope js_scope.

(** ** [class EncryptionService] *)

Record EncryptionService := MkService {
  key : bytes;          (* private key: Buffer *)
  SALT : jsstring       (* private readonly SALT *)
}.

Definition SALT_literal : jsstring := js "wedding-gallery-v2".

(** A method runs on the instance and the world. *)
Definition Method (A : Type) : Type := M (EncryptionService * World) A.

Definition io {A} (m : M World A) : Method A :=
  fun s => let '(r, w) := m (snd s) in (r, (fst s, w)).

Definition this : Method EncryptionService := fun s => (Ok (fst s), s).

Definition missing_key : string :=
  "ENCRYPTION_KEY is required in the environment variables.".

(** [constructor() {
      if (!process.env.ENCRYPTION_KEY) throw new Error("ENCRYPTION_KEY is ...");
      this.key = scryptSync(process.env.ENCRYPTION_KEY, this.SALT, 32); }]
    An unset variable and the empty string are both falsy. *)
Definition constructor : M World EncryptionService :=
  fun w =>
    match ENCRYPTION_KEY w with
    | Some (c :: s) =>
        (k <- scryptSync (c :: s) SALT_literal 32 ;;
         ret (MkService k SALT_literal)) w
    | _ => throw missing_key w
    end.

(** [forceKey ? scryptSync(forceKey, this.SALT, 32) : this.key]: an
    absent override and the empty string are both falsy. *)
Definition choose_key (forceKey : option jsstring) : Method bytes :=
  self <- this ;;
  match forceKey with
  | Some (c :: s) => io (scryptSync (c :: s) (SALT self) 32)
  | _ => ret (key self)
  end.

(** [encrypt(data: string, forceKey?: string): string] *)
Definition encrypt (data : jsstring) (forceKey : option jsstring) : Method string :=
  try_catch
    (key <- choose_key forceKey ;;
     iv <- io (randomBytes 12) ;;
     cipher <- io (createCipheriv "aes-256-gcm" key iv) ;;
     ' (encrypted, cipher) <- io (Cipher_update cipher data) ;;
     ' (rest, cipher) <- io (Cipher_final cipher) ;;
     let encrypted := (encrypted ++ rest)%string in
     authTag <- io (getAuthTag cipher) ;;
     let combined := Buffer_concat [iv; authTag; Buffer_from_hex encrypted] in
     ret (toString_base64url combined))
    (fun e =>
       io (console_error ("[EncryptionService.encrypt] " ++ e)) ;;;
       throw ("[EncryptionService.encrypt] " ++ e)%string).

(** [decrypt(encoded: string, forceKey?: string): string], on a text of
    8-bit characters, as [encrypt] returns it; [JS.decrypt] below is
    the method on any JavaScript string. *)
Definition decrypt (encoded : string) (forceKey : option jsstring) : Method jsstring :=
  try_catch
    (key <- choose_key forceKey ;;
     let combined := Buffer_from_base64url encoded in
     let iv := slice combined 0 12 in
     let authTag := slice combined 12 28 in
     let encryptedHex := toString_hex (slice_from combined 28) in
     decipher <- io (createDecipheriv "aes-256-gcm" key iv) ;;
     decipher <- io (setAuthTag decipher authTag) ;;
     ' (decrypted, decipher) <- io (Decipher_update decipher encryptedHex) ;;
     rest <- io (Decipher_final decipher) ;;
     ret (decrypted ++ rest))
    (fun e =>
       io (console_error ("[EncryptionService.decrypt] " ++ e)) ;;;
       throw ("[EncryptionService.decrypt] " ++ e)%string).

(** [export const encryptionService = new EncryptionService();] and a
    client that imports it: the client code runs on the exported
    instance, if the module could be loaded. *)
Definition with_service {A} (client : Method A) : M World A :=
  self <- constructor ;;
  fun w => let '(r, s) := client (self, w) in (r, snd s).

(** The development route: [encrypt] and then [decrypt], same override. *)
Definition round_trip (data : jsstring) (forceKey : option jsstring) : Method jsstring :=
  encrypted <- encrypt data forceKey ;;
  decrypt encrypted forceKey.

(** ** What the methods compute

    The values the two methods work with, named so that the statements
    below can speak of them. *)

(** The key a call uses: the cached one unless an override is given
    (and an empty override is none). *)
Definition effective_key (self : EncryptionService) (forceKey : option jsstring) : bytes :=
  match forceKey with
  | Some (c :: s) => scrypt_key (c :: s) (SALT self) 32
  | _ => key self
  end.

(** The key derivations a call makes. *)
Definition derivations (self : EncryptionService) (forceKey : option jsstring) : list event :=
  match forceKey with
  | Some (c :: s) => [EvScrypt (utf8_encode (c :: s)) (utf8_encode (SALT self)) 32]
  | _ => []
  end.

Definition ciphertext (k iv : bytes) (data : jsstring) : bytes :=
  GCM.crypt (GCM.init k iv) 0 (utf8_encode data).

Definition envelope (k iv : bytes) (data : jsstring) : bytes :=
  iv ++ GCM.tag (GCM.init k iv) (ciphertext k iv data) ++ ciphertext k iv data.

Definition token (k iv : bytes) (data : jsstring) : string :=
  toString_base64url (envelope k iv data).

(** What the decipher makes of decoded bytes under a key. *)
Definition open_envelope (k combined : bytes) : result jsstring :=
  let iv := slice combined 0 12 in
  let t := slice combined 12 28 in
  let ct := slice_from combined 28 in
  match check_init "aes-256-gcm" k iv with
  | Some e => Throw e
  | None =>
      if valid_gcm_tag_length (List.length t) then
        if bytes_eqb (firstn (List.length t) (GCM.tag (GCM.init k iv) ct)) t
        then Ok (utf8_decode (GCM.crypt (GCM.init k iv) 0 ct))
        else Throw auth_failed
      else Throw ("Invalid authentication tag length: " ++ decimal (List.length t))
  end.

(** What the cipher makes of a plaintext under a key and a nonce. *)
Definition seal (k iv : bytes) (data : jsstring) : result string :=
  match check_init "aes-256-gcm" k iv with
  | Some e => Throw e
  | None => Ok (token k iv data)
  end.

(** The [catch] block of a method: log the message, throw it again. *)
Definition rethrown {A} (method : string) (r : result A) : result A :=
  match r with
  | Ok a => Ok a
  | Throw e => Throw ("[EncryptionService." ++ method ++ "] " ++ e)
  end.

Definition complaint {A} (method : string) (r : result A) : list event :=
  match r with
  | Ok _ => []
  | Throw e => [EvConsoleError ("[EncryptionService." ++ method ++ "] " ++ e)]
  end.

Definition with_journal (w : World) (j : list event) : World :=
  MkWorld (ENCRYPTION_KEY w) (entropy w) (drawn w) j.

Definition scrypt_runs (j : list event) : nat :=
  List.length (filter (fun e => match e with EvScrypt _ _ _ => true | _ => false end) j).

(** One bit of a byte string turned over: bit [i mod 8] of byte [i / 8]. *)
Fixpoint flip_bit (i : nat) (bs : bytes) : bytes :=
  match bs with
  | [] => []
  | b :: rest =>
      if Nat.ltb i 8 then N2b (N.lxor (b2N b) (2 ^ N.of_nat i)) :: rest
      else b :: flip_bit (i - 8) rest
  end.

(** ** A concrete run

    A process whose runtime secret is ["test-secret"] and whose random
    source gives the bytes 01, 02, 03, ... *)

Definition test_secret : jsstring := js "test-secret".

Definition world0 : World :=
  MkWorld (Some test_secret) (fun i => N2b (N.of_nat (i + 1))) 0 [].

Definition service0 : EncryptionService :=
  MkService (scrypt_key test_secret SALT_literal 32) SALT_literal.

Definition nonce0 : bytes := [x01; x02; x03; x04; x05; x06; x07; x08; x09; x0a; x0b; x0c].

(** The folder identifier of the documentation, 33 characters. *)
Definition folder_id : jsstring := js "1rTymTXw2xXa8nm7FbN53yXSmEtvR0_UR".

(** An identifier of 35 characters. *)
Definition id35 : jsstring := js "1rTymTXw2xXa8nm7FbN53yXSmEtvR0_UR-x".

(** "h\u00e9llo \u2713 \ud83d\ude00": a Latin-1 letter, a three-byte
    character and a surrogate pair. *)
Definition greeting : jsstring :=
  js "h" ++ [C16 x00 xe9] ++ js "llo " ++ [C16 x27 x13] ++ js " "
    ++ [C16 xd8 x3d; C16 xde x00].

(** U+0000, the character whose UTF-8 form is one zero byte. *)
Definition NUL : char16 := C16 x00 x00.

(** ASCII text as bytes. *)
Definition ascii_bytes (s : string) : bytes :=
  map byte_of_ascii (list_ascii_of_string s).

(** The key that [scryptSync("test-secret", "wedding-gallery-v2", 32)]
    returns, given by value: deriving it takes 2^15 rounds of
    scryptBlockMix, more than a proof by evaluation can carry. *)
Definition key_of_test_secret : bytes :=
  N2be 32 0xdcd67f94d09f8f00c95b12e66f3c2cab43957757f5db2a733230a3093ef99f47.

Definition service_by_value : EncryptionService :=
  MkService key_of_test_secret SALT_literal.

(** ** [String.prototype.toWellFormed]

    What the UTF-8 writer makes of a string, read back: every unpaired
    surrogate replaced by U+FFFD. *)

Fixpoint toWellFormed (s : jsstring) : jsstring :=
  match s with
  | [] => []
  | c :: rest =>
      if is_high (cu c) then
        match rest with
        | d :: rest' =>
            if is_low (cu d) then c :: d :: toWellFormed rest'
            else mk16 0xFFFD :: toWellFormed rest
        | [] => fffd
        end
      else if is_low (cu c) then mk16 0xFFFD :: toWellFormed rest
      else c :: toWellFormed rest
  end.

(** [a === b] on strings. *)
Fixpoint string_eqb (a b : jsstring) : bool :=
  match a, b with
  | [], [] => true
  | x :: a', y :: b' => (cu x =? cu y) && string_eqb a' b'
  | _, _ => false
  end.

(** A value used as a condition: [undefined], [null] and the empty
    string are falsy. *)
Definition truthy (s : option jsstring) : bool :=
  match s with
  | Some (_ :: _) => true
  | _ => false
  end.

(** ** The base64 functions of [@oslojs/encoding] *)

Module Oslo.

Inductive EncodingPadding := Include | NoPadding.

Inductive DecodingPadding := Required | Ignore.

Definition base64Alphabet : jsstring :=
  js "ABCDEFGHIJKLMNOPQRSTUVWXYZabcdefghijklmnopqrstuvwxyz0123456789+/".

Definition base64urlAlphabet : jsstring :=
  js "ABCDEFGHIJKLMNOPQRSTUVWXYZabcdefghijklmnopqrstuvwxyz0123456789-_".

Definition equals_sign : char16 := C16 x00 x3d.

(** [alphabet[k]] appended to a string: a character, or the text of
    [undefined] past the end. *)
Definition char_at (alphabet : jsstring) (k : N) : jsstring :=
  match nth_error alphabet (N.to_nat k) with
  | Some c => [c]
  | None => js "undefined"
  end.

(** The first inner loop of the writer: up to three bytes are shifted
    into [buffer]. *)
Definition read_group (group : bytes) : N * N :=
  fold_left (fun st b => (N.lor (N.shiftl (fst st) 8) (b2N b), snd st + 8)) group (0, 0).

(** The second inner loop: four rounds, each writes six bits of the
    buffer, the bits left over filled up with zeros, or the padding. *)
Fixpoint write_group (j : nat) (alphabet : jsstring) (padding : EncodingPadding)
         (buffer bufferBitSize : N) : jsstring :=
  match j with
  | O => []
  | S j' =>
      if 6 <=? bufferBitSize then
        char_at alphabet (N.land (N.shiftr buffer (bufferBitSize - 6)) 0x3f)
          ++ write_group j' alphabet padding buffer (bufferBitSize - 6)
      else if 0 <? bufferBitSize then
        char_at alphabet (N.land (N.shiftl buffer (6 - bufferBitSize)) 0x3f)
          ++ write_group j' alphabet padding buffer 0
      else
        match padding with
        | Include => equals_sign :: write_group j' alphabet padding buffer bufferBitSize
        | NoPadding => write_group j' alphabet padding buffer bufferBitSize
        end
  end.

Definition encodeBase64_internal (data : bytes) (alphabet : jsstring)
           (padding : EncodingPadding) : jsstring :=
  flat_map (fun group =>
              let st := read_group group in
              write_group 4 alphabet padding (fst st) (snd st))
           (chunks 3 data).

Definition encodeBase64 (data : bytes) : jsstring :=
  encodeBase64_internal data base64Alphabet Include.

Definition encodeBase64url (data : bytes) : jsstring :=
  encodeBase64_internal data base64urlAlphabet Include.

(** The decoding tables of the library are the alphabets read the other
    way: a character to its place. *)
Fixpoint index_of (c : char16) (alphabet : jsstring) : option N :=
  match alphabet with
  | [] => None
  | a :: rest =>
      if cu a =? cu c then Some 0
      else match index_of c rest with
           | Some k => Some (N.succ k)
           | None => None
           end
  end.

Definition base64DecodeMap (c : char16) : option N := index_of c base64Alphabet.

Definition base64urlDecodeMap (c : char16) : option N := index_of c base64urlAlphabet.

Definition is_equals (c : option char16) : bool :=
  match c with
  | Some c => cu c =? 0x3d
  | None => false
  end.

(** The inner loop of the reader, on the text from index [i] on: rounds
    [j], [j + 1], ... up to 3.  [encoded[i + j]] is [undefined] past the
    end of the text, and [undefined] is in no table. *)
Fixpoint read_chunk (n j : nat) (rest : jsstring) (decodeMap : char16 -> option N)
         (padding : DecodingPadding) (chunk bitsRead : N) : result (N * N) :=
  match n with
  | O => Ok (chunk, bitsRead)
  | S n' =>
      let c := nth_error rest j in
      let skip :=
        match padding with
        | Required => is_equals c
        | Ignore => match c with None => true | _ => is_equals c end
        end in
      if skip then read_chunk n' (S j) rest decodeMap padding chunk bitsRead
      else if Nat.ltb 0 j && is_equals (nth_error rest (j - 1)) then Throw "Invalid padding"
      else
        match c with
        | Some ch =>
            match decodeMap ch with
            | Some v =>
                read_chunk n' (S j) rest decodeMap padding
                  (N.lor chunk (N.shiftl v (N.of_nat ((3 - j) * 6)))) (bitsRead + 6)
            | None => Throw "Invalid character"
            end
        | None => Throw "Invalid character"
        end
  end.

(** A chunk that gave fewer than 24 bits must have given 12 or 18, and
    the bits that are no part of a byte must be zero. *)
Definition check_chunk (chunk bitsRead : N) : result unit :=
  if bitsRead <? 24 then
    if bitsRead =? 12 then
      if N.land chunk 0xffff =? 0 then Ok tt else Throw "Invalid padding"
    else if bitsRead =? 18 then
      if N.land chunk 0xff =? 0 then Ok tt else Throw "Invalid padding"
    else Throw "Invalid padding"
  else Ok tt.

Definition chunk_bytes (chunk bitsRead : N) : bytes :=
  map (fun i => N2b (N.land (N.shiftr chunk (N.of_nat (16 - i * 8))) 0xff))
      (seq 0 (N.to_nat (bitsRead / 8))).

(** The outer loop, four characters at a time while there is text. *)
Fixpoint decode_loop (fuel : nat) (rest : jsstring) (decodeMap : char16 -> option N)
         (padding : DecodingPadding) (done : bytes) : result bytes :=
  match fuel, rest with
  | _, [] => Ok done
  | O, _ => Ok done
  | S fuel', _ =>
      match read_chunk 4 0 rest decodeMap padding 0 0 with
      | Throw e => Throw e
      | Ok (chunk, bitsRead) =>
          match check_chunk chunk bitsRead with
          | Throw e => Throw e
          | Ok _ =>
              decode_loop fuel' (skipn 4 rest) decodeMap padding
                          (done ++ chunk_bytes chunk bitsRead)
          end
      end
  end.

Definition decodeBase64_internal (encoded : jsstring) (decodeMap : char16 -> option N)
           (padding : DecodingPadding) : result bytes :=
  decode_loop (List.length encoded) encoded decodeMap padding [].

Definition decodeBase64 (encoded : jsstring) : result bytes :=
  decodeBase64_internal encoded base64DecodeMap Required.

Definition decodeBase64url (encoded : jsstring) : result bytes :=
  decodeBase64_internal encoded base64urlDecodeMap Required.

(** The character that stands for a value. *)
Definition symbol (alphabet : jsstring) (k : N) : char16 :=
  nth (N.to_nat k) alphabet equals_sign.

(** A character of the text is acceptable to a table: it is in it, or
    it is the padding. *)
Definition acceptable (decodeMap : char16 -> option N) (c : char16) : bool :=
  is_equals (Some c) || match decodeMap c with Some _ => true | None => false end.

End Oslo.

(** ** [base64Encode] and [base64Decode] *)

(** [new TextEncoder().encode(text)] *)
Definition TextEncoder_encode (text : jsstring) : bytes := utf8_encode text.

(** [new TextDecoder().decode(data)]: UTF-8 with U+FFFD for what is ill
    formed; a byte order mark at the start is dropped ([ignoreBOM] is
    not set). *)
Definition strip_mark (data : bytes) : bytes :=
  match data with
  | xef :: xbb :: xbf :: rest => rest
  | _ => data
  end.

Definition TextDecoder_decode (data : bytes) : jsstring :=
  utf8_decode (strip_mark data).

(** A string without the byte order mark U+FEFF it may start with. *)
Definition drop_bom (s : jsstring) : jsstring :=
  match s with
  | c :: rest => if cu c =? 0xFEFF then rest else s
  | [] => []
  end.

Inductive B64Type := url | standard.

(** The alphabet and the table that go with a type; [None] is the
    argument left out, which means ["url"]. *)
Definition alphabet_for (type : option B64Type) : jsstring :=
  match type with
  | Some standard => Oslo.base64Alphabet
  | _ => Oslo.base64urlAlphabet
  end.

Definition table_for (type : option B64Type) : char16 -> option N :=
  match type with
  | Some standard => Oslo.base64DecodeMap
  | _ => Oslo.base64urlDecodeMap
  end.

(** [base64Encode(text, type = "url")]; [None] is the argument left out. *)
Definition base64Encode (text : jsstring) (type : option B64Type) : jsstring :=
  let data := TextEncoder_encode text in
  match type with
  | Some standard => Oslo.encodeBase64 data
  | _ => Oslo.encodeBase64url data
  end.

Definition of_result {S A} (r : result A) : M S A := fun s => (r, s).

(** [base64Decode(encoded, type = "url")]: [None] is JavaScript's [null]. *)
Definition base64Decode (encoded : jsstring) (type : option B64Type)
  : M World (option jsstring) :=
  try_catch
    (decoded <- of_result
                  match type with
                  | Some standard => Oslo.decodeBase64 encoded
                  | _ => Oslo.decodeBase64url encoded
                  end ;;
     ret (Some (TextDecoder_decode decoded)))
    (fun e =>
       console_error ("[base64Decode] " ++ e) ;;;
       ret None).

(** ** [class GoogleDriveService] and the exports of the module

    The constructor as far as this file has it: reading the JSON text,
    the schema of the service account and the Google client are other
    modules, and stand here as any computations at all. *)

Section GoogleDrive.

Variables (JSON Account Auth Drive : Type).
Variable JSON_parse : jsstring -> M World JSON.
Variable safeParse : JSON -> M World (option Account).
Variable GoogleAuth : Account -> M World Auth.
Variable drive : Auth -> bool -> M World Drive.

Record GoogleDriveService := MkDrive {
  auth : Auth;
  gdrive : Drive;
  gdriveNoCache : Drive
}.

Definition undefined_length : string :=
  "Cannot read properties of undefined (reading 'length')".

(** [process.env.GD_SERVICE_B64!] may well be [undefined]: the reader
    then fails on [encoded.length], inside the [try] of [base64Decode]. *)
Definition decode_service (GD_SERVICE_B64 : option jsstring) : M World (option jsstring) :=
  match GD_SERVICE_B64 with
  | Some encoded => base64Decode encoded None
  | None => console_error ("[base64Decode] " ++ undefined_length) ;;; ret None
  end.

(** [new google.auth.GoogleAuth(...)] is an object, so [!this.auth] is
    false whenever the call returned. *)
Definition GoogleDriveService_constructor (GD_SERVICE_B64 : option jsstring)
  : M World GoogleDriveService :=
  decodedB64 <- decode_service GD_SERVICE_B64 ;;
  match decodedB64 with
  | Some (c :: s) =>
      json <- JSON_parse (c :: s) ;;
      parsedAuth <- safeParse json ;;
      match parsedAuth with
      | None => throw "Failed to parse service account"
      | Some data =>
          a <- GoogleAuth data ;;
          g <- drive a false ;;
          n <- drive a true ;;
          ret (MkDrive a g n)
      end
  | _ => throw "Failed to decode GD_SERVICE_B64"
  end.

(** [export const { gdrive, gdriveNoCache } = new GoogleDriveService();
     export const encryptionService = new EncryptionService();] *)
Definition module_exports (GD_SERVICE_B64 : option jsstring)
  : M World (Drive * Drive * EncryptionService) :=
  service <- GoogleDriveService_constructor GD_SERVICE_B64 ;;
  encryptionService <- constructor ;;
  ret (gdrive service, gdriveNoCache service, encryptionService).

End GoogleDrive.

(** ** The development route [GET /api/internal/encrypt] *)

Inductive Body : Type :=
| Text (text : string)
| Json (message : string) (encryptedValue : string) (decryptedValue : jsstring).

Record Response := MkResponse { status : nat; body : Body }.

(** [searchParams.get(name)]: the first value of that name, or [null]. *)
Fixpoint searchParams_get (sp : list (jsstring * jsstring)) (name : jsstring)
  : option jsstring :=
  match sp with
  | [] => None
  | (n, v) :: rest => if string_eqb n name then Some v else searchParams_get rest name
  end.

(** The handler, for the value of [process.env.NODE_ENV] and the search
    parameters of the request as the URL parser gives them.  The journal
    keeps the message of the error that [console.error(e)] prints. *)
Definition GET (NODE_ENV : option jsstring) (sp : list (jsstring * jsstring))
  : Method Response :=
  match NODE_ENV with
  | Some env =>
      if string_eqb env (js "development") then
        try_catch
          (let query := searchParams_get sp (js "q") in
           let key := searchParams_get sp (js "key") in
           match query with
           | Some (c :: s) =>
               encrypted <- encrypt (c :: s) key ;;
               decrypted <- decrypt encrypted key ;;
               ret (MkResponse 200
                      (Json (if truthy key then "Encrypted with provided key"
                             else "Encrypted with environment key")
                            encrypted decrypted))
           | _ =>
               ret (MkResponse 400
                      (Text "Add query parameter 'q' with the value to encrypt"))
           end)
          (fun e =>
             io (console_error e) ;;;
             ret (MkResponse 500 (Text e)))
      else ret (MkResponse 404 (Text "Not available in production"))
  | None => ret (MkResponse 404 (Text "Not available in production"))
  end.

(** The [console.error] lines of a journal. *)
Definition console_errors (j : list event) : list string :=
  flat_map (fun e => match e with EvConsoleError line => [line] | _ => [] end) j.

(** A token with the characters of standard base64 in the place of the
    URL-safe ones. *)
Definition standard_char (c : ascii) : ascii :=
  if Ascii.eqb c "-" then "+"%char
  else if Ascii.eqb c "_" then "/"%char
  else c.

Fixpoint standard_text (s : string) : string :=
  match s with
  | EmptyString => EmptyString
  | String c rest => String (standard_char c) (standard_text rest)
  end.

(** ** [decrypt] on any JavaScript string

    [decrypt(encoded, forceKey)] is given any string: the route and the
    callers pass what a request holds.  The base64 reader of
    [Buffer.from] takes a code unit of the string by its low byte, so it
    reads U+0141 as ['A'] and U+013D as ['=']; on a string of 8-bit
    characters it is [Base64url.Buffer_from_base64url]. *)

Module JS.

Definition low_byte (c : char16) : ascii := ascii_of_byte (lo c).

Fixpoint low_bytes (s : jsstring) : string :=
  match s with
  | [] => EmptyString
  | c :: rest => String (low_byte c) (low_bytes rest)
  end.

Definition Buffer_from_base64url (encoded : jsstring) : bytes :=
  Base64url.Buffer_from_base64url (low_bytes encoded).





Definition decrypt (encoded : jsstring) (forceKey : option jsstring) : Method jsstring :=
  try_catch
    (key <- choose_key forceKey ;;
     let combined := Buffer_from_base64url encoded in
     let iv := slice combined 0 12 in
     let authTag := slice combined 12 28 in
     let encryptedHex := toString_hex (slice_from combined 28) in
     decipher <- io (createDecipheriv "aes-256-gcm" key iv) ;;
     decipher <- io (setAuthTag decipher authTag) ;;
     ' (decrypted, decipher) <- io (Decipher_update decipher encryptedHex) ;;
     rest <- io (Decipher_final decipher) ;;
     ret (decrypted ++ rest))
    (fun e =>
       io (console_error ("[EncryptionService.decrypt] " ++ e)) ;;;
       throw ("[EncryptionService.decrypt] " ++ e)%string).

End JS.

(** ** More concrete data *)

(** Another process with the same runtime secret: another random source,
    some of it used already. *)
Definition world1 : World :=
  MkWorld (Some test_secret) (fun i => N2b (N.of_nat (7 * i))) 40 [].

(** The token of ["1rTymTXw2xXa8nm7FbN53yXSmEtvR0_UR"] under the key of
    ["test-secret"] and the nonce 01 .. 0c, and the same with its last
    character but one changed. *)
Definition token0 : string :=
  "AQIDBAUGBwgJCgsMz5AWXsT75BUTGnxchvFrgrVjTq9QOtPaJvh9u2ZhYoWUxMBmn_Nch6XpwQn1OcJt1A".

Definition token0_changed : string :=
  "AQIDBAUGBwgJCgsMz5AWXsT75BUTGnxchvFrgrVjTq9QOtPaJvh9u2ZhYoWUxMBmn_Nch6XpwQn1OcJt2A".

(** A request of the development route. *)
Definition request0 : list (jsstring * jsstring) :=
  [(js "q", folder_id); (js "key", js "keyA")].
(** * Properties *)

(** ** Bytes and numbers *)

Ltac Zify.zify_post_hook ::= Z.to_euclidean_division_equations.

Lemma N2b_b2N (b : byte) : N2b (b2N b) = b.
Proof.
  unfold N2b, b2N.
  pose proof (Byte.to_N_bounded b) as Hb.
  rewrite N.mod_small by lia.
  now rewrite Byte.of_to_N.
Qed.

Lemma b2N_lt (b : byte) : b2N b < 256.
Proof. unfold b2N. pose proof (Byte.to_N_bounded b). lia. Qed.

Lemma b2N_N2b (n : N) : n < 256 -> b2N (N2b n) = n.
Proof.
  intros Hn. unfold N2b, b2N. rewrite N.mod_small by lia.
  destruct (Byte.of_N n) as [b|] eqn:E.
  - now apply Byte.to_of_N.
  - pose proof (Byte.to_of_N_option_map n) as H. rewrite E in H. simpl in H.
    destruct (N.leb_spec n 255); [discriminate | lia].
Qed.

Lemma N2b_eq (n : N) (b : byte) : n = b2N b -> N2b n = b.
Proof. intros ->. apply N2b_b2N. Qed.

(** A boolean property checked on [0 .. k-1] holds below [k]. *)
Lemma below_forallb (P : N -> bool) (k : nat) :
  forallb P (map N.of_nat (seq 0 k)) = true ->
  forall n, n < N.of_nat k -> P n = true.
Proof.
  intros H n Hn. rewrite forallb_forall in H. apply H.
  rewrite <- (N2Nat.id n). apply in_map. apply in_seq. lia.
Qed.

Lemma bxor_involutive (a k : byte) : bxor (bxor a k) k = a.
Proof.
  unfold bxor.
  assert (Hx : N.lxor (b2N a) (b2N k) < 256).
  { pose proof (b2N_lt a). pose proof (b2N_lt k).
    destruct (N.eq_dec (N.lxor (b2N a) (b2N k)) 0) as [->|Hz]; [lia|].
    apply N.log2_lt_pow2 with (b := 8); [lia|].
    eapply N.le_lt_trans; [apply N.log2_lxor|].
    apply N.max_lub_lt.
    - destruct (N.eq_dec (b2N a) 0) as [->|]; [simpl; lia|].
      apply N.log2_lt_pow2; simpl; lia.
    - destruct (N.eq_dec (b2N k) 0) as [->|]; [simpl; lia|].
      apply N.log2_lt_pow2; simpl; lia. }
  rewrite b2N_N2b by exact Hx.
  rewrite N.lxor_assoc, N.lxor_nilpotent, N.lxor_0_r.
  apply N2b_b2N.
Qed.

Lemma xor_bytes_length (a b : bytes) :
  (List.length a <= List.length b)%nat ->
  List.length (xor_bytes a b) = List.length a.
Proof.
  revert b. induction a as [|x a IH]; intros [|y b] Hl; simpl in *; try lia.
  rewrite IH; lia.
Qed.

Lemma xor_bytes_involutive (a k : bytes) :
  (List.length a <= List.length k)%nat ->
  xor_bytes (xor_bytes a k) k = a.
Proof.
  revert k. induction a as [|x a IH]; intros [|y k] Hl;
    cbn [xor_bytes List.length] in *; try lia; try reflexivity.
  rewrite bxor_involutive, IH; [reflexivity | lia].
Qed.

Lemma bytes_eqb_refl (a : bytes) : bytes_eqb a a = true.
Proof.
  induction a as [|x a IH]; simpl; [reflexivity|].
  rewrite IH, andb_true_r. now apply Byte.byte_dec_lb.
Qed.

Lemma bytes_eqb_eq (a b : bytes) : bytes_eqb a b = true <-> a = b.
Proof.
  split; [|intros ->; apply bytes_eqb_refl].
  revert b. induction a as [|x a IH]; intros [|y b]; simpl; try discriminate; auto.
  intros H. apply andb_prop in H as [Hx Hr].
  apply Byte.byte_dec_bl in Hx. f_equal; auto.
Qed.

Lemma N2be_length (w : nat) (n : N) : List.length (N2be w n) = w.
Proof.
  revert n. induction w as [|w IH]; intros n; simpl; [reflexivity|].
  rewrite length_app, IH. simpl. lia.
Qed.

(** ** Hexadecimal text *)

Lemma unhex_hexdigit (n : N) : n < 16 -> unhex (hexdigit n) = Some n.
Proof.
  intros Hn.
  assert (H : (match unhex (hexdigit n) with
               | Some m => m =? n
               | None => false
               end) = true).
  { revert n Hn. apply (below_forallb _ 16). vm_compute. reflexivity. }
  destruct (unhex (hexdigit n)); [|discriminate].
  apply N.eqb_eq in H. now subst.
Qed.

Lemma hex_round_trip (bs : bytes) : Buffer_from_hex (toString_hex bs) = bs.
Proof.
  induction bs as [|b bs IH]; [reflexivity|].
  cbn [toString_hex Buffer_from_hex].
  pose proof (b2N_lt b) as Hb.
  rewrite !unhex_hexdigit by lia.
  rewrite IH. f_equal. apply N2b_eq. lia.
Qed.


(** ** Base64url text *)

Lemma list_ind3 {A} (P : list A -> Prop) :
  P [] -> (forall a, P [a]) -> (forall a b, P [a; b]) ->
  (forall a b c rest, P rest -> P (a :: b :: c :: rest)) ->
  forall l, P l.
Proof.
  intros H0 H1 H2 H3.
  fix F 1. intros [|a [|b [|c rest]]];
    [exact H0 | apply H1 | apply H2 | apply H3; apply F].
Qed.

Lemma b64char_spec (n : N) :
  n < 64 ->
  unbase64 (b64char n) = Some n /\ Ascii.eqb (b64char n) "="%char = false /\
  In (b64char n) alphabet.
Proof.
  intros Hn.
  assert (H : (match unbase64 (b64char n) with
               | Some m => m =? n
               | None => false
               end
               && negb (Ascii.eqb (b64char n) "="%char)
               && existsb (Ascii.eqb (b64char n)) alphabet) = true).
  { revert n Hn. apply (below_forallb _ 64). vm_compute. reflexivity. }
  apply andb_prop in H as [H H3]. apply andb_prop in H as [H1 H2].
  repeat split.
  - destruct (unbase64 (b64char n)); [|discriminate].
    apply N.eqb_eq in H1. now subst.
  - now apply negb_true_iff.
  - apply existsb_exists in H3 as (c & Hc & E).
    apply Ascii.eqb_eq in E. now subst.
Qed.

Lemma sextets_char (n : N) (s : string) :
  n < 64 -> sextets (String (b64char n) s) = n :: sextets s.
Proof.
  intros Hn. destruct (b64char_spec n Hn) as (H1 & H2 & _).
  cbn [sextets]. now rewrite H2, H1.
Qed.

(** Reading back what the writer wrote gives the bytes written. *)
Lemma base64url_round_trip (bs : bytes) :
  Buffer_from_base64url (toString_base64url bs) = bs.
Proof.
  unfold Buffer_from_base64url.
  induction bs as [| a | a b | a b c rest IH] using list_ind3.
  - reflexivity.
  - pose proof (b2N_lt a). cbn [toString_base64url].
    rewrite !sextets_char by lia. cbn [sextets pack_sextets].
    f_equal. apply N2b_eq. lia.
  - pose proof (b2N_lt a). pose proof (b2N_lt b). cbn [toString_base64url].
    rewrite !sextets_char by lia. cbn [sextets pack_sextets].
    f_equal; [|f_equal]; apply N2b_eq; lia.
  - pose proof (b2N_lt a). pose proof (b2N_lt b). pose proof (b2N_lt c).
    cbn [toString_base64url].
    rewrite !sextets_char by lia. cbn [pack_sextets]. rewrite IH.
    f_equal; [|f_equal; [|f_equal]]; apply N2b_eq; lia.
Qed.

Lemma toString_base64url_safe (bs : bytes) :
  Forall (fun c => In c alphabet) (list_ascii_of_string (toString_base64url bs)).
Proof.
  induction bs as [| a | a b | a b c rest IH] using list_ind3;
    cbn [toString_base64url list_ascii_of_string];
    try pose proof (b2N_lt a); try pose proof (b2N_lt b);
    try pose proof (b2N_lt c);
    repeat (apply Forall_cons; [apply b64char_spec; lia|]);
    [apply Forall_nil .. | exact IH].
Qed.

Lemma toString_base64url_length (bs : bytes) :
  String.length (toString_base64url bs) = ((4 * List.length bs + 2) / 3)%nat.
Proof.
  induction bs as [| a | a b | a b c rest IH] using list_ind3;
    try reflexivity.
  cbn [toString_base64url String.length List.length]. rewrite IH.
  replace (4 * S (S (S (List.length rest))) + 2)%nat
    with ((4 * List.length rest + 2) + 4 * 3)%nat by lia.
  rewrite Nat.div_add by lia. lia.
Qed.

(** None of the characters the standard alphabet has and the URL-safe
    one lacks, and no padding. *)
Lemma alphabet_excludes (c : ascii) :
  In c alphabet -> c <> "+"%char /\ c <> "/"%char /\ c <> "="%char.
Proof.
  intros H. repeat split; intros ->; revert H;
    unfold alphabet; cbn [list_ascii_of_string In];
    intuition discriminate.
Qed.


(** ** JavaScript strings and UTF-8 *)

Ltac cmp :=
  repeat match goal with
    | |- context [N.ltb ?a ?b] => destruct (N.ltb_spec a b); try lia
    | |- context [N.leb ?a ?b] => destruct (N.leb_spec a b); try lia
    | |- context [N.eqb ?a ?b] => destruct (N.eqb_spec a b); try lia
    end.

Lemma cu_lt (c : char16) : cu c < 65536.
Proof. unfold cu. pose proof (b2N_lt (hi c)). pose proof (b2N_lt (lo c)). lia. Qed.

Lemma N2b_mod (n : N) : N2b (n mod 256) = N2b n.
Proof. unfold N2b. now rewrite N.Div0.mod_mod. Qed.

Lemma mk16_cu (c : char16) : mk16 (cu c) = c.
Proof.
  destruct c as [h l]. unfold mk16, cu. cbn [hi lo].
  pose proof (b2N_lt h). pose proof (b2N_lt l).
  f_equal.
  - apply N2b_eq. lia.
  - rewrite <- N2b_mod. apply N2b_eq. lia.
Qed.

Lemma feed_cons (d : decoder) (b : byte) (rest : bytes) :
  feed d (b :: rest) =
  (fst (feed1 d (b2N b)) ++ fst (feed (snd (feed1 d (b2N b))) rest),
   snd (feed (snd (feed1 d (b2N b))) rest)).
Proof.
  cbn [feed]. destruct (feed1 d (b2N b)) as [o1 d1]. cbn [fst snd].
  now destruct (feed d1 rest).
Qed.

Lemma feed1_ascii (b : N) : b < 0x80 -> feed1 dec0 b = ([mk16 b], dec0).
Proof. intros. unfold feed1, lead. cbn [need dec0]. cmp. reflexivity. Qed.

Lemma feed1_lead2 (b : N) :
  0xC2 <= b <= 0xDF -> feed1 dec0 b = ([], Dec (b - 0xC0) 1 0x80 0xBF).
Proof. intros. unfold feed1, lead. cbn [need dec0]. cmp. reflexivity. Qed.

Lemma feed1_lead3 (b : N) :
  0xE0 <= b <= 0xEF ->
  feed1 dec0 b = ([], Dec (b - 0xE0) 2 (if b =? 0xE0 then 0xA0 else 0x80)
                          (if b =? 0xED then 0x9F else 0xBF)).
Proof.
  intros. unfold feed1, lead. cbn [need dec0].
  destruct (N.ltb_spec b 0x80); [lia|].
  destruct (N.leb_spec 0xC2 b); [|lia].
  destruct (N.leb_spec b 0xDF); [lia|].
  destruct (N.leb_spec 0xE0 b); [|lia].
  destruct (N.leb_spec b 0xEF); [|lia].
  reflexivity.
Qed.

Lemma feed1_lead4 (b : N) :
  0xF0 <= b <= 0xF4 ->
  feed1 dec0 b = ([], Dec (b - 0xF0) 3 (if b =? 0xF0 then 0x90 else 0x80)
                          (if b =? 0xF4 then 0x8F else 0xBF)).
Proof.
  intros. unfold feed1, lead. cbn [need dec0].
  destruct (N.ltb_spec b 0x80); [lia|].
  destruct (N.leb_spec 0xC2 b); [|lia].
  destruct (N.leb_spec b 0xDF); [lia|].
  destruct (N.leb_spec 0xE0 b); [|lia].
  destruct (N.leb_spec b 0xEF); [lia|].
  destruct (N.leb_spec 0xF0 b); [|lia].
  destruct (N.leb_spec b 0xF4); [|lia].
  reflexivity.
Qed.

Lemma feed1_last (cp lo_ up_ b : N) :
  lo_ <= b <= up_ ->
  feed1 (Dec cp 1 lo_ up_) b = (utf16_of_cp (cp * 64 + (b - 0x80)), dec0).
Proof.
  intros. unfold feed1. cbn [need lower upper dcp].
  destruct (N.leb_spec lo_ b); [|lia].
  destruct (N.leb_spec b up_); [|lia]. reflexivity.
Qed.

Lemma feed1_more (cp lo_ up_ b : N) (n : nat) :
  lo_ <= b <= up_ ->
  feed1 (Dec cp (S (S n)) lo_ up_) b =
  ([], Dec (cp * 64 + (b - 0x80)) (S n) 0x80 0xBF).
Proof.
  intros. unfold feed1. cbn [need lower upper dcp].
  destruct (N.leb_spec lo_ b); [|lia].
  destruct (N.leb_spec b up_); [|lia]. reflexivity.
Qed.

Lemma feed_scalar (cp : N) (rest : bytes) :
  scalar cp ->
  feed dec0 (utf8_of_cp cp ++ rest) =
  (utf16_of_cp cp ++ fst (feed dec0 rest), snd (feed dec0 rest)).
Proof.
  intros Hs. unfold scalar in Hs. unfold utf8_of_cp.
  destruct (N.ltb_spec cp 0x80); [|destruct (N.ltb_spec cp 0x800);
                                   [|destruct (N.ltb_spec cp 0x10000)]];
    cbn [app]; rewrite !feed_cons; rewrite ?b2N_N2b by lia.
  - rewrite feed1_ascii by lia. cbn [fst snd].
    unfold utf16_of_cp. cmp. reflexivity.
  - rewrite feed1_lead2 by lia. cbn [fst snd].
    rewrite feed1_last by lia. cbn [fst snd app].
    do 2 f_equal. f_equal. lia.
  - rewrite feed1_lead3 by lia. cbn [fst snd].
    rewrite feed1_more by (cmp; lia). cbn [fst snd].
    rewrite feed1_last by lia. cbn [fst snd app].
    do 2 f_equal. f_equal. lia.
  - rewrite feed1_lead4 by lia. cbn [fst snd].
    rewrite feed1_more by (cmp; lia). cbn [fst snd].
    rewrite feed1_more by lia. cbn [fst snd].
    rewrite feed1_last by lia. cbn [fst snd app].
    do 2 f_equal. f_equal. lia.
Qed.

Lemma utf16_of_cp_unit (c : char16) :
  utf16_of_cp (cu c) = [c].
Proof.
  unfold utf16_of_cp. pose proof (cu_lt c).
  destruct (N.ltb_spec (cu c) 0x10000); [|lia]. now rewrite mk16_cu.
Qed.

Lemma utf16_of_cp_pair (c d : char16) :
  is_high (cu c) = true -> is_low (cu d) = true ->
  utf16_of_cp (0x10000 + (cu c - 0xD800) * 0x400 + (cu d - 0xDC00)) = [c; d].
Proof.
  unfold is_high, is_low. intros Hc Hd.
  apply andb_prop in Hc as [Hc1 Hc2]. apply andb_prop in Hd as [Hd1 Hd2].
  apply N.leb_le in Hc1, Hc2, Hd1, Hd2.
  unfold utf16_of_cp.
  destruct (N.ltb_spec (0x10000 + (cu c - 0xD800) * 0x400 + (cu d - 0xDC00))
              0x10000); [lia|].
  pose proof (cu_lt c). pose proof (cu_lt d).
  replace ((0x10000 + (cu c - 0xD800) * 0x400 + (cu d - 0xDC00) - 0x10000) / 0x400)
    with (cu c - 0xD800) by lia.
  replace ((0x10000 + (cu c - 0xD800) * 0x400 + (cu d - 0xDC00) - 0x10000) mod 0x400)
    with (cu d - 0xDC00) by lia.
  replace (0xD800 + (cu c - 0xD800)) with (cu c) by lia.
  replace (0xDC00 + (cu d - 0xDC00)) with (cu d) by lia.
  now rewrite !mk16_cu.
Qed.

(** Reading the UTF-8 form of a string without unpaired surrogates gives
    the string back and leaves no sequence open. *)
Lemma feed_utf8_encode (s : jsstring) :
  well_formed s = true -> feed dec0 (utf8_encode s) = (s, dec0).
Proof.
  remember (List.length s) as n eqn:Hn.
  revert s Hn. induction n as [n IH] using lt_wf_ind. intros s Hn Hwf.
  destruct s as [|c rest]; [reflexivity|].
  cbn [utf8_encode well_formed] in *.
  destruct (is_high (cu c)) eqn:Hh.
  - destruct rest as [|d rest']; [discriminate|].
    apply andb_prop in Hwf as [Hl Hwf]. rewrite Hl.
    rewrite feed_scalar.
    + rewrite (IH (List.length rest')); [|cbn [List.length] in Hn; lia|reflexivity|exact Hwf].
      cbn [fst snd]. now rewrite utf16_of_cp_pair.
    + unfold scalar, is_high, is_low in *.
      apply andb_prop in Hh as [H1 H2]. apply andb_prop in Hl as [H3 H4].
      apply N.leb_le in H1, H2, H3, H4. lia.
  - apply andb_prop in Hwf as [Hl Hwf]. apply negb_true_iff in Hl. rewrite Hl.
    rewrite feed_scalar.
    + rewrite (IH (List.length rest)); [|cbn [List.length] in Hn; lia|reflexivity|exact Hwf].
      cbn [fst snd]. now rewrite utf16_of_cp_unit.
    + pose proof (cu_lt c). unfold scalar, is_high, is_low in *.
      apply andb_false_iff in Hh, Hl.
      destruct Hh as [Hh|Hh]; destruct Hl as [Hl|Hl];
        apply N.leb_gt in Hh, Hl; lia.
Qed.

Lemma utf8_round_trip (s : jsstring) :
  well_formed s = true -> utf8_decode (utf8_encode s) = s.
Proof.
  intros H. unfold utf8_decode. rewrite feed_utf8_encode by exact H.
  cbn. apply app_nil_r.
Qed.

(** An unpaired surrogate is written as U+FFFD, so it has the UTF-8 form
    of another string. *)
Lemma utf8_encode_lone_surrogate :
  utf8_encode [C16 xd8 x00] = utf8_encode [C16 xff xfd].
Proof. vm_compute. reflexivity. Qed.

(** ** Key derivation *)

Lemma sha256_length (msg : bytes) : List.length (SHA256.sha256 msg) = 32%nat.
Proof.
  unfold SHA256.sha256, SHA256.digest.
  rewrite !length_app, !N2be_length. reflexivity.
Qed.

Lemma hmac_length (k msg : bytes) : List.length (SHA256.hmac k msg) = 32%nat.
Proof. unfold SHA256.hmac. apply sha256_length. Qed.

Lemma pbkdf2_iter_length (p : bytes) (c : nat) (u acc : bytes) :
  List.length acc = 32%nat -> List.length (SHA256.pbkdf2_iter p c u acc) = 32%nat.
Proof.
  revert u acc. induction c as [|c IH]; intros u acc Ha; cbn [SHA256.pbkdf2_iter].
  - exact Ha.
  - apply IH. rewrite xor_bytes_length; [exact Ha|].
    rewrite hmac_length. lia.
Qed.

Lemma pbkdf2_block_length (p s : bytes) (c : nat) (i : N) :
  List.length (SHA256.pbkdf2_block p s c i) = 32%nat.
Proof. unfold SHA256.pbkdf2_block. apply pbkdf2_iter_length, hmac_length. Qed.

Lemma flat_map_length_const {A B} (f : A -> list B) (k : nat) (l : list A) :
  (forall a, List.length (f a) = k) ->
  List.length (flat_map f l) = (k * List.length l)%nat.
Proof.
  intros Hf. induction l as [|a l IH]; cbn [flat_map List.length]; [lia|].
  rewrite length_app, Hf, IH. lia.
Qed.

Lemma pbkdf2_length (p s : bytes) (c dkLen : nat) :
  List.length (SHA256.pbkdf2 p s c dkLen) = dkLen.
Proof.
  unfold SHA256.pbkdf2. rewrite length_firstn.
  rewrite (flat_map_length_const _ 32) by (intros; apply pbkdf2_block_length).
  rewrite length_seq.
  pose proof (Nat.div_mod_eq (dkLen + 31) 32).
  pose proof (Nat.mod_upper_bound (dkLen + 31) 32). lia.
Qed.

(** [scryptSync(_, _, keylen)] returns [keylen] bytes. *)
Lemma scrypt_key_length (password salt : jsstring) (keylen : nat) :
  List.length (scrypt_key password salt keylen) = keylen.
Proof. unfold scrypt_key, Scrypt.scrypt. apply pbkdf2_length. Qed.

(** HMAC fills a short key with zero bytes, so a zero byte at the end of
    a short key changes nothing; scrypt uses its password only as an
    HMAC key. *)
Lemma hmac_key_zero (p : bytes) :
  (List.length p < 64)%nat -> SHA256.hmac_key (p ++ [x00]) = SHA256.hmac_key p.
Proof.
  intros Hp. unfold SHA256.hmac_key. rewrite length_app. cbn [List.length].
  destruct (Nat.ltb_spec 64 (List.length p + 1)); [lia|].
  destruct (Nat.ltb_spec 64 (List.length p)); [lia|].
  rewrite length_app. cbn [List.length].
  replace (64 - List.length p)%nat with (S (64 - (List.length p + 1))) by lia.
  cbn [repeat]. now rewrite <- app_assoc.
Qed.

Lemma hmac_zero (p msg : bytes) :
  (List.length p < 64)%nat -> SHA256.hmac (p ++ [x00]) msg = SHA256.hmac p msg.
Proof. intros Hp. unfold SHA256.hmac. now rewrite hmac_key_zero. Qed.

Lemma pbkdf2_zero (p s : bytes) (c dkLen : nat) :
  (List.length p < 64)%nat ->
  SHA256.pbkdf2 (p ++ [x00]) s c dkLen = SHA256.pbkdf2 p s c dkLen.
Proof.
  intros Hp. unfold SHA256.pbkdf2. f_equal. apply flat_map_ext. intros i.
  unfold SHA256.pbkdf2_block. rewrite hmac_zero by exact Hp.
  generalize (SHA256.hmac p (s ++ N2be 4 (N.of_nat i))) at 1 3.
  generalize (SHA256.hmac p (s ++ N2be 4 (N.of_nat i))).
  induction (c - 1)%nat as [|n IH]; intros u acc; cbn [SHA256.pbkdf2_iter];
    [reflexivity|].
  rewrite hmac_zero by exact Hp. apply IH.
Qed.

Lemma scrypt_zero (p s : bytes) (n r par dkLen : nat) :
  (List.length p < 64)%nat ->
  Scrypt.scrypt (p ++ [x00]) s n r par dkLen = Scrypt.scrypt p s n r par dkLen.
Proof. intros Hp. unfold Scrypt.scrypt. now rewrite !pbkdf2_zero. Qed.

(** ** The cipher *)

Lemma keystream_length (E : N -> N) (n : nat) (ctr : N) :
  List.length (GCM.keystream E n ctr) = (16 * n)%nat.
Proof.
  revert ctr. induction n as [|n IH]; intros ctr; cbn [GCM.keystream]; [reflexivity|].
  rewrite length_app, N2be_length, IH. lia.
Qed.

Lemma crypt_covered (k : GCM.keyed) (off len : nat) :
  (len <= List.length
            (skipn off (GCM.keystream (GCM.E k) ((off + len + 15) / 16) (GCM.Y0 k))))%nat.
Proof.
  rewrite length_skipn, keystream_length.
  pose proof (Nat.div_mod_eq (off + len + 15) 16).
  pose proof (Nat.mod_upper_bound (off + len + 15) 16). lia.
Qed.

(** Counter mode keeps the length ... *)
Lemma crypt_length (k : GCM.keyed) (off : nat) (data : bytes) :
  List.length (GCM.crypt k off data) = List.length data.
Proof. unfold GCM.crypt. apply xor_bytes_length, crypt_covered. Qed.

(** ... and is its own inverse at the same offset. *)
Lemma crypt_involutive (k : GCM.keyed) (off : nat) (data : bytes) :
  GCM.crypt k off (GCM.crypt k off data) = data.
Proof.
  unfold GCM.crypt at 1. rewrite crypt_length. unfold GCM.crypt.
  apply xor_bytes_involutive, crypt_covered.
Qed.

Lemma tag_length (k : GCM.keyed) (ct : bytes) : List.length (GCM.tag k ct) = 16%nat.
Proof. unfold GCM.tag. apply N2be_length. Qed.

(** ** The block cipher is one-to-one

    Every step of a round has an inverse on sixteen-byte states, so the
    cipher of FIPS 197 is undone by its inverse cipher, for every key
    schedule of sixteen-byte round keys. *)

Create HintDb octet.

Lemma lxor_octet (a b : N) : a < 256 -> b < 256 -> N.lxor a b < 256.
Proof.
  intros Ha Hb.
  destruct (N.eq_dec (N.lxor a b) 0) as [->|Hz]; [lia|].
  apply N.log2_lt_pow2 with (b := 8); [lia|].
  eapply N.le_lt_trans; [apply N.log2_lxor|].
  apply N.max_lub_lt.
  - destruct (N.eq_dec a 0) as [->|]; [simpl; lia|].
    apply N.log2_lt_pow2; simpl; lia.
  - destruct (N.eq_dec b 0) as [->|]; [simpl; lia|].
    apply N.log2_lt_pow2; simpl; lia.
Qed.

Lemma xtime_octet (a : N) : a < 256 -> AES.xtime a < 256.
Proof.
  intros Ha. apply N.ltb_lt.
  apply (below_forallb (fun a => AES.xtime a <? 256) 256); [vm_compute; reflexivity | exact Ha].
Qed.

Lemma sub_octet (a : N) : a < 256 -> AES.sub a < 256.
Proof.
  intros Ha. apply N.ltb_lt.
  apply (below_forallb (fun a => AES.sub a <? 256) 256); [vm_compute; reflexivity | exact Ha].
Qed.

Lemma inv_sub_sub (a : N) : a < 256 -> AES.inv_sub (AES.sub a) = a.
Proof.
  intros Ha. apply N.eqb_eq.
  apply (below_forallb (fun a => AES.inv_sub (AES.sub a) =? a) 256);
    [vm_compute; reflexivity | exact Ha].
Qed.

Lemma zero_octet : 0 < 256.
Proof. reflexivity. Qed.

#[local] Hint Resolve lxor_octet xtime_octet sub_octet zero_octet : octet.

(** [xtime] by bits: a shift, and the reduction when bit 7 was set. *)
Lemma xtime_bits (a : N) :
  a < 256 ->
  AES.xtime a =
  N.lxor (N.land (N.shiftl a 1) 255) (if N.testbit a 7 then 0x1B else 0).
Proof.
  intros Ha. apply N.eqb_eq.
  apply (below_forallb
           (fun a => AES.xtime a =?
                     N.lxor (N.land (N.shiftl a 1) 255) (if N.testbit a 7 then 0x1B else 0))
           256); [vm_compute; reflexivity | exact Ha].
Qed.

(** Equations between sums in GF(2), bit by bit. *)
Ltac xor_ac :=
  apply N.bits_inj; intros ?;
  rewrite ?N.land_spec, ?N.lxor_spec, ?N.land_spec, ?N.lxor_spec, ?N.bits_0;
  ring.

Lemma xtime_lxor (a b : N) :
  a < 256 -> b < 256 ->
  AES.xtime (N.lxor a b) = N.lxor (AES.xtime a) (AES.xtime b).
Proof.
  intros Ha Hb. rewrite !xtime_bits by auto with octet.
  rewrite N.shiftl_lxor, N.lxor_spec.
  destruct (N.testbit a 7), (N.testbit b 7); cbn [xorb]; xor_ac.
Qed.

Lemma m9_lxor (a b : N) :
  a < 256 -> b < 256 -> AES.m9 (N.lxor a b) = N.lxor (AES.m9 a) (AES.m9 b).
Proof.
  intros Ha Hb. unfold AES.m9. rewrite !xtime_lxor by auto with octet. xor_ac.
Qed.

Lemma m11_lxor (a b : N) :
  a < 256 -> b < 256 -> AES.m11 (N.lxor a b) = N.lxor (AES.m11 a) (AES.m11 b).
Proof.
  intros Ha Hb. unfold AES.m11. rewrite !xtime_lxor by auto with octet. xor_ac.
Qed.

Lemma m13_lxor (a b : N) :
  a < 256 -> b < 256 -> AES.m13 (N.lxor a b) = N.lxor (AES.m13 a) (AES.m13 b).
Proof.
  intros Ha Hb. unfold AES.m13. rewrite !xtime_lxor by auto with octet. xor_ac.
Qed.

Lemma m14_lxor (a b : N) :
  a < 256 -> b < 256 -> AES.m14 (N.lxor a b) = N.lxor (AES.m14 a) (AES.m14 b).
Proof.
  intros Ha Hb. unfold AES.m14. rewrite !xtime_lxor by auto with octet. xor_ac.
Qed.

(** A column of four bytes. *)
Ltac column H :=
  repeat match type of H with
         | Forall _ (_ :: _) =>
             let H1 := fresh "Hb" in
             let H2 := fresh "Hc" in
             apply Forall_cons_iff in H; destruct H as [H1 H]
         end.

Lemma mix_column_lxor (a0 a1 a2 a3 b0 b1 b2 b3 : N) :
  Forall (fun v => v < 256) [a0; a1; a2; a3; b0; b1; b2; b3] ->
  AES.mix_column [N.lxor a0 b0; N.lxor a1 b1; N.lxor a2 b2; N.lxor a3 b3] =
  AES.xorw (AES.mix_column [a0; a1; a2; a3]) (AES.mix_column [b0; b1; b2; b3]).
Proof.
  intros H. column H.
  cbn [AES.mix_column AES.xorw combine map fst snd].
  rewrite !xtime_lxor by auto with octet.
  repeat (apply (f_equal2 cons); [xor_ac|]). reflexivity.
Qed.

Lemma inv_mix_column_lxor (a0 a1 a2 a3 b0 b1 b2 b3 : N) :
  Forall (fun v => v < 256) [a0; a1; a2; a3; b0; b1; b2; b3] ->
  AES.inv_mix_column [N.lxor a0 b0; N.lxor a1 b1; N.lxor a2 b2; N.lxor a3 b3] =
  AES.xorw (AES.inv_mix_column [a0; a1; a2; a3]) (AES.inv_mix_column [b0; b1; b2; b3]).
Proof.
  intros H. column H.
  cbn [AES.inv_mix_column AES.xorw combine map fst snd].
  rewrite !m9_lxor, !m11_lxor, !m13_lxor, !m14_lxor by auto with octet.
  repeat (apply (f_equal2 cons); [xor_ac|]). reflexivity.
Qed.

Lemma same_eq (x y : list N) : AES.same x y = true -> x = y.
Proof. unfold AES.same. now destruct (list_eq_dec N.eq_dec x y). Qed.

(** The two column maps undo each other on the four unit directions. *)
Lemma inv_mix_column_unit (a : N) :
  a < 256 ->
  AES.inv_mix_column (AES.mix_column [a; 0; 0; 0]) = [a; 0; 0; 0] /\
  AES.inv_mix_column (AES.mix_column [0; a; 0; 0]) = [0; a; 0; 0] /\
  AES.inv_mix_column (AES.mix_column [0; 0; a; 0]) = [0; 0; a; 0] /\
  AES.inv_mix_column (AES.mix_column [0; 0; 0; a]) = [0; 0; 0; a].
Proof.
  intros Ha.
  pose proof (below_forallb
    (fun a =>
       AES.same (AES.inv_mix_column (AES.mix_column [a; 0; 0; 0])) [a; 0; 0; 0] &&
       AES.same (AES.inv_mix_column (AES.mix_column [0; a; 0; 0])) [0; a; 0; 0] &&
       AES.same (AES.inv_mix_column (AES.mix_column [0; 0; a; 0])) [0; 0; a; 0] &&
       AES.same (AES.inv_mix_column (AES.mix_column [0; 0; 0; a])) [0; 0; 0; a])
    256 ltac:(vm_compute; reflexivity) a Ha) as H.
  cbv beta in H.
  apply andb_prop in H. destruct H as [H H3].
  apply andb_prop in H. destruct H as [H H2].
  apply andb_prop in H. destruct H as [H0 H1].
  repeat split; now apply same_eq.
Qed.

Lemma mix_column_octets (a0 a1 a2 a3 : N) :
  Forall (fun v => v < 256) [a0; a1; a2; a3] ->
  exists c0 c1 c2 c3,
    AES.mix_column [a0; a1; a2; a3] = [c0; c1; c2; c3] /\
    Forall (fun v => v < 256) [c0; c1; c2; c3].
Proof.
  intros H. column H. cbn [AES.mix_column].
  do 4 eexists. split; [reflexivity|].
  repeat constructor; auto 8 with octet.
Qed.

(** The composite is additive. *)
Lemma inv_mix_mix_lxor (a0 a1 a2 a3 b0 b1 b2 b3 : N) :
  Forall (fun v => v < 256) [a0; a1; a2; a3] ->
  Forall (fun v => v < 256) [b0; b1; b2; b3] ->
  AES.inv_mix_column
    (AES.mix_column [N.lxor a0 b0; N.lxor a1 b1; N.lxor a2 b2; N.lxor a3 b3]) =
  AES.xorw (AES.inv_mix_column (AES.mix_column [a0; a1; a2; a3]))
           (AES.inv_mix_column (AES.mix_column [b0; b1; b2; b3])).
Proof.
  intros Ha Hb.
  rewrite mix_column_lxor by (apply Forall_app with (l1 := [a0; a1; a2; a3]); now split).
  destruct (mix_column_octets _ _ _ _ Ha) as (c0 & c1 & c2 & c3 & -> & Hc).
  destruct (mix_column_octets _ _ _ _ Hb) as (d0 & d1 & d2 & d3 & -> & Hd).
  cbn [AES.xorw combine map fst snd].
  apply inv_mix_column_lxor.
  apply Forall_app with (l1 := [c0; c1; c2; c3]); now split.
Qed.

Lemma inv_mix_column_mix (a0 a1 a2 a3 : N) :
  Forall (fun v => v < 256) [a0; a1; a2; a3] ->
  AES.inv_mix_column (AES.mix_column [a0; a1; a2; a3]) = [a0; a1; a2; a3].
Proof.
  intros H. pose proof H as H'. column H'.
  destruct (inv_mix_column_unit a0) as (E0 & _); [assumption|].
  destruct (inv_mix_column_unit a1) as (_ & E1 & _); [assumption|].
  destruct (inv_mix_column_unit a2) as (_ & _ & E2 & _); [assumption|].
  destruct (inv_mix_column_unit a3) as (_ & _ & _ & E3); [assumption|].
  assert (Z : 0 < 256) by reflexivity.
  replace [a0; a1; a2; a3]
    with [N.lxor a0 0; N.lxor 0 a1; N.lxor 0 a2; N.lxor 0 a3] at 1
    by (rewrite ?N.lxor_0_r; reflexivity).
  rewrite inv_mix_mix_lxor by (repeat constructor; assumption).
  replace [0; a1; a2; a3]
    with [N.lxor 0 0; N.lxor a1 0; N.lxor 0 a2; N.lxor 0 a3]
    by (rewrite ?N.lxor_0_r; reflexivity).
  rewrite inv_mix_mix_lxor by (repeat constructor; assumption).
  replace [0; 0; a2; a3]
    with [N.lxor 0 0; N.lxor 0 0; N.lxor a2 0; N.lxor 0 a3]
    by (rewrite ?N.lxor_0_r; reflexivity).
  rewrite inv_mix_mix_lxor by (repeat constructor; assumption).
  rewrite E0, E1, E2, E3.
  cbn [AES.xorw combine map fst snd].
  now rewrite ?N.lxor_0_r, ?N.lxor_0_l.
Qed.

(** Lists of bytes of a known length. *)
Ltac explode s Hlen :=
  cbn [List.length] in Hlen;
  repeat (destruct s as [|? s]; cbn [List.length] in Hlen; [discriminate Hlen|]);
  destruct s; cbn [List.length] in Hlen; [clear Hlen | discriminate Hlen].

Lemma octets_map_sub (n : nat) (s : list N) :
  AES.octets n s -> AES.octets n (map AES.sub s).
Proof.
  intros [Hl Hs]. split; [now rewrite length_map|].
  apply Forall_map. eapply Forall_impl; [|exact Hs]. apply sub_octet.
Qed.

Lemma xorw_octets (n : nat) (a b : list N) :
  AES.octets n a -> AES.octets n b -> AES.octets n (AES.xorw a b).
Proof.
  revert a b. induction n as [|n IH]; intros a b [Hla Ha] [Hlb Hb].
  - destruct a; [|discriminate]. split; [reflexivity | constructor].
  - destruct a as [|x a]; [discriminate|]. destruct b as [|y b]; [discriminate|].
    apply Forall_cons_iff in Ha, Hb. destruct Ha as [Hx Ha], Hb as [Hy Hb].
    injection Hla as Hla. injection Hlb as Hlb.
    destruct (IH a b) as [Hl Hf]; [now split | now split |].
    split; [cbn; now f_equal|].
    cbn. constructor; [now apply lxor_octet | exact Hf].
Qed.

Lemma xorw_involutive (a k : list N) :
  (List.length a <= List.length k)%nat -> AES.xorw (AES.xorw a k) k = a.
Proof.
  revert k. induction a as [|x a IH]; intros k Hk; [reflexivity|].
  destruct k as [|y k]; [cbn in Hk; lia|]. cbn in Hk |- *.
  rewrite N.lxor_assoc, N.lxor_nilpotent, N.lxor_0_r. f_equal.
  apply IH. lia.
Qed.

Lemma shift_rows_state (s : list N) :
  AES.state16 s -> AES.state16 (AES.shift_rows s).
Proof.
  intros [Hl Hs]. explode s Hl. column Hs.
  split; [reflexivity|]. cbn. repeat constructor; assumption.
Qed.

Lemma inv_shift_rows_shift (s : list N) :
  List.length s = 16%nat -> AES.inv_shift_rows (AES.shift_rows s) = s.
Proof. intros Hl. explode s Hl. reflexivity. Qed.

Lemma map_inv_sub_sub (s : list N) :
  Forall (fun v => v < 256) s -> map AES.inv_sub (map AES.sub s) = s.
Proof.
  induction 1 as [|x s Hx _ IH]; [reflexivity|].
  cbn [map]. now rewrite inv_sub_sub, IH.
Qed.

Lemma mix_columns_state (s : list N) :
  AES.state16 s -> AES.state16 (AES.mix_columns s).
Proof.
  intros [Hl Hs]. explode s Hl. column Hs.
  split; [reflexivity|].
  cbn [AES.mix_columns AES.mix_column firstn skipn app].
  repeat constructor; auto 8 with octet.
Qed.

Lemma inv_mix_columns_mix (s : list N) :
  AES.state16 s -> AES.inv_mix_columns (AES.mix_columns s) = s.
Proof.
  intros [Hl Hs]. explode s Hl. column Hs.
  unfold AES.mix_columns. cbn [firstn skipn].
  match goal with
  | |- AES.inv_mix_columns (AES.mix_column ?c0 ++ AES.mix_column ?c1 ++
                            AES.mix_column ?c2 ++ AES.mix_column ?c3) = _ =>
      assert (H0 : Forall (fun v => v < 256) c0) by (repeat constructor; assumption);
      assert (H1 : Forall (fun v => v < 256) c1) by (repeat constructor; assumption);
      assert (H2 : Forall (fun v => v < 256) c2) by (repeat constructor; assumption);
      assert (H3 : Forall (fun v => v < 256) c3) by (repeat constructor; assumption)
  end.
  pose proof (inv_mix_column_mix _ _ _ _ H0) as I0.
  pose proof (inv_mix_column_mix _ _ _ _ H1) as I1.
  pose proof (inv_mix_column_mix _ _ _ _ H2) as I2.
  pose proof (inv_mix_column_mix _ _ _ _ H3) as I3.
  destruct (mix_column_octets _ _ _ _ H0) as (? & ? & ? & ? & E0 & _).
  destruct (mix_column_octets _ _ _ _ H1) as (? & ? & ? & ? & E1 & _).
  destruct (mix_column_octets _ _ _ _ H2) as (? & ? & ? & ? & E2 & _).
  destruct (mix_column_octets _ _ _ _ H3) as (? & ? & ? & ? & E3 & _).
  rewrite E0, E1, E2, E3 in *.
  unfold AES.inv_mix_columns. cbn [firstn skipn app].
  now rewrite I0, I1, I2, I3.
Qed.

Lemma round_state (s rk : list N) :
  AES.state16 s -> AES.state16 rk -> AES.state16 (AES.round s rk).
Proof.
  intros Hs Hrk. unfold AES.round, AES.add_round_key.
  apply xorw_octets; [|exact Hrk].
  apply mix_columns_state, shift_rows_state. now apply octets_map_sub.
Qed.

Lemma inv_round_round (s rk : list N) :
  AES.state16 s -> AES.state16 rk -> AES.inv_round rk (AES.round s rk) = s.
Proof.
  intros Hs Hrk. unfold AES.inv_round, AES.round, AES.add_round_key.
  assert (H1 : AES.state16 (map AES.sub s)) by now apply octets_map_sub.
  assert (H2 : AES.state16 (AES.shift_rows (map AES.sub s)))
    by now apply shift_rows_state.
  assert (H3 : AES.state16 (AES.mix_columns (AES.shift_rows (map AES.sub s))))
    by now apply mix_columns_state.
  rewrite xorw_involutive by (destruct H3 as [-> _], Hrk as [-> _]; lia).
  rewrite inv_mix_columns_mix by exact H2.
  rewrite inv_shift_rows_shift by apply H1.
  apply map_inv_sub_sub, Hs.
Qed.

Lemma fold_rounds_state (ks : list (list N)) (s : list N) :
  Forall AES.state16 ks -> AES.state16 s -> AES.state16 (fold_left AES.round ks s).
Proof.
  intros Hks. revert s. induction Hks as [|k ks Hk _ IH]; intros s Hs; [exact Hs|].
  cbn [fold_left]. apply IH. now apply round_state.
Qed.

Lemma fold_rounds_inverse (ks : list (list N)) (s : list N) :
  Forall AES.state16 ks -> AES.state16 s ->
  fold_right AES.inv_round (fold_left AES.round ks s) ks = s.
Proof.
  intros Hks. revert s. induction Hks as [|k ks Hk _ IH]; intros s Hs; [reflexivity|].
  cbn [fold_left fold_right].
  rewrite IH by now apply round_state.
  now apply inv_round_round.
Qed.

Lemma Forall_last {A} (P : A -> Prop) (l : list A) (d : A) :
  Forall P l -> l <> [] -> P (last l d).
Proof.
  induction 1 as [|x l Hx Hl IH]; intros Hne; [contradiction|].
  destruct l as [|y l]; [exact Hx|].
  change (P (last (y :: l) d)). apply IH. discriminate.
Qed.

Lemma Forall_removelast {A} (P : A -> Prop) (l : list A) :
  Forall P l -> Forall P (removelast l).
Proof.
  induction 1 as [|x l Hx Hl IH]; [constructor|].
  destruct l as [|y l]; [constructor|].
  change (Forall P (x :: removelast (y :: l))). now constructor.
Qed.

Lemma cipher_rounds_state (rks : list (list N)) (s : list N) :
  AES.schedule rks -> AES.state16 s -> AES.state16 (AES.cipher_rounds rks s).
Proof.
  intros [Hn Hr] Hs. destruct rks as [|rk0 rest]; [cbn in Hn; lia|].
  apply Forall_cons_iff in Hr. destruct Hr as [H0 Hr].
  assert (Hne : rest <> []) by (destruct rest; [cbn in Hn; lia | discriminate]).
  unfold AES.cipher_rounds, AES.add_round_key.
  change (fun s rk => AES.xorw (AES.mix_columns (AES.shift_rows (map AES.sub s))) rk)
    with AES.round.
  apply xorw_octets; [|now apply Forall_last].
  apply shift_rows_state, octets_map_sub, fold_rounds_state.
  - now apply Forall_removelast.
  - now apply xorw_octets.
Qed.

Lemma inv_cipher_rounds_cipher (rks : list (list N)) (s : list N) :
  AES.schedule rks -> AES.state16 s ->
  AES.inv_cipher_rounds rks (AES.cipher_rounds rks s) = s.
Proof.
  intros [Hn Hr] Hs. destruct rks as [|rk0 rest]; [cbn in Hn; lia|].
  apply Forall_cons_iff in Hr. destruct Hr as [H0 Hr].
  assert (Hne : rest <> []) by (destruct rest; [cbn in Hn; lia | discriminate]).
  pose proof (Forall_last _ _ [] Hr Hne) as Hlast.
  pose proof (Forall_removelast _ _ Hr) as Hmid.
  unfold AES.inv_cipher_rounds, AES.cipher_rounds, AES.add_round_key.
  change (fun s rk => AES.xorw (AES.mix_columns (AES.shift_rows (map AES.sub s))) rk)
    with AES.round.
  assert (H1 : AES.state16 (AES.xorw s rk0)) by now apply xorw_octets.
  pose proof (fold_rounds_state _ _ Hmid H1) as H2.
  pose proof (octets_map_sub _ _ H2) as H3.
  pose proof (shift_rows_state _ H3) as H4.
  rewrite xorw_involutive by (destruct H4 as [-> _], Hlast as [-> _]; lia).
  rewrite inv_shift_rows_shift by apply H3.
  rewrite map_inv_sub_sub by apply H2.
  rewrite fold_rounds_inverse by assumption.
  apply xorw_involutive. destruct Hs as [-> _], H0 as [-> _]. lia.
Qed.

(** The key expansion yields fifteen round keys of sixteen bytes. *)
Lemma rot_word_word4 (w : AES.word) : AES.word4 w -> AES.word4 (AES.rot_word w).
Proof.
  intros [Hl Hw]. explode w Hl. column Hw.
  split; [reflexivity|]. cbn. repeat constructor; assumption.
Qed.

Lemma nth_word4 (ws : list AES.word) (i : nat) :
  Forall AES.word4 ws -> (i < List.length ws)%nat -> AES.word4 (nth i ws []).
Proof.
  intros H Hi. rewrite Forall_forall in H. apply H. now apply nth_In.
Qed.

Lemma expand_word4 (n i : nat) (rcon : N) (ws : list AES.word) :
  rcon < 256 -> (8 <= List.length ws)%nat -> Forall AES.word4 ws ->
  Forall AES.word4 (AES.expand n i rcon ws) /\
  List.length (AES.expand n i rcon ws) = (n + List.length ws)%nat.
Proof.
  revert i rcon ws. induction n as [|n IH]; intros i rcon ws Hr Hl Hws.
  - cbn [AES.expand]. split; [now apply Forall_rev | now rewrite length_rev].
  - cbn [AES.expand].
    assert (Hp : AES.word4 (nth 0 ws [])) by (apply nth_word4; [assumption | lia]).
    assert (Hb : AES.word4 (nth 7 ws [])) by (apply nth_word4; [assumption | lia]).
    cbv zeta.
    assert (Hs : AES.word4 (map AES.sub (AES.rot_word (nth 0 ws []))))
      by apply octets_map_sub, rot_word_word4, Hp.
    destruct (Nat.eqb (Nat.modulo i 8) 0); [|destruct (Nat.eqb (Nat.modulo i 8) 4)];
      match goal with
      | |- Forall _ (AES.expand n ?j ?r ?w) /\ _ =>
          destruct (IH j r w) as [H1 H2];
          [ | | | split; [exact H1 | rewrite H2; cbn [List.length]; lia] ]
      end;
      try (cbn [List.length]; lia);
      try assumption;
      try (now apply xtime_octet);
      constructor; try exact Hws; (apply xorw_octets; [exact Hb|]).
    + destruct Hs as [Hl' Hf'].
      destruct (map AES.sub (AES.rot_word (nth 0 ws []))) as [|a r]; [discriminate|].
      apply Forall_cons_iff in Hf'. destruct Hf' as [Ha Hf'].
      split; [exact Hl'|]. constructor; [now apply lxor_octet | exact Hf'].
    + now apply octets_map_sub.
    + exact Hp.
Qed.

Lemma group4_states (n : nat) (ws : list AES.word) :
  Forall AES.word4 ws -> (4 * n <= List.length ws)%nat ->
  Forall AES.state16 (AES.group4 n ws) /\ List.length (AES.group4 n ws) = n.
Proof.
  revert ws. induction n as [|n IH]; intros ws Hws Hl; [split; [constructor | reflexivity]|].
  destruct ws as [|w0 [|w1 [|w2 [|w3 ws]]]]; cbn [List.length] in Hl; try lia.
  cbn [AES.group4 firstn skipn List.length].
  apply Forall_cons_iff in Hws. destruct Hws as [[L0 F0] Hws].
  apply Forall_cons_iff in Hws. destruct Hws as [[L1 F1] Hws].
  apply Forall_cons_iff in Hws. destruct Hws as [[L2 F2] Hws].
  apply Forall_cons_iff in Hws. destruct Hws as [[L3 F3] Hws].
  destruct (IH ws Hws) as [H1 H2]; [lia|].
  split; [|now rewrite H2].
  constructor; [|exact H1].
  split.
  - cbn [List.concat]. rewrite !length_app, L0, L1, L2, L3. reflexivity.
  - cbn [List.concat]. rewrite app_nil_r. repeat (apply Forall_app; split); assumption.
Qed.

Lemma round_keys_schedule (key : bytes) :
  List.length key = 32%nat -> AES.schedule (AES.round_keys key).
Proof.
  intros Hl. unfold AES.round_keys.
  assert (Hw : Forall AES.word4 (rev (map (map b2N) (chunks 4 key))) /\
               List.length (rev (map (map b2N) (chunks 4 key))) = 8%nat).
  { explode key Hl. unfold chunks. cbn [List.length chunks_fuel firstn skipn map rev app].
    split; [|reflexivity].
    repeat constructor; apply b2N_lt. }
  destruct Hw as [Hw Hn].
  set (w0 := rev (map (map b2N) (chunks 4 key))) in *.
  destruct (expand_word4 52 8 1 w0) as [H1 H2];
    [reflexivity | unfold AES.word; rewrite Hn; lia | exact Hw |].
  destruct (group4_states 15 (AES.expand 52 8 1 w0) H1) as [H3 H4];
    [unfold AES.word in *; rewrite H2, Hn; lia|].
  split; [rewrite H4; lia | exact H3].
Qed.

(** Numbers and their big-endian bytes. *)
Lemma be2N_snoc (bs : bytes) (b : byte) : be2N (bs ++ [b]) = be2N bs * 256 + b2N b.
Proof. unfold be2N. now rewrite fold_left_app. Qed.

Lemma be2N_lt (bs : bytes) : be2N bs < 256 ^ N.of_nat (List.length bs).
Proof.
  induction bs as [|b bs IH] using rev_ind; [reflexivity|].
  rewrite be2N_snoc, length_app. cbn [List.length].
  replace (N.of_nat (List.length bs + 1)) with (N.succ (N.of_nat (List.length bs))) by lia.
  rewrite N.pow_succ_r'. pose proof (b2N_lt b). lia.
Qed.

Lemma N2be_be2N (bs : bytes) : N2be (List.length bs) (be2N bs) = bs.
Proof.
  induction bs as [|b bs IH] using rev_ind; [reflexivity|].
  rewrite be2N_snoc, length_app, Nat.add_comm. cbn [List.length Nat.add N2be].
  pose proof (b2N_lt b) as Hb.
  replace ((be2N bs * 256 + b2N b) / 256) with (be2N bs) by lia.
  rewrite IH. f_equal. f_equal.
  rewrite <- N2b_mod.
  replace ((be2N bs * 256 + b2N b) mod 256) with (b2N b) by lia.
  apply N2b_b2N.
Qed.

Lemma b2N_N2b_mod (n : N) : b2N (N2b n) = n mod 256.
Proof. rewrite <- N2b_mod. apply b2N_N2b. lia. Qed.

Lemma be2N_N2be (w : nat) (n : N) : be2N (N2be w n) = n mod 256 ^ N.of_nat w.
Proof.
  revert n. induction w as [|w IH]; intros n.
  - cbn. now rewrite N.mod_1_r.
  - cbn [N2be]. rewrite be2N_snoc, IH, b2N_N2b_mod.
    replace (N.of_nat (S w)) with (N.succ (N.of_nat w)) by lia.
    rewrite N.pow_succ_r', N.Div0.mod_mul_r. ring.
Qed.

(** ** The block cipher on numbers *)

Lemma block_state (x : N) : AES.state16 (map b2N (N2be 16 x)).
Proof.
  split; [now rewrite length_map, N2be_length|].
  apply Forall_map, Forall_forall. intros b _. apply b2N_lt.
Qed.

Lemma map_b2N_N2b (s : list N) :
  Forall (fun v => v < 256) s -> map b2N (map N2b s) = s.
Proof.
  induction 1 as [|x s Hx _ IH]; [reflexivity|].
  cbn [map]. now rewrite b2N_N2b, IH.
Qed.

Lemma map_N2b_b2N (bs : bytes) : map N2b (map b2N bs) = bs.
Proof.
  induction bs as [|b bs IH]; [reflexivity|].
  cbn [map]. now rewrite N2b_b2N, IH.
Qed.

Lemma encrypt_block_lt (rks : list (list N)) (x : N) :
  AES.schedule rks -> AES.encrypt_block rks x < 2 ^ 128.
Proof.
  intros Hr. unfold AES.encrypt_block.
  destruct (cipher_rounds_state rks _ Hr (block_state x)) as [Hl _].
  pose proof (be2N_lt (map N2b (AES.cipher_rounds rks (map b2N (N2be 16 x))))) as H.
  rewrite length_map, Hl in H.
  replace (256 ^ N.of_nat 16) with (2 ^ 128) in H by (vm_compute; reflexivity).
  exact H.
Qed.

(** The inverse cipher undoes the cipher on every 128-bit block. *)
Lemma decrypt_block_encrypt (rks : list (list N)) (x : N) :
  AES.schedule rks -> x < 2 ^ 128 ->
  AES.decrypt_block rks (AES.encrypt_block rks x) = x.
Proof.
  intros Hr Hx. unfold AES.decrypt_block, AES.encrypt_block.
  pose proof (cipher_rounds_state rks _ Hr (block_state x)) as [Hl Hf].
  set (c := AES.cipher_rounds rks (map b2N (N2be 16 x))) in *.
  replace 16%nat with (List.length (map N2b c)) at 1 by now rewrite length_map.
  rewrite N2be_be2N, map_b2N_N2b by exact Hf.
  unfold c. rewrite inv_cipher_rounds_cipher by (try exact Hr; apply block_state).
  rewrite map_N2b_b2N, be2N_N2be.
  replace (256 ^ N.of_nat 16) with (2 ^ 128) by (vm_compute; reflexivity).
  apply N.mod_small. exact Hx.
Qed.

Lemma encrypt_block_injective (rks : list (list N)) (x y : N) :
  AES.schedule rks -> x < 2 ^ 128 -> y < 2 ^ 128 ->
  AES.encrypt_block rks x = AES.encrypt_block rks y -> x = y.
Proof.
  intros Hr Hx Hy E.
  rewrite <- (decrypt_block_encrypt rks x Hr Hx), <- (decrypt_block_encrypt rks y Hr Hy).
  now rewrite E.
Qed.

(** ** The tag depends on the nonce *)

Lemma N2be_injective (w : nat) (a b : N) :
  N2be w a = N2be w b -> a mod 256 ^ N.of_nat w = b mod 256 ^ N.of_nat w.
Proof. intros E. rewrite <- !be2N_N2be. now rewrite E. Qed.

Lemma lxor_cancel_low (s e e' : N) :
  e < 2 ^ 128 -> e' < 2 ^ 128 ->
  N.lxor s e mod 2 ^ 128 = N.lxor s e' mod 2 ^ 128 -> e = e'.
Proof.
  intros He He' E. apply N.bits_inj. intros n.
  destruct (N.lt_ge_cases n 128) as [Hn|Hn].
  - apply (f_equal (fun v => N.testbit v n)) in E.
    rewrite !N.mod_pow2_bits_low, !N.lxor_spec in E by exact Hn.
    destruct (N.testbit s n), (N.testbit e n), (N.testbit e' n);
      cbn in E; congruence.
  - rewrite <- (N.mod_small e (2 ^ 128)), <- (N.mod_small e' (2 ^ 128)) by assumption.
    now rewrite !N.mod_pow2_bits_high.
Qed.

Lemma J0_96 (h : N) (iv : bytes) :
  List.length iv = 12%nat ->
  GCM.J0 h iv = be2N iv * 2 ^ 32 + 1 /\ GCM.J0 h iv < 2 ^ 128.
Proof.
  intros Hl. unfold GCM.J0. rewrite Hl. cbn [Nat.eqb].
  split; [reflexivity|].
  pose proof (be2N_lt iv) as H. rewrite Hl in H.
  replace (256 ^ N.of_nat 12) with 79228162514264337593543950336 in H
    by (vm_compute; reflexivity).
  replace (2 ^ 32) with 4294967296 by (vm_compute; reflexivity).
  replace (2 ^ 128) with 340282366920938463463374607431768211456
    by (vm_compute; reflexivity).
  lia.
Qed.

Lemma pow_256_16 : 256 ^ N.of_nat 16 = 2 ^ 128.
Proof. vm_compute. reflexivity. Qed.

Lemma masked_block_injective (rks : list (list N)) (s y y' : N) :
  AES.schedule rks -> y < 2 ^ 128 -> y' < 2 ^ 128 ->
  N2be 16 (N.lxor s (AES.encrypt_block rks y)) =
  N2be 16 (N.lxor s (AES.encrypt_block rks y')) ->
  y = y'.
Proof.
  intros Hr Hy Hy' E.
  apply N2be_injective in E. rewrite pow_256_16 in E.
  apply lxor_cancel_low in E; [|now apply encrypt_block_lt..].
  now apply encrypt_block_injective in E.
Qed.

Lemma shifted_injective (a b : N) : a * 2 ^ 32 + 1 = b * 2 ^ 32 + 1 -> a = b.
Proof.
  replace (2 ^ 32) with 4294967296 by (vm_compute; reflexivity). lia.
Qed.

(** The tag, with the key set-up of [init] written out. *)
Lemma tag_init (key iv ct : bytes) :
  GCM.tag (GCM.init key iv) ct =
  N2be 16 (N.lxor (GCM.ghash (AES.encrypt_block (AES.round_keys key) 0)
                     (GCM.blocks_of ct ++ [GCM.bitlen ct]))
             (AES.encrypt_block (AES.round_keys key)
                (GCM.J0 (AES.encrypt_block (AES.round_keys key) 0) iv))).
Proof. reflexivity. Qed.

(** Under one key, two 96-bit nonces with the same tag on a ciphertext
    are the same nonce: the tag is the hash of the ciphertext, which does
    not depend on the nonce, added to the encryption of the pre-counter
    block, and the block cipher is one-to-one. *)
Lemma tag_nonce_injective (key iv iv' ct : bytes) :
  List.length key = 32%nat ->
  List.length iv = 12%nat -> List.length iv' = 12%nat ->
  GCM.tag (GCM.init key iv) ct = GCM.tag (GCM.init key iv') ct -> iv = iv'.
Proof.
  intros Hk Hiv Hiv' E.
  pose proof (round_keys_schedule key Hk) as Hr.
  destruct (J0_96 (AES.encrypt_block (AES.round_keys key) 0) iv Hiv) as [Ej Hj].
  destruct (J0_96 (AES.encrypt_block (AES.round_keys key) 0) iv' Hiv') as [Ej' Hj'].
  rewrite !tag_init in E.
  pose proof (masked_block_injective _ _ _ _ Hr Hj Hj' E) as Ey.
  rewrite Ej, Ej' in Ey. apply shifted_injective in Ey.
  rewrite <- (N2be_be2N iv), <- (N2be_be2N iv'), Hiv, Hiv', Ey. reflexivity.
Qed.

(** ** The methods *)

Lemma next_bytes_length (w : World) (n : nat) : List.length (next_bytes w n) = n.
Proof. unfold next_bytes. now rewrite length_map, length_seq. Qed.

Lemma append_empty (s : string) : (s ++ "")%string = s.
Proof. induction s as [|c s IH]; cbn; [reflexivity | now rewrite IH]. Qed.

Lemma check_init_ok (k iv : bytes) :
  List.length k = 32%nat -> List.length iv <> 0%nat ->
  check_init "aes-256-gcm" k iv = None.
Proof.
  intros Hk Hiv. unfold check_init. rewrite Hk. cbn.
  destruct (Nat.eqb_spec (List.length iv) 0); [contradiction | reflexivity].
Qed.

Lemma io_createCipheriv (k iv : bytes) (self : EncryptionService) (w : World) :
  io (createCipheriv "aes-256-gcm" k iv) (self, w) =
  (match check_init "aes-256-gcm" k iv with
   | Some e => Throw e
   | None => Ok (MkCipheriv k iv [] None)
   end,
   (self, with_journal w (journal w ++ [EvCreateCipheriv]))).
Proof.
  unfold io, createCipheriv, bind, record. cbn [snd fst].
  now destruct (check_init "aes-256-gcm" k iv).
Qed.

Lemma io_createDecipheriv (k iv : bytes) (self : EncryptionService) (w : World) :
  io (createDecipheriv "aes-256-gcm" k iv) (self, w) =
  (match check_init "aes-256-gcm" k iv with
   | Some e => Throw e
   | None => Ok (MkDecipheriv k iv None [] dec0)
   end,
   (self, with_journal w (journal w ++ [EvCreateDecipheriv]))).
Proof.
  unfold io, createDecipheriv, bind, record. cbn [snd fst].
  now destruct (check_init "aes-256-gcm" k iv).
Qed.

Ltac run :=
  cbn -[GCM.init GCM.crypt GCM.tag scrypt_key utf8_encode toString_hex
        Buffer_from_hex toString_base64url Buffer_from_base64url check_init
        next_bytes Nat.add valid_gcm_tag_length bytes_eqb feed finish
        firstn skipn decimal String.append].

(** [encrypt]: what the cipher makes of the plaintext under the key of
    the call and the next twelve random bytes, rethrown by the [catch]
    block, and what the call leaves behind. *)
Lemma encrypt_run (data : jsstring) (forceKey : option jsstring)
      (self : EncryptionService) (w : World) :
  encrypt data forceKey (self, w) =
  (rethrown "encrypt" (seal (effective_key self forceKey) (next_bytes w 12) data),
   (self, MkWorld (ENCRYPTION_KEY w) (entropy w) (drawn w + 12)
            (journal w ++ derivations self forceKey
               ++ [EvRandomBytes 12; EvCreateCipheriv]
               ++ complaint "encrypt"
                    (seal (effective_key self forceKey) (next_bytes w 12) data)))).
Proof.
  unfold encrypt, try_catch, choose_key, bind, this, seal.
  destruct forceKey as [[|c s]|]; cbn [effective_key derivations] in *;
    run; rewrite io_createCipheriv;
    (destruct (check_init _ _ _) as [e|];
     [run; rewrite <- ?app_assoc; reflexivity|]);
    run; rewrite append_empty, hex_round_trip, !app_nil_r, <- ?app_assoc;
    reflexivity.
Qed.

(** [decrypt] on any text: what the decipher makes of the decoded bytes,
    rethrown by the [catch] block, and what the call leaves behind. *)
Lemma decrypt_run (encoded : string) (forceKey : option jsstring)
      (self : EncryptionService) (w : World) :
  decrypt encoded forceKey (self, w) =
  (rethrown "decrypt" (open_envelope (effective_key self forceKey)
               (Buffer_from_base64url encoded)),
   (self, with_journal w
            (journal w ++ derivations self forceKey ++ [EvCreateDecipheriv]
               ++ complaint "decrypt"
                    (open_envelope (effective_key self forceKey)
                       (Buffer_from_base64url encoded))))).
Proof.
  unfold decrypt, try_catch, choose_key, bind, this, open_envelope.
  destruct forceKey as [[|c s]|]; cbn [effective_key derivations] in *;
    run; rewrite io_createDecipheriv;
    (destruct (check_init _ _ _) as [e|];
     [run; rewrite <- ?app_assoc; reflexivity|]);
    run; unfold io, setAuthTag;
    (destruct (valid_gcm_tag_length _);
     [|run; rewrite <- ?app_assoc; reflexivity]);
    run; unfold Decipher_update; run; rewrite hex_round_trip;
    unfold utf8_decode;
    (destruct (feed dec0 _) as [out text]);
    run; unfold Decipher_final; run;
    (destruct (bytes_eqb _ _);
     run; rewrite <- ?app_assoc; reflexivity).
Qed.

(** ** The envelope *)

Lemma firstn_exact {A} (n : nat) (l r : list A) :
  List.length l = n -> firstn n (l ++ r) = l.
Proof.
  intros <-. induction l as [|a l IH]; cbn [List.length firstn app].
  - now destruct r.
  - now rewrite IH.
Qed.

Lemma skipn_exact {A} (n : nat) (l r : list A) :
  List.length l = n -> skipn n (l ++ r) = r.
Proof.
  intros <-. induction l as [|a l IH]; cbn [List.length skipn app]; auto.
Qed.

Lemma envelope_slices (iv t ct : bytes) :
  List.length iv = 12%nat -> List.length t = 16%nat ->
  slice (iv ++ t ++ ct) 0 12 = iv /\
  slice (iv ++ t ++ ct) 12 28 = t /\
  slice_from (iv ++ t ++ ct) 28 = ct.
Proof.
  intros Hiv Ht. unfold slice, slice_from. repeat split.
  - change (skipn 0 (iv ++ t ++ ct)) with (iv ++ t ++ ct).
    now apply firstn_exact.
  - rewrite (skipn_exact 12) by exact Hiv. now apply firstn_exact.
  - rewrite app_assoc. apply skipn_exact. rewrite length_app. lia.
Qed.

(** Opening, under a key [k'], the envelope sealed under [k]: the tag of
    the ciphertext under [k'] must be the tag in the envelope. *)
Lemma open_envelope_of (k k' iv : bytes) (data : jsstring) :
  List.length k' = 32%nat -> List.length iv = 12%nat ->
  open_envelope k' (envelope k iv data) =
  if bytes_eqb (GCM.tag (GCM.init k' iv) (ciphertext k iv data))
               (GCM.tag (GCM.init k iv) (ciphertext k iv data))
  then Ok (utf8_decode (GCM.crypt (GCM.init k' iv) 0 (ciphertext k iv data)))
  else Throw auth_failed.
Proof.
  intros Hk Hiv. unfold open_envelope, envelope.
  destruct (envelope_slices iv (GCM.tag (GCM.init k iv) (ciphertext k iv data))
              (ciphertext k iv data) Hiv (tag_length _ _)) as (-> & -> & ->).
  rewrite check_init_ok by (try exact Hk; lia).
  rewrite tag_length. cbn [valid_gcm_tag_length Nat.eqb Nat.leb andb orb].
  rewrite <- (tag_length (GCM.init k' iv) (ciphertext k iv data)) at 1.
  now rewrite firstn_all.
Qed.

Lemma open_envelope_sealed (k iv : bytes) (data : jsstring) :
  List.length k = 32%nat -> List.length iv = 12%nat ->
  well_formed data = true ->
  open_envelope k (envelope k iv data) = Ok data.
Proof.
  intros Hk Hiv Hwf. rewrite open_envelope_of by assumption.
  rewrite bytes_eqb_refl. unfold ciphertext.
  now rewrite crypt_involutive, utf8_round_trip.
Qed.

Lemma seal_ok (k iv : bytes) (data : jsstring) :
  List.length k = 32%nat -> List.length iv = 12%nat ->
  seal k iv data = Ok (token k iv data).
Proof. intros Hk Hiv. unfold seal. now rewrite check_init_ok by (try exact Hk; lia). Qed.

Create HintDb lengths.
#[local] Hint Resolve next_bytes_length tag_length crypt_length scrypt_key_length
  N2be_length : lengths.

(** ** The constructor *)

Lemma constructor_run (w : World) :
  constructor w =
  match ENCRYPTION_KEY w with
  | Some (c :: s) =>
      (Ok (MkService (scrypt_key (c :: s) SALT_literal 32) SALT_literal),
       with_journal w
         (journal w ++ [EvScrypt (utf8_encode (c :: s)) (utf8_encode SALT_literal) 32]))
  | _ => (Throw missing_key, w)
  end.
Proof.
  unfold constructor. destruct (ENCRYPTION_KEY w) as [[|c s]|]; reflexivity.
Qed.

(** An instance the constructor returned holds a 32-byte key, derived
    from the runtime secret with the salt of the class. *)
Lemma constructed (w0 : World) (self : EncryptionService) :
  fst (constructor w0) = Ok self ->
  exists c s, ENCRYPTION_KEY w0 = Some (c :: s) /\
              self = MkService (scrypt_key (c :: s) SALT_literal 32) SALT_literal /\
              List.length (key self) = 32%nat.
Proof.
  rewrite constructor_run.
  destruct (ENCRYPTION_KEY w0) as [[|c s]|]; cbn [fst]; try discriminate.
  intros [= <-]. exists c, s. split; [reflexivity|]. split; [reflexivity|].
  apply scrypt_key_length.
Qed.

Lemma round_trip_keys (P : jsstring) (fk fk' : option jsstring)
      (self : EncryptionService) (w : World) :
  List.length (effective_key self fk) = 32%nat ->
  effective_key self fk' = effective_key self fk ->
  well_formed P = true ->
  fst ((encrypted <- encrypt P fk ;; decrypt encrypted fk') (self, w)) = Ok P.
Proof.
  intros Hk He Hwf. unfold bind. rewrite encrypt_run.
  rewrite seal_ok by (try exact Hk; apply next_bytes_length).
  cbn [rethrown]. rewrite decrypt_run. cbn [fst]. rewrite He.
  unfold token. rewrite base64url_round_trip.
  rewrite open_envelope_sealed; try assumption; [reflexivity|].
  apply next_bytes_length.
Qed.

(** ** Short envelopes and turned bits *)

(** What [decrypt] makes of a text that decodes to fewer than 28 bytes:
    there is no length check of its own.  The decipher is created on the
    first twelve bytes (or fewer); what follows them is taken as the
    tag, over an empty ciphertext. *)
Lemma open_short_envelope (k combined : bytes) :
  List.length k = 32%nat ->
  (List.length combined < 28)%nat ->
  let n := List.length combined in
  open_envelope k combined =
  if Nat.eqb n 0 then Throw "Invalid initialization vector"
  else if valid_gcm_tag_length (n - 12) then
    if bytes_eqb (firstn (n - 12) (GCM.tag (GCM.init k (firstn 12 combined)) []))
                 (skipn 12 combined)
    then Ok []
    else Throw auth_failed
  else Throw ("Invalid authentication tag length: " ++ decimal (n - 12)).
Proof.
  intros Hk Hn n. unfold open_envelope, slice, slice_from.
  change (skipn 0 combined) with combined.
  replace (12 - 0)%nat with 12%nat by reflexivity.
  replace (28 - 12)%nat with 16%nat by reflexivity.
  assert (Ht : firstn 16 (skipn 12 combined) = skipn 12 combined).
  { apply firstn_all2. rewrite length_skipn. lia. }
  assert (Hc : skipn 28 combined = []).
  { apply skipn_all2. lia. }
  rewrite Ht, Hc, length_skipn. fold n.
  unfold check_init. rewrite Hk, length_firstn. cbn [String.eqb Ascii.eqb Bool.eqb negb Nat.eqb].
  destruct (Nat.eqb_spec n 0) as [E|E].
  - fold n. rewrite E. reflexivity.
  - fold n. destruct (Nat.eqb_spec (Nat.min 12 n) 0); [lia|].
    destruct (valid_gcm_tag_length (n - 12)); [|reflexivity].
    destruct (bytes_eqb _ _); reflexivity.
Qed.

Lemma flip_bit_length (i : nat) (bs : bytes) :
  List.length (flip_bit i bs) = List.length bs.
Proof.
  revert i. induction bs as [|b bs IH]; intros i; cbn [flip_bit]; [reflexivity|].
  destruct (Nat.ltb i 8); cbn [List.length]; [reflexivity | now rewrite IH].
Qed.

Lemma flip_byte_neq (b : byte) (i : nat) :
  (i < 8)%nat -> N2b (N.lxor (b2N b) (2 ^ N.of_nat i)) <> b.
Proof.
  intros Hi.
  assert (H : forallb (fun n => forallb (fun j => negb (N.lxor n (2 ^ j) =? n)
                                                  && (N.lxor n (2 ^ j) <? 256))
                                 (map N.of_nat (seq 0 8)))
                      (map N.of_nat (seq 0 256)) = true)
    by (vm_compute; reflexivity).
  pose proof (below_forallb _ 256 H (b2N b) (b2N_lt b)) as Hb. cbv beta in Hb.
  pose proof (below_forallb _ 8 Hb (N.of_nat i) ltac:(lia)) as Hj. cbv beta in Hj.
  apply andb_prop in Hj as [Hne Hlt].
  apply negb_true_iff, N.eqb_neq in Hne. apply N.ltb_lt in Hlt.
  intros E. apply Hne. rewrite <- E at 2. now rewrite b2N_N2b.
Qed.

Lemma flip_bit_neq (i : nat) (bs : bytes) :
  (i < 8 * List.length bs)%nat -> flip_bit i bs <> bs.
Proof.
  revert i. induction bs as [|b bs IH]; intros i Hi; cbn [flip_bit List.length] in *;
    [lia|].
  destruct (Nat.ltb_spec i 8).
  - intros [= E]. now apply (flip_byte_neq b i).
  - intros [= E]. apply (IH (i - 8)%nat); [lia | exact E].
Qed.

Lemma flip_bit_app (i : nat) (a b : bytes) :
  (8 * List.length a <= i)%nat ->
  flip_bit i (a ++ b) = a ++ flip_bit (i - 8 * List.length a) b.
Proof.
  revert i. induction a as [|x a IH]; intros i Hi; cbn [app flip_bit List.length] in *.
  - now rewrite Nat.sub_0_r.
  - destruct (Nat.ltb_spec i 8); [lia|].
    rewrite IH by lia.
    replace (i - 8 - 8 * List.length a)%nat with (i - 8 * S (List.length a))%nat by lia.
    reflexivity.
Qed.

Lemma flip_bit_app_l (i : nat) (a b : bytes) :
  (i < 8 * List.length a)%nat ->
  flip_bit i (a ++ b) = flip_bit i a ++ b.
Proof.
  revert i. induction a as [|x a IH]; intros i Hi; cbn [app flip_bit List.length] in *;
    [lia|].
  destruct (Nat.ltb_spec i 8); [reflexivity|].
  cbn [app]. rewrite IH by lia. reflexivity.
Qed.


(** * The properties of the specification *)

(** ** On an instance the constructor returned *)

Section Constructed.

Variables (w0 : World) (self : EncryptionService).
Hypothesis Hself : fst (constructor w0) = Ok self.

Lemma effective_key_length (forceKey : option jsstring) :
  List.length (effective_key self forceKey) = 32%nat.
Proof.
  destruct (constructed _ _ Hself) as (c & s & _ & _ & Hk).
  destruct forceKey as [[|c' s']|]; cbn [effective_key]; auto with lengths.
Qed.

(** The override that repeats the runtime secret selects the cached key. *)
Lemma effective_key_runtime (k : jsstring) :
  ENCRYPTION_KEY w0 = Some k -> effective_key self (Some k) = key self.
Proof.
  intros Hk. destruct (constructed _ _ Hself) as (c & s & He & -> & _).
  rewrite Hk in He. injection He as ->. reflexivity.
Qed.

Lemma encrypt_token (P : jsstring) (forceKey : option jsstring) (w : World) :
  fst (encrypt P forceKey (self, w)) =
  Ok (token (effective_key self forceKey) (next_bytes w 12) P).
Proof.
  rewrite encrypt_run. cbn [fst].
  now rewrite seal_ok by auto using effective_key_length with lengths.
Qed.

(** C1.  Round trip: for every plaintext [P] that has a UTF-8 form (the
    empty string and non-ASCII text included), decrypting the token that
    [encrypt] made of [P] under the key of the service gives [P] back. *)
Theorem C1_round_trip (w : World) (P : jsstring) :
  well_formed P = true ->
  fst (round_trip P None (self, w)) = Ok P.
Proof.
  intros Hwf. unfold round_trip.
  apply round_trip_keys; [|reflexivity|exact Hwf].
  exact (effective_key_length None).
Qed.

(** A string with an unpaired surrogate has no UTF-8 form: it is
    encrypted as if U+FFFD stood in its place, and that is what comes
    back. *)
Lemma round_trip_lone_surrogate (w : World) :
  fst (round_trip [C16 xd8 x00] None (self, w)) = Ok [C16 xff xfd].
Proof.
  transitivity (fst (round_trip [C16 xff xfd] None (self, w))).
  - unfold round_trip, bind. rewrite !encrypt_run.
    unfold seal, token, envelope, ciphertext.
    now rewrite utf8_encode_lone_surrogate.
  - apply round_trip_keys; [|reflexivity|reflexivity].
    exact (effective_key_length None).
Qed.

(** C4.  With one explicit secret on both sides the round trip gives the
    plaintext back.  Both call shapes run one pipeline, [seal] and
    [open_envelope], on the key of the call; so when the explicit secret
    is the runtime secret, a token of either shape is decrypted by the
    other. *)
Theorem C4_explicit_key_consistency (w : World) (P k : jsstring) :
  well_formed P = true ->
  fst (round_trip P (Some k) (self, w)) = Ok P /\
  (forall forceKey,
      fst (encrypt P forceKey (self, w)) =
      rethrown "encrypt" (seal (effective_key self forceKey) (next_bytes w 12) P)) /\
  (forall encoded forceKey,
      fst (decrypt encoded forceKey (self, w)) =
      rethrown "decrypt" (open_envelope (effective_key self forceKey)
                            (Buffer_from_base64url encoded))) /\
  (ENCRYPTION_KEY w0 = Some k ->
   fst ((encrypted <- encrypt P None ;; decrypt encrypted (Some k)) (self, w)) = Ok P /\
   fst ((encrypted <- encrypt P (Some k) ;; decrypt encrypted None) (self, w)) = Ok P).
Proof.
  intros Hwf. pose proof effective_key_length as Hlen.
  split; [|split; [|split]].
  - unfold round_trip. apply round_trip_keys; auto.
  - intros fk. now rewrite encrypt_run.
  - intros encoded fk. now rewrite decrypt_run.
  - intros Hk. pose proof (effective_key_runtime k Hk) as He.
    split; apply round_trip_keys; auto.
Qed.

(** C7.  The token of [encrypt] is the unpadded URL-safe base64 text of
    nonce (12 bytes), tag (16 bytes) and ciphertext (as long as the UTF-8
    form of the plaintext) in this order, with nothing between; every
    character is of the URL-safe alphabet, so none is ['+'], ['/'] or
    ['=']; a plaintext of 35 bytes gives an envelope of 63 bytes and a
    token of 84 characters. *)
Theorem C7_token_format (w : World) (P : jsstring) (forceKey : option jsstring) :
  let k := effective_key self forceKey in
  let nonce := next_bytes w 12 in
  let ct := GCM.crypt (GCM.init k nonce) 0 (utf8_encode P) in
  let tag := GCM.tag (GCM.init k nonce) ct in
  let encoded := toString_base64url (nonce ++ tag ++ ct) in
  fst (encrypt P forceKey (self, w)) = Ok encoded /\
  List.length nonce = 12%nat /\
  List.length tag = 16%nat /\
  List.length ct = List.length (utf8_encode P) /\
  Forall (fun c => In c alphabet /\ c <> "+"%char /\ c <> "/"%char /\ c <> "="%char)
         (list_ascii_of_string encoded) /\
  (List.length (utf8_encode P) = 35%nat ->
   List.length (nonce ++ tag ++ ct) = 63%nat /\ String.length encoded = 84%nat).
Proof.
  intros k nonce ct tag encoded.
  assert (Hn : List.length nonce = 12%nat) by apply next_bytes_length.
  assert (Ht : List.length tag = 16%nat) by apply tag_length.
  assert (Hc : List.length ct = List.length (utf8_encode P)) by apply crypt_length.
  repeat split; try assumption.
  - apply encrypt_token.
  - eapply Forall_impl; [|apply toString_base64url_safe].
    intros c Hin. split; [exact Hin | now apply alphabet_excludes].
  - rewrite !length_app. lia.
  - unfold encoded. rewrite toString_base64url_length, !length_app, Hn, Ht, Hc, H.
    reflexivity.
Qed.

(** C8.  The token fixes the nonce: its first twelve decoded bytes are
    the random bytes the call drew.  So two calls on one plaintext under
    one key that draw different nonces return different tokens. *)
Theorem C8_nonce_in_token (w1 w2 : World) (P : jsstring) (forceKey : option jsstring) :
  exists t1 t2,
    fst (encrypt P forceKey (self, w1)) = Ok t1 /\
    fst (encrypt P forceKey (self, w2)) = Ok t2 /\
    firstn 12 (Buffer_from_base64url t1) = next_bytes w1 12 /\
    firstn 12 (Buffer_from_base64url t2) = next_bytes w2 12 /\
    (next_bytes w1 12 <> next_bytes w2 12 -> t1 <> t2).
Proof.
  assert (Hnonce : forall w, firstn 12 (Buffer_from_base64url
                     (token (effective_key self forceKey) (next_bytes w 12) P))
                   = next_bytes w 12).
  { intros w. unfold token, envelope. rewrite base64url_round_trip.
    apply firstn_exact. auto with lengths. }
  exists (token (effective_key self forceKey) (next_bytes w1 12) P),
         (token (effective_key self forceKey) (next_bytes w2 12) P).
  split; [apply encrypt_token|]. split; [apply encrypt_token|].
  split; [apply Hnonce|]. split; [apply Hnonce|].
  intros Hne Heq. apply Hne. rewrite <- (Hnonce w1), <- (Hnonce w2). now rewrite Heq.
Qed.

(** C2, as the code has it.  [decrypt] has no length check: for a text
    that decodes to fewer than 28 bytes the decipher is created all the
    same.  The call throws "Invalid initialization vector" when nothing
    was decoded, and "Invalid authentication tag length" unless the
    bytes after the twelfth number 4, 8 or 12 to 15; when they do, they
    are verified as a shortened tag of the empty ciphertext, and the
    call returns the empty string or throws the authentication error. *)
Theorem C2_short_token (w : World) (encoded : string) (forceKey : option jsstring) :
  (List.length (Buffer_from_base64url encoded) < 28)%nat ->
  let combined := Buffer_from_base64url encoded in
  let n := List.length combined in
  let k := effective_key self forceKey in
  In EvCreateDecipheriv (journal (snd (snd (decrypt encoded forceKey (self, w))))) /\
  fst (decrypt encoded forceKey (self, w)) =
  if Nat.eqb n 0 then
    Throw "[EncryptionService.decrypt] Invalid initialization vector"
  else if valid_gcm_tag_length (n - 12) then
    if bytes_eqb (firstn (n - 12) (GCM.tag (GCM.init k (firstn 12 combined)) []))
                 (skipn 12 combined)
    then Ok []
    else Throw "[EncryptionService.decrypt] Unsupported state or unable to authenticate data"
  else Throw ("[EncryptionService.decrypt] Invalid authentication tag length: "
                ++ decimal (n - 12)).
Proof.
  intros Hn combined n k. rewrite decrypt_run. cbn [fst snd with_journal journal].
  split.
  - rewrite !in_app_iff. right. right. left. now left.
  - fold combined. fold k.
    rewrite (open_short_envelope k combined (effective_key_length forceKey) Hn).
    cbv zeta. fold n.
    destruct (Nat.eqb n 0); [reflexivity|].
    destruct (valid_gcm_tag_length (n - 12)); [|reflexivity].
    destruct (bytes_eqb _ _); reflexivity.
Qed.


(** C5, as the code has it.  Decrypting under [keyB] a token made under
    [keyA] gives the plaintext when both select one key, and otherwise
    succeeds only if the tag of the ciphertext under the key of [keyB]
    is the tag in the token; when it is not, the call throws the
    authentication error, and it throws no other. *)
Theorem C5_cross_key (w : World) (P keyA keyB : jsstring) :
  well_formed P = true ->
  let kA := effective_key self (Some keyA) in
  let kB := effective_key self (Some keyB) in
  let nonce := next_bytes w 12 in
  let ct := ciphertext kA nonce P in
  let outcome :=
    fst ((encrypted <- encrypt P (Some keyA) ;; decrypt encrypted (Some keyB)) (self, w)) in
  (kB = kA -> outcome = Ok P) /\
  (GCM.tag (GCM.init kB nonce) ct <> GCM.tag (GCM.init kA nonce) ct ->
   outcome =
   Throw "[EncryptionService.decrypt] Unsupported state or unable to authenticate data") /\
  (forall P', outcome = Ok P' ->
              GCM.tag (GCM.init kB nonce) ct = GCM.tag (GCM.init kA nonce) ct) /\
  (forall e, outcome = Throw e ->
             e = "[EncryptionService.decrypt] Unsupported state or unable to authenticate data"%string).
Proof.
  intros Hwf kA kB nonce ct outcome.
  pose proof (effective_key_length (Some keyA)) as HA.
  pose proof (effective_key_length (Some keyB)) as HB.
  assert (Hn : List.length nonce = 12%nat) by apply next_bytes_length.
  assert (Hout : outcome =
                 rethrown "decrypt"
                   (if bytes_eqb (GCM.tag (GCM.init kB nonce) ct)
                                 (GCM.tag (GCM.init kA nonce) ct)
                    then Ok (utf8_decode (GCM.crypt (GCM.init kB nonce) 0 ct))
                    else Throw auth_failed)).
  { unfold outcome, bind. rewrite encrypt_run.
    fold kA. fold nonce. rewrite seal_ok by assumption.
    cbn [rethrown]. rewrite decrypt_run. cbn [fst]. fold kB.
    unfold token. rewrite base64url_round_trip.
    now rewrite open_envelope_of by assumption. }
  split; [|split; [|split]].
  - intros E. rewrite Hout, E, bytes_eqb_refl. unfold ct, ciphertext.
    cbn [rethrown]. now rewrite crypt_involutive, utf8_round_trip.
  - intros Hne. rewrite Hout.
    destruct (bytes_eqb _ _) eqn:E; [|reflexivity].
    apply bytes_eqb_eq in E. contradiction.
  - intros P'. rewrite Hout.
    destruct (bytes_eqb _ _) eqn:E; [|discriminate].
    intros _. now apply bytes_eqb_eq.
  - intros e. rewrite Hout.
    destruct (bytes_eqb _ _); [discriminate|].
    cbn [rethrown]. now intros [= <-].
Qed.


(** What is proved of tamper detection for every key: a token with one
    bit of its tag turned over is rejected with the authentication
    error, and [decrypt] returns a string only after the tag was found
    to be the tag of the ciphertext. *)

(** X1.  A token with one bit of its tag (bits 96 to 223 of the
    envelope) turned over is rejected with the authentication error,
    whatever the plaintext, the nonce and the key. *)
Lemma tampered_tag_rejected (w w' : World) (P : jsstring)
      (forceKey : option jsstring) (i : nat) :
  (96 <= i < 224)%nat ->
  let k := effective_key self forceKey in
  let tampered := toString_base64url (flip_bit i (envelope k (next_bytes w 12) P)) in
  fst (decrypt tampered forceKey (self, w')) =
  Throw "[EncryptionService.decrypt] Unsupported state or unable to authenticate data".
Proof.
  intros Hi k tampered.
  pose proof (effective_key_length forceKey) as Hk. fold k in Hk.
  assert (Hn : List.length (next_bytes w 12) = 12%nat) by apply next_bytes_length.
  rewrite decrypt_run. cbn [fst]. fold k. unfold tampered.
  rewrite base64url_round_trip. unfold envelope.
  set (ct := ciphertext k (next_bytes w 12) P).
  set (t := GCM.tag (GCM.init k (next_bytes w 12)) ct).
  assert (Ht : List.length t = 16%nat) by apply tag_length.
  rewrite flip_bit_app by lia. rewrite Hn.
  rewrite flip_bit_app_l by lia.
  unfold open_envelope.
  destruct (envelope_slices (next_bytes w 12) (flip_bit (i - 8 * 12) t) ct Hn)
    as (-> & -> & ->); [now rewrite flip_bit_length|].
  rewrite check_init_ok by (try exact Hk; lia).
  rewrite flip_bit_length, Ht.
  cbn [valid_gcm_tag_length Nat.eqb Nat.leb andb orb]. fold t.
  rewrite <- Ht at 1. rewrite firstn_all.
  destruct (bytes_eqb t (flip_bit (i - 8 * 12) t)) eqn:E; [|reflexivity].
  apply bytes_eqb_eq in E. symmetry in E.
  apply flip_bit_neq in E; [contradiction | lia].
Qed.

(** X2.  A token with one bit of its nonce (bits 0 to 95 of the
    envelope) turned over is rejected with the authentication error: the
    tag in the token is the tag under the original nonce, and no other
    nonce gives that tag on the same ciphertext. *)
Lemma tampered_nonce_rejected (w w' : World) (P : jsstring)
      (forceKey : option jsstring) (i : nat) :
  (i < 96)%nat ->
  let k := effective_key self forceKey in
  let tampered := toString_base64url (flip_bit i (envelope k (next_bytes w 12) P)) in
  fst (decrypt tampered forceKey (self, w')) =
  Throw "[EncryptionService.decrypt] Unsupported state or unable to authenticate data".
Proof.
  intros Hi k tampered.
  pose proof (effective_key_length forceKey) as Hk. fold k in Hk.
  assert (Hn : List.length (next_bytes w 12) = 12%nat) by apply next_bytes_length.
  rewrite decrypt_run. cbn [fst]. fold k. unfold tampered.
  rewrite base64url_round_trip. unfold envelope.
  set (ct := ciphertext k (next_bytes w 12) P).
  set (t := GCM.tag (GCM.init k (next_bytes w 12)) ct).
  assert (Ht : List.length t = 16%nat) by apply tag_length.
  rewrite flip_bit_app_l by lia.
  set (iv' := flip_bit i (next_bytes w 12)).
  assert (Hn' : List.length iv' = 12%nat) by (unfold iv'; now rewrite flip_bit_length).
  unfold open_envelope.
  destruct (envelope_slices iv' t ct Hn' Ht) as (-> & -> & ->).
  rewrite check_init_ok by (try exact Hk; lia).
  rewrite Ht.
  cbn [valid_gcm_tag_length Nat.eqb Nat.leb andb orb].
  rewrite <- (tag_length (GCM.init k iv') ct) at 1. rewrite firstn_all.
  destruct (bytes_eqb (GCM.tag (GCM.init k iv') ct) t) eqn:E; [|reflexivity].
  apply bytes_eqb_eq in E. unfold t in E.
  apply tag_nonce_injective in E; try assumption.
  unfold iv' in E. apply flip_bit_neq in E; [contradiction | lia].
Qed.

End Constructed.

(** ** Witnesses and counterexamples on the concrete run *)

Lemma C1_witness :
  fst (constructor world0) = Ok service0 /\
  well_formed greeting = true /\
  fst (round_trip greeting None (service0, world0)) = Ok greeting.
Proof.
  split; [reflexivity|]. split; [reflexivity|].
  exact (C1_round_trip world0 service0 eq_refl world0 greeting eq_refl).
Defined.

Lemma C4_witness :
  fst (constructor world0) = Ok service0 /\
  well_formed folder_id = true /\
  fst (round_trip folder_id (Some (js "keyA")) (service0, world0)) = Ok folder_id.
Proof.
  split; [reflexivity|]. split; [reflexivity|].
  exact (proj1 (C4_explicit_key_consistency world0 service0 eq_refl world0 folder_id
                  (js "keyA") eq_refl)).
Defined.

Lemma C7_witness :
  fst (constructor world0) = Ok service0 /\
  List.length (utf8_encode id35) = 35%nat /\
  exists encoded,
    fst (encrypt id35 None (service0, world0)) = Ok encoded /\
    String.length encoded = 84%nat.
Proof.
  split; [reflexivity|]. split; [reflexivity|].
  destruct (C7_token_format world0 service0 eq_refl world0 id35 None)
    as (H1 & _ & _ & _ & _ & H6).
  eexists. split; [exact H1 | apply H6; reflexivity].
Defined.

Lemma C8_witness :
  fst (constructor world0) = Ok service0 /\
  exists t1 t2,
    fst (encrypt folder_id None (service0, world0)) = Ok t1 /\
    fst (encrypt folder_id None (snd (encrypt folder_id None (service0, world0)))) = Ok t2 /\
    t1 <> t2.
Proof.
  split; [reflexivity|].
  destruct (C8_nonce_in_token world0 service0 eq_refl world0
              (snd (snd (encrypt folder_id None (service0, world0))))
              folder_id None)
    as (t1 & t2 & H1 & H2 & _ & _ & Hne).
  exists t1, t2. split; [exact H1|]. split.
  - rewrite <- H2. rewrite (encrypt_run folder_id None service0 world0).
    reflexivity.
  - apply Hne. rewrite encrypt_run. unfold next_bytes, world0.
    cbn [snd entropy drawn]. vm_compute. discriminate.
Defined.

Lemma C2_witness :
  fst (constructor world0) = Ok service0 /\
  (List.length (Buffer_from_base64url "not-valid-encrypted-data") < 28)%nat /\
  fst (decrypt "not-valid-encrypted-data" None (service0, world0)) =
  Throw "[EncryptionService.decrypt] Invalid authentication tag length: 6".
Proof.
  split; [reflexivity|]. split; [vm_compute; lia|].
  exact (proj2 (C2_short_token world0 service0 eq_refl world0
                  "not-valid-encrypted-data" None ltac:(vm_compute; lia))).
Defined.

(** The token of the empty string, cut after 27 of its 28 bytes, decodes
    to fewer than 28 bytes and is decrypted without an error; and on
    the empty text the error is the one of the decipher that was
    created on it. *)
Lemma C2_counterexample :
  let short := toString_base64url (firstn 27 (envelope (key service0) nonce0 [])) in
  fst (constructor world0) = Ok service0 /\
  (List.length (Buffer_from_base64url short) < 28)%nat /\
  fst (decrypt short None (service0, world0)) = Ok [] /\
  decrypt "" None (service0, world0) =
  (Throw "[EncryptionService.decrypt] Invalid initialization vector",
   (service0,
    with_journal world0
      [EvCreateDecipheriv;
       EvConsoleError "[EncryptionService.decrypt] Invalid initialization vector"])).
Proof.
  cbv zeta. split; [reflexivity|].
  pose proof (effective_key_length world0 service0 eq_refl None) as Hk.
  cbn [effective_key] in Hk.
  assert (Hcut : firstn 27 (envelope (key service0) nonce0 [])
                 = nonce0 ++ firstn 15 (GCM.tag (GCM.init (key service0) nonce0) [])).
  { unfold envelope, ciphertext. change (utf8_encode []) with (@nil byte).
    change (GCM.crypt (GCM.init (key service0) nonce0) 0 []) with (@nil byte).
    rewrite app_nil_r. change 27%nat with (List.length nonce0 + 15)%nat.
    apply firstn_app_2. }
  assert (Hlen : List.length (firstn 27 (envelope (key service0) nonce0 [])) = 27%nat).
  { rewrite Hcut, length_app, length_firstn, tag_length. reflexivity. }
  rewrite base64url_round_trip. split; [lia|]. split.
  - rewrite decrypt_run. cbn [fst effective_key].
    rewrite base64url_round_trip.
    rewrite open_short_envelope by (try exact Hk; lia).
    cbv zeta. rewrite Hlen. cbn [Nat.eqb Nat.sub valid_gcm_tag_length Nat.leb andb orb].
    rewrite Hcut. rewrite (firstn_exact 12) by reflexivity.
    rewrite (skipn_exact 12) by reflexivity.
    now rewrite bytes_eqb_refl.
  - rewrite decrypt_run. cbn [effective_key].
    change (Buffer_from_base64url "") with (@nil byte).
    rewrite open_short_envelope by (try exact Hk; cbn; lia).
    reflexivity.
Qed.

(** An override secret and the same secret followed by U+0000 derive one
    key: the UTF-8 forms differ by a zero byte at the end. *)
Lemma scrypt_key_NUL :
  scrypt_key (js "keyA" ++ [NUL]) SALT_literal 32 = scrypt_key (js "keyA") SALT_literal 32.
Proof.
  unfold scrypt_key.
  change (utf8_encode (js "keyA" ++ [NUL])) with (utf8_encode (js "keyA") ++ [x00]).
  apply scrypt_zero. cbn. lia.
Qed.

(** Two tokens made under one secret and opened under another, where the
    other selects the same key: the secret followed by U+0000, and the
    runtime secret for the empty override. *)
Lemma C5_counterexample :
  fst (constructor world0) = Ok service0 /\
  js "keyA" <> js "keyA" ++ [NUL] /\
  fst ((encrypted <- encrypt folder_id (Some (js "keyA")) ;;
        decrypt encrypted (Some (js "keyA" ++ [NUL]))) (service0, world0))
  = Ok folder_id /\
  [] <> test_secret /\
  fst ((encrypted <- encrypt folder_id (Some []) ;;
        decrypt encrypted (Some test_secret)) (service0, world0))
  = Ok folder_id.
Proof.
  split; [reflexivity|]. split; [discriminate|]. split; [|split; [discriminate|]].
  - apply round_trip_keys; [apply scrypt_key_length| |reflexivity].
    cbn [effective_key js map list_ascii_of_string app]. cbn [SALT service0].
    exact scrypt_key_NUL.
  - apply round_trip_keys; [|reflexivity|reflexivity].
    exact (effective_key_length world0 service0 eq_refl (Some [])).
Qed.

Lemma C5_witness :
  fst (constructor world0) = Ok service0 /\
  well_formed folder_id = true /\
  fst ((encrypted <- encrypt folder_id (Some (js "keyA")) ;;
        decrypt encrypted (Some (js "keyA" ++ [NUL]))) (service0, world0))
  = Ok folder_id.
Proof.
  split; [reflexivity|]. split; [reflexivity|].
  exact (proj1 (C5_cross_key world0 service0 eq_refl world0 folder_id (js "keyA")
                  (js "keyA" ++ [NUL]) eq_refl) scrypt_key_NUL).
Defined.

(** ** On any instance *)












(** X19.  Any mismatch is the one authentication error: on decoded
    bytes of full length whose tag part is not the tag of their nonce and
    ciphertext parts under the key of the call, whatever was changed. *)
Lemma mismatch_rejected (self : EncryptionService) (w : World)
      (encoded : string) (forceKey : option jsstring) :
  let combined := Buffer_from_base64url encoded in
  let k := effective_key self forceKey in
  List.length k = 32%nat ->
  (28 <= List.length combined)%nat ->
  GCM.tag (GCM.init k (slice combined 0 12)) (slice_from combined 28)
  <> slice combined 12 28 ->
  fst (decrypt encoded forceKey (self, w)) =
  Throw "[EncryptionService.decrypt] Unsupported state or unable to authenticate data".
Proof.
  intros combined k Hk Hlen Hne. rewrite decrypt_run. cbn [fst].
  fold combined. fold k. unfold open_envelope.
  assert (Hiv : List.length (slice combined 0 12) = 12%nat).
  { unfold slice. rewrite length_firstn, length_skipn. lia. }
  assert (Ht : List.length (slice combined 12 28) = 16%nat).
  { unfold slice. rewrite length_firstn, length_skipn. lia. }
  rewrite check_init_ok by (try exact Hk; lia).
  rewrite Ht. cbn [valid_gcm_tag_length Nat.eqb Nat.leb andb orb].
  rewrite <- (tag_length (GCM.init k (slice combined 0 12)) (slice_from combined 28)) at 1.
  rewrite firstn_all.
  destruct (bytes_eqb _ _) eqn:E; [|reflexivity].
  apply bytes_eqb_eq in E. contradiction.
Qed.

(** X3.  No string is returned unless the tag given has a length the
    cipher admits and equals the tag of the ciphertext under the key of
    the call, as far as it goes; the string returned is then the text of
    the deciphered bytes. *)
Lemma returned_only_if_authenticated (self : EncryptionService) (w : World)
      (encoded : string) (forceKey : option jsstring) (s : jsstring) :
  fst (decrypt encoded forceKey (self, w)) = Ok s ->
  let combined := Buffer_from_base64url encoded in
  let k := effective_key self forceKey in
  let t := slice combined 12 28 in
  valid_gcm_tag_length (List.length t) = true /\
  firstn (List.length t)
         (GCM.tag (GCM.init k (slice combined 0 12)) (slice_from combined 28)) = t /\
  s = utf8_decode (GCM.crypt (GCM.init k (slice combined 0 12)) 0 (slice_from combined 28)).
Proof.
  rewrite decrypt_run. cbn [fst]. unfold open_envelope. cbv zeta.
  destruct (check_init _ _ _); [discriminate|].
  destruct (valid_gcm_tag_length _); [|discriminate].
  destruct (bytes_eqb _ _) eqn:E; [|discriminate].
  cbn [rethrown]. intros [= <-]. apply bytes_eqb_eq in E. auto.
Qed.

Lemma scrypt_runs_app (j1 j2 : list event) :
  scrypt_runs (j1 ++ j2) = (scrypt_runs j1 + scrypt_runs j2)%nat.
Proof. unfold scrypt_runs. now rewrite filter_app, length_app. Qed.

Lemma scrypt_runs_complaint {A} (method : string) (r : result A) :
  scrypt_runs (complaint method r) = 0%nat.
Proof. now destruct r. Qed.

(** C9.  Without a runtime secret (none, or the empty string) the
    constructor throws the missing-secret error, nothing is derived, and
    no client of the module gets to call a method.  With a non-empty
    secret it returns an instance holding the 32-byte key derived from
    it; that is the one derivation: calls on the default key make none. *)
Theorem C9_initialization (w : World) :
  match ENCRYPTION_KEY w with
  | Some (c :: s) =>
      let self := MkService (scrypt_key (c :: s) SALT_literal 32) SALT_literal in
      constructor w =
      (Ok self,
       with_journal w
         (journal w ++ [EvScrypt (utf8_encode (c :: s)) (utf8_encode SALT_literal) 32])) /\
      List.length (key self) = 32%nat /\
      scrypt_runs (journal (snd (constructor w)))
      = S (scrypt_runs (journal w)) /\
      (forall P encoded w',
          scrypt_runs (journal (snd (snd (encrypt P None (self, w')))))
          = scrypt_runs (journal w') /\
          scrypt_runs (journal (snd (snd (decrypt encoded None (self, w')))))
          = scrypt_runs (journal w'))
  | _ =>
      constructor w = (Throw missing_key, w) /\
      forall (A : Type) (client : Method A),
        with_service client w = (Throw missing_key, w)
  end.
Proof.
  pose proof (constructor_run w) as Hrun.
  destruct (ENCRYPTION_KEY w) as [[|c s]|] eqn:He.
  - split; [exact Hrun|]. intros A client. unfold with_service, bind. now rewrite Hrun.
  - cbv zeta. split; [exact Hrun|]. split; [apply scrypt_key_length|]. split.
    + rewrite Hrun. cbn [snd with_journal journal].
      rewrite scrypt_runs_app. cbn. lia.
    + intros P encoded w'. rewrite encrypt_run, decrypt_run.
      cbn [snd fst journal with_journal derivations].
      rewrite !scrypt_runs_app, !scrypt_runs_complaint. cbn. lia.
  - split; [exact Hrun|]. intros A client. unfold with_service, bind. now rewrite Hrun.
Qed.

(** C10.  A call with an override secret leaves the instance, and so its
    cached key, as it was; the override key lives in the call only.  A
    later call on the default key gives what it would have given without
    the override call (for [encrypt], with the random source where the
    override call left it). *)
Theorem C10_override_leaves_default_key (self : EncryptionService) (w : World)
        (P : jsstring) (encoded : string) (k : jsstring) :
  let after_encrypt := snd (encrypt P (Some k) (self, w)) in
  let after_decrypt := snd (decrypt encoded (Some k) (self, w)) in
  fst after_encrypt = self /\
  fst after_decrypt = self /\
  (forall encoded',
      fst (decrypt encoded' None after_encrypt) = fst (decrypt encoded' None (self, w)) /\
      fst (decrypt encoded' None after_decrypt) = fst (decrypt encoded' None (self, w))) /\
  (forall P',
      fst (encrypt P' None after_decrypt) = fst (encrypt P' None (self, w))) /\
  (forall P' j,
      fst (encrypt P' None after_encrypt) =
      fst (encrypt P' None
             (self, MkWorld (ENCRYPTION_KEY w) (entropy w) (drawn w + 12) j))).
Proof.
  cbv zeta. rewrite encrypt_run, decrypt_run. cbn [snd fst].
  split; [reflexivity|]. split; [reflexivity|]. split; [|split].
  - intros encoded'. rewrite !decrypt_run. split; reflexivity.
  - intros P'. rewrite !encrypt_run. reflexivity.
  - intros P' j. rewrite !encrypt_run. reflexivity.
Qed.

(** * The rest of the module and the development route *)

(** ** Strings without a UTF-8 form *)

Lemma replacement_character :
  cu (mk16 0xFFFD) = 0xFFFD /\ utf8_of_cp 0xFFFD = replacement.
Proof. split; vm_compute; reflexivity. Qed.

Ltac by_length s IH :=
  let n := fresh "n" in
  let Hn := fresh "Hn" in
  remember (List.length s) as n eqn:Hn;
  revert s Hn; induction n as [n IH] using lt_wf_ind; intros s Hn.

(** The UTF-8 writer does not tell a string from its well-formed
    version. *)
Lemma utf8_encode_toWellFormed (s : jsstring) :
  utf8_encode (toWellFormed s) = utf8_encode s.
Proof.
  destruct replacement_character as [Hcu Hcp].
  by_length s IH.
  destruct s as [|c rest]; [reflexivity|].
  cbn [utf8_encode toWellFormed List.length] in *.
  destruct (is_high (cu c)) eqn:Hh.
  - destruct rest as [|d rest'].
    + cbn [fffd utf8_encode]. rewrite Hcu, Hcp. reflexivity.
    + destruct (is_low (cu d)) eqn:Hl.
      * cbn [utf8_encode]. rewrite Hh, Hl. f_equal.
        apply (IH (List.length rest')); [cbn [List.length] in Hn; lia | reflexivity].
      * cbn [utf8_encode]. rewrite Hcu, Hcp. cbn [is_high is_low N.leb N.compare andb].
        change (is_high 0xFFFD) with false. change (is_low 0xFFFD) with false.
        cbv iota. f_equal.
        apply (IH (List.length (d :: rest'))); [lia | reflexivity].
  - destruct (is_low (cu c)) eqn:Hl.
    + cbn [utf8_encode]. rewrite Hcu, Hcp.
      change (is_high 0xFFFD) with false. change (is_low 0xFFFD) with false.
      cbv iota. f_equal. apply (IH (List.length rest)); [lia | reflexivity].
    + cbn [utf8_encode]. rewrite Hh, Hl. f_equal.
      apply (IH (List.length rest)); [lia | reflexivity].
Qed.

Lemma well_formed_toWellFormed (s : jsstring) :
  well_formed (toWellFormed s) = true.
Proof.
  destruct replacement_character as [Hcu _].
  by_length s IH.
  destruct s as [|c rest]; [reflexivity|].
  cbn [toWellFormed List.length] in *.
  destruct (is_high (cu c)) eqn:Hh.
  - destruct rest as [|d rest'].
    + cbn [fffd well_formed]. rewrite Hcu. reflexivity.
    + destruct (is_low (cu d)) eqn:Hl.
      * cbn [well_formed]. rewrite Hh, Hl. cbn [andb].
        apply (IH (List.length rest')); [cbn [List.length] in Hn; lia | reflexivity].
      * cbn [well_formed]. rewrite Hcu.
        change (is_high 0xFFFD) with false. change (is_low 0xFFFD) with false.
        cbn [negb andb].
        apply (IH (List.length (d :: rest'))); [lia | reflexivity].
  - destruct (is_low (cu c)) eqn:Hl.
    + cbn [well_formed]. rewrite Hcu.
      change (is_high 0xFFFD) with false. change (is_low 0xFFFD) with false.
      cbn [negb andb]. apply (IH (List.length rest)); [lia | reflexivity].
    + cbn [well_formed]. rewrite Hh, Hl. cbn [negb andb].
      apply (IH (List.length rest)); [lia | reflexivity].
Qed.

Lemma toWellFormed_well_formed (s : jsstring) :
  well_formed s = true -> toWellFormed s = s.
Proof.
  by_length s IH. intros Hwf.
  destruct s as [|c rest]; [reflexivity|].
  cbn [toWellFormed well_formed List.length] in *.
  destruct (is_high (cu c)) eqn:Hh.
  - destruct rest as [|d rest']; [discriminate|].
    apply andb_prop in Hwf as [Hl Hwf]. rewrite Hl. do 2 f_equal.
    apply (IH (List.length rest')); [cbn [List.length] in Hn; lia | reflexivity | exact Hwf].
  - apply andb_prop in Hwf as [Hl Hwf]. apply negb_true_iff in Hl. rewrite Hl.
    f_equal. apply (IH (List.length rest)); [lia | reflexivity | exact Hwf].
Qed.

(** Writing any string as UTF-8 and reading it back gives its
    well-formed version. *)
Lemma utf8_decode_encode (s : jsstring) :
  utf8_decode (utf8_encode s) = toWellFormed s.
Proof.
  rewrite <- utf8_encode_toWellFormed.
  apply utf8_round_trip, well_formed_toWellFormed.
Qed.

(** U+0000 at the end of a string is a zero byte at the end of its
    UTF-8 form. *)
Lemma utf8_encode_NUL (s : jsstring) :
  utf8_encode (s ++ [NUL]) = utf8_encode s ++ [x00].
Proof.
  by_length s IH.
  destruct s as [|c rest]; [reflexivity|].
  cbn [app utf8_encode List.length] in *.
  destruct (is_high (cu c)) eqn:Hh.
  - destruct rest as [|d rest']; [reflexivity|].
    cbn [app]. destruct (is_low (cu d)) eqn:Hl.
    + rewrite <- app_assoc. f_equal.
      apply (IH (List.length rest')); [cbn [List.length] in Hn; lia | reflexivity].
    + rewrite <- app_assoc. f_equal.
      refine (IH (List.length (d :: rest')) _ (d :: rest') eq_refl). lia.
  - destruct (is_low (cu c)); rewrite <- app_assoc; f_equal;
      apply (IH (List.length rest)); try lia; reflexivity.
Qed.

(** ** The base64 functions of the encoding library *)

Lemma chunks_fuel_enough (n f f' : nat) (bs : bytes) :
  (0 < n)%nat -> (List.length bs <= f)%nat -> (List.length bs <= f')%nat ->
  chunks_fuel f n bs = chunks_fuel f' n bs.
Proof.
  intros Hn. revert f' bs. induction f as [|f IH]; intros f' bs Hf Hf'.
  - destruct bs; [|cbn in Hf; lia]. now destruct f'.
  - destruct bs as [|b bs]; [now destruct f'|].
    destruct f' as [|f']; [cbn in Hf'; lia|].
    cbn [chunks_fuel]. f_equal.
    apply IH; rewrite length_skipn; cbn [List.length] in *; lia.
Qed.

Lemma chunks3_cons (a b c : byte) (rest : bytes) :
  chunks 3 (a :: b :: c :: rest) = [a; b; c] :: chunks 3 rest.
Proof.
  unfold chunks. cbn [List.length].
  change (chunks_fuel (S (S (S (List.length rest)))) 3 (a :: b :: c :: rest))
    with ([a; b; c] :: chunks_fuel (S (S (List.length rest))) 3 rest).
  f_equal. apply chunks_fuel_enough; lia.
Qed.

(** Bits put side by side add up. *)
Lemma lor_add (x y n : N) : y < 2 ^ n -> N.lor (x * 2 ^ n) y = x * 2 ^ n + y.
Proof.
  intros Hy.
  assert (H : N.land (x * 2 ^ n) y = 0).
  { apply N.bits_inj. intros m. rewrite N.land_spec, N.bits_0.
    destruct (N.lt_ge_cases m n) as [Hm|Hm].
    - now rewrite N.mul_pow2_bits_low.
    - rewrite <- (N.mod_small y (2 ^ n)) by exact Hy.
      rewrite N.mod_pow2_bits_high by exact Hm. apply andb_false_r. }
  rewrite N.add_nocarry_lxor by exact H. symmetry. now apply N.lxor_lor.
Qed.

Lemma cu_injective (c d : char16) : cu c = cu d -> c = d.
Proof. intros E. rewrite <- (mk16_cu c), <- (mk16_cu d). now rewrite E. Qed.

(** The two alphabets and their tables: sixty-four characters, each in
    its place, none of them the padding. *)
Lemma alphabet_table (k : N) :
  k < 64 ->
  (Oslo.char_at Oslo.base64Alphabet k = [Oslo.symbol Oslo.base64Alphabet k] /\
   Oslo.base64DecodeMap (Oslo.symbol Oslo.base64Alphabet k) = Some k /\
   Oslo.is_equals (Some (Oslo.symbol Oslo.base64Alphabet k)) = false) /\
  (Oslo.char_at Oslo.base64urlAlphabet k = [Oslo.symbol Oslo.base64urlAlphabet k] /\
   Oslo.base64urlDecodeMap (Oslo.symbol Oslo.base64urlAlphabet k) = Some k /\
   Oslo.is_equals (Some (Oslo.symbol Oslo.base64urlAlphabet k)) = false).
Proof.
  intros Hk.
  pose (ok := fun (A : jsstring) (k : N) =>
    match Oslo.char_at A k with
    | [c] => cu c =? cu (Oslo.symbol A k)
    | _ => false
    end
    && match Oslo.index_of (Oslo.symbol A k) A with
       | Some v => v =? k
       | None => false
       end
    && negb (Oslo.is_equals (Some (Oslo.symbol A k)))).
  assert (Hok : forall A k, ok A k = true ->
                Oslo.char_at A k = [Oslo.symbol A k] /\
                Oslo.index_of (Oslo.symbol A k) A = Some k /\
                Oslo.is_equals (Some (Oslo.symbol A k)) = false).
  { clear k Hk. intros A k H. unfold ok in H.
    apply andb_prop in H as [H H3]. apply andb_prop in H as [H1 H2].
    repeat split.
    - destruct (Oslo.char_at A k) as [|c [|? ?]]; try discriminate.
      apply N.eqb_eq, cu_injective in H1. now subst.
    - destruct (Oslo.index_of _ A); [|discriminate].
      apply N.eqb_eq in H2. now subst.
    - now apply negb_true_iff. }
  split; apply Hok.
  - revert k Hk. apply (below_forallb _ 64). vm_compute. reflexivity.
  - revert k Hk. apply (below_forallb _ 64). vm_compute. reflexivity.
Qed.

Lemma lor_add_below (x y n : N) :
  x mod 2 ^ n = 0 -> y < 2 ^ n -> N.lor x y = x + y.
Proof.
  intros Hx Hy.
  rewrite (N.div_mod x (2 ^ n)) by (apply N.pow_nonzero; discriminate).
  rewrite Hx, N.add_0_r, (N.mul_comm (2 ^ n)). now apply lor_add.
Qed.

Lemma land_63 (x : N) : N.land x 0x3f = x mod 64.
Proof. change 0x3f with (N.ones 6). now rewrite N.land_ones. Qed.

Lemma land_255 (x : N) : N.land x 0xff = x mod 256.
Proof. change 0xff with (N.ones 8). now rewrite N.land_ones. Qed.

Lemma land_65535 (x : N) : N.land x 0xffff = x mod 65536.
Proof. change 0xffff with (N.ones 16). now rewrite N.land_ones. Qed.

Lemma shiftr_div (x : N) :
  N.shiftr x 0 = x /\ N.shiftr x 2 = x / 4 /\ N.shiftr x 4 = x / 16 /\
  N.shiftr x 6 = x / 64 /\ N.shiftr x 8 = x / 256 /\ N.shiftr x 10 = x / 1024 /\
  N.shiftr x 12 = x / 4096 /\ N.shiftr x 16 = x / 65536 /\
  N.shiftr x 18 = x / 262144.
Proof. repeat split; try apply N.shiftr_div_pow2. Qed.

Lemma shiftl_mul (x : N) :
  N.shiftl x 0 = x /\ N.shiftl x 2 = x * 4 /\ N.shiftl x 4 = x * 16 /\
  N.shiftl x 6 = x * 64 /\ N.shiftl x 8 = x * 256 /\ N.shiftl x 12 = x * 4096 /\
  N.shiftl x 18 = x * 262144.
Proof. repeat split; try apply N.shiftl_mul_pow2. apply N.shiftl_0_r. Qed.

(** The buffer of a group of bytes. *)
Lemma read_group_bytes (a b c : byte) :
  Oslo.read_group [a] = (b2N a, 8) /\
  Oslo.read_group [a; b] = (b2N a * 256 + b2N b, 16) /\
  Oslo.read_group [a; b; c] = (b2N a * 65536 + b2N b * 256 + b2N c, 24).
Proof.
  pose proof (b2N_lt a). pose proof (b2N_lt b). pose proof (b2N_lt c).
  unfold Oslo.read_group. cbn [fold_left fst snd].
  change (N.shiftl 0 8) with 0. rewrite N.lor_0_l.
  rewrite !N.shiftl_mul_pow2.
  rewrite (lor_add (b2N a) (b2N b) 8) by assumption.
  rewrite (lor_add _ (b2N c) 8) by assumption.
  change (2 ^ 8) with 256.
  repeat split; f_equal; lia.
Qed.

Lemma write_group_sizes (A : jsstring) (buffer : N) :
  Oslo.write_group 4 A Oslo.Include buffer 24 =
    Oslo.char_at A (N.land (N.shiftr buffer 18) 0x3f) ++
    Oslo.char_at A (N.land (N.shiftr buffer 12) 0x3f) ++
    Oslo.char_at A (N.land (N.shiftr buffer 6) 0x3f) ++
    Oslo.char_at A (N.land (N.shiftr buffer 0) 0x3f) ++ [] /\
  Oslo.write_group 4 A Oslo.Include buffer 16 =
    Oslo.char_at A (N.land (N.shiftr buffer 10) 0x3f) ++
    Oslo.char_at A (N.land (N.shiftr buffer 4) 0x3f) ++
    Oslo.char_at A (N.land (N.shiftl buffer 2) 0x3f) ++ [Oslo.equals_sign] /\
  Oslo.write_group 4 A Oslo.Include buffer 8 =
    Oslo.char_at A (N.land (N.shiftr buffer 2) 0x3f) ++
    Oslo.char_at A (N.land (N.shiftl buffer 4) 0x3f) ++
    [Oslo.equals_sign; Oslo.equals_sign].
Proof. repeat split. Qed.

Section Alphabet.

Variables (A : jsstring) (table : char16 -> option N).

Hypothesis table_of :
  forall k, k < 64 ->
    Oslo.char_at A k = [Oslo.symbol A k] /\
    table (Oslo.symbol A k) = Some k /\
    Oslo.is_equals (Some (Oslo.symbol A k)) = false.

Let sym := Oslo.symbol A.

Lemma char_at_symbol (k k' : N) :
  k' < 64 -> k = k' -> Oslo.char_at A k = [sym k'].
Proof. intros Hk ->. now apply table_of. Qed.

(** What the writer makes of a group of three, two and one bytes. *)
Lemma write_group_bytes (a b c : byte) :
  (let st := Oslo.read_group [a; b; c] in
   Oslo.write_group 4 A Oslo.Include (fst st) (snd st) =
   [sym (b2N a / 4); sym ((b2N a mod 4) * 16 + b2N b / 16);
    sym ((b2N b mod 16) * 4 + b2N c / 64); sym (b2N c mod 64)]) /\
  (let st := Oslo.read_group [a; b] in
   Oslo.write_group 4 A Oslo.Include (fst st) (snd st) =
   [sym (b2N a / 4); sym ((b2N a mod 4) * 16 + b2N b / 16);
    sym ((b2N b mod 16) * 4); Oslo.equals_sign]) /\
  (let st := Oslo.read_group [a] in
   Oslo.write_group 4 A Oslo.Include (fst st) (snd st) =
   [sym (b2N a / 4); sym ((b2N a mod 4) * 16); Oslo.equals_sign; Oslo.equals_sign]).
Proof.
  pose proof (b2N_lt a). pose proof (b2N_lt b). pose proof (b2N_lt c).
  destruct (read_group_bytes a b c) as (-> & -> & ->). cbn [fst snd].
  split; [|split].
  - rewrite (proj1 (write_group_sizes A _)).
    rewrite !land_63.
    destruct (shiftr_div (b2N a * 65536 + b2N b * 256 + b2N c))
      as (-> & _ & _ & -> & _ & _ & -> & _ & ->).
    rewrite (char_at_symbol _ (b2N a / 4)) by lia.
    rewrite (char_at_symbol _ ((b2N a mod 4) * 16 + b2N b / 16)) by lia.
    rewrite (char_at_symbol _ ((b2N b mod 16) * 4 + b2N c / 64)) by lia.
    rewrite (char_at_symbol _ (b2N c mod 64)) by lia.
    reflexivity.
  - rewrite (proj1 (proj2 (write_group_sizes A _))).
    rewrite !land_63.
    destruct (shiftr_div (b2N a * 256 + b2N b)) as (_ & _ & -> & _ & _ & -> & _).
    destruct (shiftl_mul (b2N a * 256 + b2N b)) as (_ & -> & _).
    rewrite (char_at_symbol _ (b2N a / 4)) by lia.
    rewrite (char_at_symbol _ ((b2N a mod 4) * 16 + b2N b / 16)) by lia.
    rewrite (char_at_symbol _ ((b2N b mod 16) * 4)) by lia.
    reflexivity.
  - rewrite (proj2 (proj2 (write_group_sizes A _))).
    rewrite !land_63.
    destruct (shiftr_div (b2N a)) as (_ & -> & _).
    destruct (shiftl_mul (b2N a)) as (_ & _ & -> & _).
    rewrite (char_at_symbol _ (b2N a / 4)) by lia.
    rewrite (char_at_symbol _ ((b2N a mod 4) * 16)) by lia.
    reflexivity.
Qed.

(** The writer, group by group. *)
Lemma encode_groups (a b c : byte) (rest : bytes) :
  Oslo.encodeBase64_internal [] A Oslo.Include = [] /\
  Oslo.encodeBase64_internal [a] A Oslo.Include =
    [sym (b2N a / 4); sym ((b2N a mod 4) * 16); Oslo.equals_sign; Oslo.equals_sign] /\
  Oslo.encodeBase64_internal [a; b] A Oslo.Include =
    [sym (b2N a / 4); sym ((b2N a mod 4) * 16 + b2N b / 16);
     sym ((b2N b mod 16) * 4); Oslo.equals_sign] /\
  Oslo.encodeBase64_internal (a :: b :: c :: rest) A Oslo.Include =
    sym (b2N a / 4) :: sym ((b2N a mod 4) * 16 + b2N b / 16)
      :: sym ((b2N b mod 16) * 4 + b2N c / 64) :: sym (b2N c mod 64)
      :: Oslo.encodeBase64_internal rest A Oslo.Include.
Proof.
  destruct (write_group_bytes a b c) as (H3 & H2 & H1). cbv zeta in H1, H2, H3.
  unfold Oslo.encodeBase64_internal.
  split; [reflexivity|]. split; [|split].
  - change (chunks 3 [a]) with [[a]]. cbn [flat_map]. rewrite H1. reflexivity.
  - change (chunks 3 [a; b]) with [[a; b]]. cbn [flat_map]. rewrite H2. reflexivity.
  - rewrite chunks3_cons. cbn [flat_map]. rewrite H3. reflexivity.
Qed.

(** One round of the reader on a character of the alphabet, and on the
    padding. *)
Lemma read_chunk_symbol (n j : nat) (rest : jsstring) (chunk bits k : N) :
  k < 64 -> nth_error rest j = Some (sym k) ->
  Nat.ltb 0 j && Oslo.is_equals (nth_error rest (j - 1)) = false ->
  Oslo.read_chunk (S n) j rest table Oslo.Required chunk bits =
  Oslo.read_chunk n (S j) rest table Oslo.Required
    (N.lor chunk (N.shiftl k (N.of_nat ((3 - j) * 6)))) (bits + 6).
Proof.
  intros Hk Hc Hp. destruct (table_of k Hk) as (_ & Ht & He).
  cbn [Oslo.read_chunk]. rewrite Hc. fold sym in He, Ht.
  rewrite He, Hp, Ht. reflexivity.
Qed.

Lemma read_chunk_equals (n j : nat) (rest : jsstring) (chunk bits : N) :
  Oslo.is_equals (nth_error rest j) = true ->
  Oslo.read_chunk (S n) j rest table Oslo.Required chunk bits =
  Oslo.read_chunk n (S j) rest table Oslo.Required chunk bits.
Proof. intros He. cbn [Oslo.read_chunk]. now rewrite He. Qed.

Lemma read_chunk_symbols (k0 k1 k2 k3 : N) (rest : jsstring) :
  k0 < 64 -> k1 < 64 -> k2 < 64 -> k3 < 64 ->
  Oslo.read_chunk 4 0 (sym k0 :: sym k1 :: sym k2 :: sym k3 :: rest)
    table Oslo.Required 0 0
  = Ok (k0 * 262144 + k1 * 4096 + k2 * 64 + k3, 24) /\
  Oslo.read_chunk 4 0 (sym k0 :: sym k1 :: sym k2 :: Oslo.equals_sign :: rest)
    table Oslo.Required 0 0
  = Ok (k0 * 262144 + k1 * 4096 + k2 * 64, 18) /\
  Oslo.read_chunk 4 0 (sym k0 :: sym k1 :: Oslo.equals_sign :: Oslo.equals_sign :: rest)
    table Oslo.Required 0 0
  = Ok (k0 * 262144 + k1 * 4096, 12).
Proof.
  intros H0 H1 H2 H3.
  pose proof (proj2 (proj2 (table_of k0 H0))) as E0.
  pose proof (proj2 (proj2 (table_of k1 H1))) as E1.
  pose proof (proj2 (proj2 (table_of k2 H2))) as E2.
  fold sym in E0, E1, E2.
  assert (Hsum : forall x y z t,
             x < 64 -> y < 64 -> z < 64 -> t < 64 ->
             N.lor (N.lor (N.lor (N.lor 0 (N.shiftl x 18)) (N.shiftl y 12))
                      (N.shiftl z 6)) (N.shiftl t 0)
             = x * 262144 + y * 4096 + z * 64 + t).
  { intros x y z t Hx Hy Hz Ht. rewrite N.lor_0_l.
    destruct (shiftl_mul x) as (_ & _ & _ & _ & _ & _ & ->).
    destruct (shiftl_mul y) as (_ & _ & _ & _ & _ & -> & _).
    destruct (shiftl_mul z) as (_ & _ & _ & -> & _).
    destruct (shiftl_mul t) as (-> & _).
    rewrite (lor_add_below (x * 262144) (y * 4096) 18)
      by (change (2 ^ 18) with 262144; lia).
    rewrite (lor_add_below (x * 262144 + y * 4096) (z * 64) 12)
      by (change (2 ^ 12) with 4096; lia).
    rewrite (lor_add_below (x * 262144 + y * 4096 + z * 64) t 6)
      by (change (2 ^ 6) with 64; lia).
    reflexivity. }
  assert (Hstep : forall n j rest chunk bits k,
             k < 64 -> nth_error rest j = Some (sym k) ->
             Nat.ltb 0 j && Oslo.is_equals (nth_error rest (j - 1)) = false ->
             Oslo.read_chunk (S n) j rest table Oslo.Required chunk bits =
             Oslo.read_chunk n (S j) rest table Oslo.Required
               (N.lor chunk (N.shiftl k (N.of_nat ((3 - j) * 6)))) (bits + 6))
    by exact read_chunk_symbol.
  split; [|split].
  - rewrite (Hstep 3%nat 0%nat _ _ _ k0), (Hstep 2%nat 1%nat _ _ _ k1),
      (Hstep 1%nat 2%nat _ _ _ k2), (Hstep 0%nat 3%nat _ _ _ k3)
      by (try assumption; reflexivity).
    cbn [Oslo.read_chunk]. do 2 f_equal. now apply Hsum.
  - rewrite (Hstep 3%nat 0%nat _ _ _ k0), (Hstep 2%nat 1%nat _ _ _ k1),
      (Hstep 1%nat 2%nat _ _ _ k2) by (try assumption; reflexivity).
    rewrite read_chunk_equals by reflexivity.
    cbn [Oslo.read_chunk]. do 2 f_equal.
    rewrite <- (N.add_0_r (k0 * 262144 + k1 * 4096 + k2 * 64)).
    rewrite <- (Hsum k0 k1 k2 0) by (try assumption; lia).
    change (N.shiftl 0 0) with 0. now rewrite N.lor_0_r.
  - rewrite (Hstep 3%nat 0%nat _ _ _ k0), (Hstep 2%nat 1%nat _ _ _ k1)
      by (try assumption; reflexivity).
    rewrite !read_chunk_equals by reflexivity.
    cbn [Oslo.read_chunk]. do 2 f_equal.
    rewrite <- (N.add_0_r (k0 * 262144 + k1 * 4096)), <- (N.add_0_r (k0 * 262144 + k1 * 4096)).
    change 0 with (0 * 64) at 2.
    rewrite <- (Hsum k0 k1 0 0) by (try assumption; lia).
    change (N.shiftl 0 0) with 0. change (N.shiftl 0 6) with 0. now rewrite !N.lor_0_r.
Qed.

Lemma symbol_in_alphabet (k : N) : k < 64 -> In (sym k) A.
Proof.
  intros Hk. destruct (table_of k Hk) as (Hc & _).
  unfold Oslo.char_at in Hc.
  destruct (nth_error A (N.to_nat k)) as [c|] eqn:E; [|discriminate].
  injection Hc as ->. eapply nth_error_In, E.
Qed.

(** Reading back what the writer wrote gives the bytes written. *)
Lemma decode_loop_encode (bs : bytes) :
  forall (fuel : nat) (done : bytes),
    (List.length (Oslo.encodeBase64_internal bs A Oslo.Include) <= fuel)%nat ->
    Oslo.decode_loop fuel (Oslo.encodeBase64_internal bs A Oslo.Include)
      table Oslo.Required done = Ok (done ++ bs).
Proof.
  induction bs as [| a | a b | a b c rest IH] using list_ind3; intros fuel done Hf;
    try pose proof (b2N_lt a) as Ha; try pose proof (b2N_lt b) as Hb;
    try pose proof (b2N_lt c) as Hc.
  - rewrite (proj1 (encode_groups x00 x00 x00 [])), app_nil_r. now destruct fuel.
  - destruct (encode_groups a x00 x00 []) as (_ & E1 & _). rewrite E1 in *.
    destruct fuel as [|fuel]; [cbn in Hf; lia|].
    cbn [Oslo.decode_loop].
    rewrite (proj2 (proj2 (read_chunk_symbols (b2N a / 4) (b2N a mod 4 * 16) 0 0 []
                             ltac:(lia) ltac:(lia) ltac:(lia) ltac:(lia)))).
    unfold Oslo.check_chunk. cbn [N.ltb N.eqb N.compare Pos.compare Pos.compare_cont Pos.eqb].
    rewrite land_65535.
    replace ((b2N a / 4 * 262144 + b2N a mod 4 * 16 * 4096) mod 65536) with 0 by lia.
    cbn [N.eqb skipn].
    change (Oslo.chunk_bytes ?x 12) with [N2b (N.land (N.shiftr x 16) 0xff)].
    rewrite land_255. destruct (shiftr_div (b2N a / 4 * 262144 + b2N a mod 4 * 16 * 4096))
      as (_ & _ & _ & _ & _ & _ & _ & -> & _).
    destruct fuel; cbn [Oslo.decode_loop]; do 3 f_equal; apply N2b_eq; lia.
  - destruct (encode_groups a b x00 []) as (_ & _ & E2 & _). rewrite E2 in *.
    destruct fuel as [|fuel]; [cbn in Hf; lia|].
    cbn [Oslo.decode_loop].
    rewrite (proj1 (proj2 (read_chunk_symbols (b2N a / 4)
                             (b2N a mod 4 * 16 + b2N b / 16) (b2N b mod 16 * 4) 0 []
                             ltac:(lia) ltac:(lia) ltac:(lia) ltac:(lia)))).
    unfold Oslo.check_chunk. cbn [N.ltb N.eqb N.compare Pos.compare Pos.compare_cont Pos.eqb].
    rewrite land_255.
    replace ((b2N a / 4 * 262144 + (b2N a mod 4 * 16 + b2N b / 16) * 4096
              + b2N b mod 16 * 4 * 64) mod 256) with 0 by lia.
    cbn [N.eqb skipn].
    change (Oslo.chunk_bytes ?x 18)
      with [N2b (N.land (N.shiftr x 16) 0xff); N2b (N.land (N.shiftr x 8) 0xff)].
    rewrite !land_255.
    replace (b2N a / 4 * 262144 + (b2N a mod 4 * 16 + b2N b / 16) * 4096
             + b2N b mod 16 * 4 * 64)
      with (b2N a * 65536 + b2N b * 256) by lia.
    destruct (shiftr_div (b2N a * 65536 + b2N b * 256))
      as (_ & _ & _ & _ & -> & _ & _ & -> & _).
    destruct fuel; cbn [Oslo.decode_loop]; do 2 f_equal;
      (f_equal; [|f_equal]); apply N2b_eq; lia.
  - destruct (encode_groups a b c rest) as (_ & _ & _ & E3). rewrite E3 in *.
    destruct fuel as [|fuel]; [cbn in Hf; lia|].
    cbn [Oslo.decode_loop].
    rewrite (proj1 (read_chunk_symbols (b2N a / 4)
                      (b2N a mod 4 * 16 + b2N b / 16)
                      (b2N b mod 16 * 4 + b2N c / 64) (b2N c mod 64)
                      (Oslo.encodeBase64_internal rest A Oslo.Include)
                      ltac:(lia) ltac:(lia) ltac:(lia) ltac:(lia))).
    change (Oslo.check_chunk ?x 24) with (@Ok unit tt). cbn [skipn].
    rewrite IH by (cbn [List.length] in Hf; lia).
    change (Oslo.chunk_bytes ?x 24)
      with [N2b (N.land (N.shiftr x 16) 0xff); N2b (N.land (N.shiftr x 8) 0xff);
            N2b (N.land (N.shiftr x 0) 0xff)].
    rewrite !land_255.
    replace (b2N a / 4 * 262144 + (b2N a mod 4 * 16 + b2N b / 16) * 4096
             + (b2N b mod 16 * 4 + b2N c / 64) * 64 + b2N c mod 64)
      with (b2N a * 65536 + b2N b * 256 + b2N c) by lia.
    destruct (shiftr_div (b2N a * 65536 + b2N b * 256 + b2N c))
      as (-> & _ & _ & _ & -> & _ & _ & -> & _).
    rewrite <- app_assoc. do 2 f_equal. cbn [app].
    f_equal; [|f_equal; [|f_equal]]; apply N2b_eq; lia.
Qed.

(** The text written is four characters for every three bytes begun,
    each of the alphabet or the padding. *)
Lemma encode_shape (bs : bytes) :
  List.length (Oslo.encodeBase64_internal bs A Oslo.Include)
  = (4 * ((List.length bs + 2) / 3))%nat /\
  Forall (fun c => In c A \/ c = Oslo.equals_sign)
         (Oslo.encodeBase64_internal bs A Oslo.Include).
Proof.
  induction bs as [| a | a b | a b c rest IH] using list_ind3;
    try pose proof (b2N_lt a) as Ha; try pose proof (b2N_lt b) as Hb;
    try pose proof (b2N_lt c) as Hc.
  - rewrite (proj1 (encode_groups x00 x00 x00 [])). split; [reflexivity | constructor].
  - destruct (encode_groups a x00 x00 []) as (_ & -> & _). split; [reflexivity|].
    repeat (apply Forall_cons;
            [first [left; apply symbol_in_alphabet; lia | now right]|]).
    apply Forall_nil.
  - destruct (encode_groups a b x00 []) as (_ & _ & -> & _). split; [reflexivity|].
    repeat (apply Forall_cons;
            [first [left; apply symbol_in_alphabet; lia | now right]|]).
    apply Forall_nil.
  - destruct (encode_groups a b c rest) as (_ & _ & _ & ->).
    destruct IH as [IHl IHf]. split.
    + cbn [List.length]. rewrite IHl.
      replace (S (S (S (List.length rest))) + 2)%nat
        with ((List.length rest + 2) + 1 * 3)%nat by lia.
      rewrite Nat.div_add by lia. lia.
    + repeat (constructor; [left; apply symbol_in_alphabet; lia|]). exact IHf.
Qed.

End Alphabet.

(** The reader is strict: a chunk it accepts has four characters, each
    in the table or the padding. *)
Lemma read_chunk_strict (rest : jsstring) (table : char16 -> option N) (chunk bits : N) :
  Oslo.read_chunk 4 0 rest table Oslo.Required 0 0 = Ok (chunk, bits) ->
  (4 <= List.length rest)%nat /\
  forallb (Oslo.acceptable table) (firstn 4 rest) = true.
Proof.
  intros H.
  destruct rest as [|c0 [|c1 [|c2 [|c3 r]]]];
    repeat (cbn [Oslo.read_chunk nth_error Nat.ltb Nat.leb Nat.sub andb Oslo.is_equals] in H;
            match type of H with
            | context [if ?b then _ else _] => destruct b eqn:?
            | context [match table ?c with _ => _ end] => destruct (table c) eqn:?
            end);
    try discriminate H;
    (split; [cbn [List.length]; lia|]);
    cbn [firstn forallb]; unfold Oslo.acceptable; cbn [Oslo.is_equals];
    repeat match goal with
           | E : (cu ?c =? 61) = _ |- _ => rewrite E; clear E
           | E : table ?c = _ |- _ => rewrite E; clear E
           end;
    reflexivity.
Qed.

Lemma decode_loop_strict (table : char16 -> option N) (fuel : nat) :
  forall (rest : jsstring) (done bs : bytes),
    (List.length rest <= fuel)%nat ->
    Oslo.decode_loop fuel rest table Oslo.Required done = Ok bs ->
    Nat.modulo (List.length rest) 4 = 0%nat /\
    forallb (Oslo.acceptable table) rest = true.
Proof.
  induction fuel as [|fuel IH]; intros rest done bs Hf H.
  - destruct rest; [split; reflexivity | cbn in Hf; lia].
  - destruct rest as [|c rest]; [split; reflexivity|].
    cbn [Oslo.decode_loop] in H.
    destruct (Oslo.read_chunk 4 0 (c :: rest) table Oslo.Required 0 0)
      as [[chunk bits]|e] eqn:Hr; [|discriminate].
    destruct (Oslo.check_chunk chunk bits); [|discriminate].
    apply read_chunk_strict in Hr. destruct Hr as [Hl Hacc].
    apply IH in H; [|rewrite length_skipn; cbn [List.length] in *; lia].
    destruct H as [Hm Hrest]. rewrite length_skipn in Hm.
    split.
    { replace (List.length (c :: rest))
        with ((List.length (c :: rest) - 4) + 1 * 4)%nat by lia.
      now rewrite Nat.Div0.mod_add. }
    rewrite <- (firstn_skipn 4 (c :: rest)), forallb_app, Hacc.
    exact Hrest.
Qed.

(** It throws two errors and no other. *)
Lemma read_chunk_errors (table : char16 -> option N) (padding : Oslo.DecodingPadding)
      (n : nat) :
  forall (j : nat) (rest : jsstring) (chunk bits : N) (e : string),
    Oslo.read_chunk n j rest table padding chunk bits = Throw e ->
    e = "Invalid character"%string \/ e = "Invalid padding"%string.
Proof.
  induction n as [|n IH]; intros j rest chunk bits e H; [discriminate|].
  cbn [Oslo.read_chunk] in H.
  repeat match type of H with
         | context [if ?b then _ else _] => destruct b
         | context [match nth_error rest j with _ => _ end] =>
             destruct (nth_error rest j)
         | context [match table ?c with _ => _ end] => destruct (table c)
         | context [match padding with _ => _ end] => destruct padding
         end;
    try (now apply IH in H);
    injection H as <-; auto.
Qed.

Lemma decode_errors (table : char16 -> option N) (encoded : jsstring) (e : string) :
  Oslo.decodeBase64_internal encoded table Oslo.Required = Throw e ->
  e = "Invalid character"%string \/ e = "Invalid padding"%string.
Proof.
  unfold Oslo.decodeBase64_internal.
  generalize (@nil byte) as done. generalize (List.length encoded) as fuel.
  intros fuel. revert encoded.
  induction fuel as [|fuel IH]; intros rest done H.
  - destruct rest; discriminate.
  - destruct rest as [|c rest]; [discriminate|].
    cbn [Oslo.decode_loop] in H.
    destruct (Oslo.read_chunk 4 0 (c :: rest) table Oslo.Required 0 0)
      as [[chunk bits]|e'] eqn:Hr.
    + destruct (Oslo.check_chunk chunk bits) eqn:Hc.
      * now apply IH in H.
      * injection H as <-. unfold Oslo.check_chunk in Hc.
        repeat match type of Hc with
               | context [if ?b then _ else _] => destruct b
               end; try discriminate; injection Hc as <-; auto.
    + injection H as <-. eapply read_chunk_errors, Hr.
Qed.

(** ** [base64Encode] and [base64Decode] *)

Lemma N2b_neq (x : N) (b : byte) : x < 256 -> x <> b2N b -> N2b x <> b.
Proof. intros Hx Hne E. subst b. now rewrite b2N_N2b in Hne. Qed.

Lemma no_mark_first (b : byte) (l : bytes) :
  b <> xef -> strip_mark (b :: l) = b :: l.
Proof. intros H. destruct b; try reflexivity. contradiction. Qed.

Lemma no_mark (b0 b1 b2 : byte) (l : bytes) :
  ~ (b0 = xef /\ b1 = xbb /\ b2 = xbf) ->
  strip_mark (b0 :: b1 :: b2 :: l) = b0 :: b1 :: b2 :: l.
Proof.
  intros H. destruct b0; try reflexivity.
  destruct b1; try reflexivity. destruct b2; try reflexivity.
  exfalso. auto.
Qed.

Lemma surrogate_not_mark (c : char16) :
  is_high (cu c) || is_low (cu c) = true -> (cu c =? 0xFEFF) = false.
Proof.
  intros H. destruct (N.eqb_spec (cu c) 0xFEFF) as [E|]; [|reflexivity].
  rewrite E in H. discriminate.
Qed.

(** The UTF-8 form of a string starts with the three bytes of the byte
    order mark exactly when the string starts with U+FEFF. *)
Lemma utf8_encode_mark (c : char16) (rest : jsstring) :
  strip_mark (utf8_encode (c :: rest)) =
  if cu c =? 0xFEFF then utf8_encode rest else utf8_encode (c :: rest).
Proof.
  pose proof (cu_lt c) as Hc.
  cbn [utf8_encode].
  destruct (is_high (cu c)) eqn:Hh.
  - rewrite surrogate_not_mark by (rewrite Hh; reflexivity).
    destruct rest as [|d rest']; [reflexivity|].
    destruct (is_low (cu d)) eqn:Hl; [|reflexivity].
    unfold is_high, is_low in Hh, Hl.
    apply andb_prop in Hh as [H1 H2]. apply andb_prop in Hl as [H3 H4].
    apply N.leb_le in H1, H2, H3, H4. pose proof (cu_lt d).
    unfold utf8_of_cp. cmp. cbn [app].
    apply no_mark_first, N2b_neq; [lia|]. change (b2N xef) with 239. lia.
  - destruct (is_low (cu c)) eqn:Hl.
    + rewrite surrogate_not_mark by (rewrite Hl; apply orb_true_r). reflexivity.
    + unfold utf8_of_cp. cmp; cbn [app].
      * apply no_mark_first, N2b_neq; [lia|]. change (b2N xef) with 239. lia.
      * apply no_mark_first, N2b_neq; [lia|]. change (b2N xef) with 239. lia.
      * rewrite e. reflexivity.
      * apply no_mark. intros (E0 & E1 & E2).
        apply (f_equal b2N) in E0, E1, E2.
        rewrite b2N_N2b in E0, E1, E2 by lia.
        change (b2N xef) with 239 in E0. change (b2N xbb) with 187 in E1.
        change (b2N xbf) with 191 in E2. lia.
Qed.

Lemma drop_bom_toWellFormed (c : char16) (rest : jsstring) :
  drop_bom (toWellFormed (c :: rest)) =
  if cu c =? 0xFEFF then toWellFormed rest else toWellFormed (c :: rest).
Proof.
  cbn [toWellFormed].
  destruct (is_high (cu c)) eqn:Hh.
  - rewrite surrogate_not_mark by (rewrite Hh; reflexivity).
    destruct rest as [|d rest']; [reflexivity|].
    destruct (is_low (cu d)); [|reflexivity].
    cbn [drop_bom]. now rewrite surrogate_not_mark by (rewrite Hh; reflexivity).
  - destruct (is_low (cu c)) eqn:Hl.
    + rewrite surrogate_not_mark by (rewrite Hl; apply orb_true_r). reflexivity.
    + cbn [drop_bom]. now destruct (cu c =? 0xFEFF).
Qed.

(** The text decoder on the bytes the text encoder wrote: the string
    made well formed, without its byte order mark. *)
Lemma TextDecoder_TextEncoder (text : jsstring) :
  TextDecoder_decode (TextEncoder_encode text) = drop_bom (toWellFormed text).
Proof.
  unfold TextDecoder_decode, TextEncoder_encode.
  destruct text as [|c rest]; [reflexivity|].
  rewrite utf8_encode_mark, drop_bom_toWellFormed.
  destruct (cu c =? 0xFEFF); apply utf8_decode_encode.
Qed.

(** [base64Decode]: the text of the decoded bytes, or a line on the
    console and [null]. *)
Lemma base64Decode_run (encoded : jsstring) (type : option B64Type) (w : World) :
  base64Decode encoded type w =
  match Oslo.decodeBase64_internal encoded (table_for type) Oslo.Required with
  | Ok decoded => (Ok (Some (TextDecoder_decode decoded)), w)
  | Throw e =>
      (Ok None, with_journal w (journal w ++ [EvConsoleError ("[base64Decode] " ++ e)]))
  end.
Proof.
  unfold base64Decode, try_catch, bind, of_result.
  destruct type as [[|]|]; cbn [table_for];
    unfold Oslo.decodeBase64, Oslo.decodeBase64url;
    destruct (Oslo.decodeBase64_internal encoded _ Oslo.Required); reflexivity.
Qed.

Lemma table_for_type (type : option B64Type) (k : N) :
  k < 64 ->
  Oslo.char_at (alphabet_for type) k = [Oslo.symbol (alphabet_for type) k] /\
  table_for type (Oslo.symbol (alphabet_for type) k) = Some k /\
  Oslo.is_equals (Some (Oslo.symbol (alphabet_for type) k)) = false.
Proof.
  intros Hk. destruct (alphabet_table k Hk) as [Hs Hu].
  destruct type as [[|]|]; assumption.
Qed.

Lemma base64Encode_bytes (text : jsstring) (type : option B64Type) :
  base64Encode text type =
  Oslo.encodeBase64_internal (utf8_encode text) (alphabet_for type) Oslo.Include.
Proof. destruct type as [[|]|]; reflexivity. Qed.

(** ** More of [EncryptionService] *)

Lemma console_errors_app (j1 j2 : list event) :
  console_errors (j1 ++ j2) = console_errors j1 ++ console_errors j2.
Proof. unfold console_errors. apply flat_map_app. Qed.

Lemma console_errors_derivations (self : EncryptionService) (forceKey : option jsstring) :
  console_errors (derivations self forceKey) = [].
Proof. now destruct forceKey as [[|c s]|]. Qed.

Lemma console_errors_complaint {A} (method : string) (r : result A) :
  console_errors (complaint method r) =
  match rethrown method r with
  | Ok _ => []
  | Throw e => [e]
  end.
Proof. now destruct r. Qed.

Lemma scrypt_runs_derivations (self : EncryptionService) (forceKey : option jsstring) :
  scrypt_runs (derivations self forceKey) = if truthy forceKey then 1%nat else 0%nat.
Proof. now destruct forceKey as [[|c s]|]. Qed.

(** Opening the envelope of any string under the key it was sealed
    with: the string made well formed. *)
Lemma open_envelope_sealed_any (k iv : bytes) (data : jsstring) :
  List.length k = 32%nat -> List.length iv = 12%nat ->
  open_envelope k (envelope k iv data) = Ok (toWellFormed data).
Proof.
  intros Hk Hiv. rewrite open_envelope_of by assumption.
  rewrite bytes_eqb_refl. unfold ciphertext.
  now rewrite crypt_involutive, utf8_decode_encode.
Qed.

Lemma round_trip_keys_any (P : jsstring) (fk fk' : option jsstring)
      (self self' : EncryptionService) (w w' : World) (t : string) :
  List.length (effective_key self fk) = 32%nat ->
  effective_key self' fk' = effective_key self fk ->
  fst (encrypt P fk (self, w)) = Ok t ->
  decrypt t fk' (self', w') =
  (Ok (toWellFormed P),
   (self', with_journal w' (journal w' ++ derivations self' fk' ++ [EvCreateDecipheriv]))).
Proof.
  intros Hk He Ht. rewrite encrypt_run in Ht. cbn [fst] in Ht.
  rewrite seal_ok in Ht by (try exact Hk; apply next_bytes_length).
  cbn [rethrown] in Ht. injection Ht as <-.
  rewrite decrypt_run, He. unfold token. rewrite base64url_round_trip.
  rewrite open_envelope_sealed_any by (try exact Hk; apply next_bytes_length).
  cbn [rethrown complaint]. now rewrite app_nil_r.
Qed.

(** The reader of [decrypt] takes the characters of standard base64 for
    the URL-safe ones. *)
Lemma sextets_standard_text (s : string) : sextets (standard_text s) = sextets s.
Proof.
  induction s as [|c s IH]; [reflexivity|].
  cbn [standard_text sextets]. rewrite IH. unfold standard_char.
  destruct (Ascii.eqb_spec c "-") as [->|H1]; [reflexivity|].
  destruct (Ascii.eqb_spec c "_") as [->|H2]; reflexivity.
Qed.

(** The messages [decrypt] lets out of the cipher. *)
Lemma open_envelope_errors (k combined : bytes) (e : string) :
  List.length k = 32%nat ->
  open_envelope k combined = Throw e ->
  e = "Invalid initialization vector"%string \/
  e = auth_failed \/
  exists n, e = ("Invalid authentication tag length: " ++ decimal n)%string.
Proof.
  intros Hk. unfold open_envelope, check_init. rewrite Hk.
  cbn [String.eqb Ascii.eqb Bool.eqb negb Nat.eqb].
  destruct (Nat.eqb (List.length (slice combined 0 12)) 0).
  - intros [= <-]. now left.
  - destruct (valid_gcm_tag_length _).
    + destruct (bytes_eqb _ _); [discriminate|]. intros [= <-]. right. now left.
    + intros [= <-]. right. right. now eexists.
Qed.

Lemma Ok_injective {A} (a b : A) : Ok a = Ok b -> a = b.
Proof. intros H. now injection H. Qed.

Section Service.

Variables (w0 : World) (self : EncryptionService).
Hypothesis Hself : fst (constructor w0) = Ok self.

Let key_length := effective_key_length w0 self Hself.

(** X6.  [encrypt] never throws, whatever the string (one with unpaired
    surrogates included) and whatever the override: it returns a token,
    takes exactly twelve bytes from the random source, leaves the
    instance as it was and writes nothing to the console. *)
Theorem encrypt_never_fails (w : World) (P : jsstring) (forceKey : option jsstring) :
  exists t w',
    encrypt P forceKey (self, w) = (Ok t, (self, w')) /\
    drawn w' = (drawn w + 12)%nat /\
    entropy w' = entropy w /\
    ENCRYPTION_KEY w' = ENCRYPTION_KEY w /\
    console_errors (journal w') = console_errors (journal w).
Proof.
  rewrite encrypt_run, seal_ok by (try apply key_length; apply next_bytes_length).
  cbn [rethrown complaint]. do 2 eexists. split; [reflexivity|].
  cbn [drawn entropy ENCRYPTION_KEY journal].
  repeat split.
  rewrite !console_errors_app, console_errors_derivations. cbn. apply app_nil_r.
Qed.

(** X7.  The length of a token, by the length of the UTF-8 form of the
    plaintext: twenty-eight bytes more, four characters for three bytes,
    no padding. *)
Theorem token_length (w : World) (P : jsstring) (forceKey : option jsstring) (t : string) :
  fst (encrypt P forceKey (self, w)) = Ok t ->
  String.length t = ((4 * (28 + List.length (utf8_encode P)) + 2) / 3)%nat.
Proof.
  rewrite encrypt_run, seal_ok by (try apply key_length; apply next_bytes_length).
  cbn [fst rethrown]. intros [= <-]. unfold token, envelope, ciphertext.
  rewrite toString_base64url_length, !length_app, next_bytes_length, tag_length,
    crypt_length.
  reflexivity.
Qed.

(** X8.  The round trip of any string, under the default key or an
    override: the string with U+FFFD in the place of every unpaired
    surrogate, which is the string itself when it has none. *)
Theorem round_trip_any_string (w : World) (P : jsstring) (forceKey : option jsstring) :
  fst (round_trip P forceKey (self, w)) = Ok (toWellFormed P) /\
  (well_formed P = true -> toWellFormed P = P).
Proof.
  split; [|apply toWellFormed_well_formed].
  unfold round_trip, bind.
  destruct (encrypt P forceKey (self, w)) as [[t|e] [self' w']] eqn:E.
  - assert (Hs : self' = self).
    { rewrite encrypt_run in E. now injection E as _ <- _. }
    subst self'.
    rewrite (round_trip_keys_any P forceKey forceKey self self w w' t);
      [reflexivity | apply key_length | reflexivity | now rewrite E].
  - rewrite encrypt_run, seal_ok in E by (try apply key_length; apply next_bytes_length).
    discriminate.
Qed.

(** X4.  What [decrypt] does when it fails: the error it throws is one
    of three, each with the name of the method before it, and the same
    line went to the console, once.  When it returns, nothing was
    written.  Either way it takes nothing from the random source and
    leaves the instance as it was. *)
Theorem decrypt_failures (w : World) (encoded : string) (forceKey : option jsstring) :
  let outcome := decrypt encoded forceKey (self, w) in
  fst (snd outcome) = self /\
  drawn (snd (snd outcome)) = drawn w /\
  match fst outcome with
  | Ok _ => console_errors (journal (snd (snd outcome))) = console_errors (journal w)
  | Throw e =>
      console_errors (journal (snd (snd outcome))) = console_errors (journal w) ++ [e] /\
      (e = "[EncryptionService.decrypt] Invalid initialization vector"%string \/
       e = "[EncryptionService.decrypt] Unsupported state or unable to authenticate data"%string \/
       exists n,
         e = ("[EncryptionService.decrypt] Invalid authentication tag length: "
                ++ decimal n)%string)
  end.
Proof.
  cbv zeta. rewrite decrypt_run. cbn [fst snd with_journal drawn journal].
  split; [reflexivity|]. split; [reflexivity|].
  rewrite !console_errors_app, console_errors_derivations, console_errors_complaint.
  cbn [console_errors flat_map app].
  destruct (open_envelope _ _) as [s|e] eqn:E; cbn [rethrown].
  - now rewrite app_nil_r.
  - split; [reflexivity|].
    apply open_envelope_errors in E; [|apply key_length].
    destruct E as [->|[->|[n ->]]]; [now left | right; now left | right; right].
    now exists n.
Qed.

(** X20.  A token identifies what was encrypted: two calls of
    [encrypt] with the same override that return the same token took the
    same twelve random bytes and were given the same string, up to the
    replacement of unpaired surrogates. *)
Theorem token_determines_plaintext (w1 w2 : World) (P1 P2 : jsstring)
        (forceKey : option jsstring) (t : string) :
  fst (encrypt P1 forceKey (self, w1)) = Ok t ->
  fst (encrypt P2 forceKey (self, w2)) = Ok t ->
  toWellFormed P1 = toWellFormed P2 /\ next_bytes w1 12 = next_bytes w2 12.
Proof.
  intros H1 H2. split.
  - pose proof (round_trip_keys_any P1 forceKey forceKey self self w1 w1 t
                  (key_length forceKey) eq_refl H1) as D1.
    pose proof (round_trip_keys_any P2 forceKey forceKey self self w2 w1 t
                  (key_length forceKey) eq_refl H2) as D2.
    rewrite D1 in D2. apply (f_equal fst) in D2. cbn [fst] in D2.
    now apply Ok_injective in D2.
  - rewrite (encrypt_token w0 self Hself) in H1, H2.
    rewrite <- H2 in H1. apply Ok_injective in H1.
    apply (f_equal Buffer_from_base64url) in H1. unfold token in H1.
    rewrite !base64url_round_trip in H1. unfold envelope in H1.
    apply (f_equal (firstn 12)) in H1.
    now rewrite !firstn_exact in H1 by apply next_bytes_length.
Qed.

End Service.

(** X5.  [decrypt] reads a token written with the characters of standard
    base64, ['+'] for ['-'] and ['/'] for ['_'], as it reads the token
    itself: result and effects are the same. *)
Theorem decrypt_standard_alphabet (self : EncryptionService) (w : World)
        (encoded : string) (forceKey : option jsstring) :
  decrypt (standard_text encoded) forceKey (self, w) = decrypt encoded forceKey (self, w).
Proof.
  rewrite !decrypt_run. unfold Buffer_from_base64url.
  now rewrite sextets_standard_text.
Qed.

(** X9.  Tokens outlive the process: an instance built in another
    process from the same runtime secret decrypts what this one
    encrypted, whatever the state of either process. *)
Theorem tokens_outlive_the_process (w1 w2 wa wb : World)
        (self1 self2 : EncryptionService) (P : jsstring) (t : string) :
  fst (constructor w1) = Ok self1 ->
  fst (constructor w2) = Ok self2 ->
  ENCRYPTION_KEY w1 = ENCRYPTION_KEY w2 ->
  fst (encrypt P None (self1, wa)) = Ok t ->
  fst (decrypt t None (self2, wb)) = Ok (toWellFormed P).
Proof.
  intros H1 H2 He Ht.
  destruct (constructed _ _ H1) as (c1 & s1 & E1 & -> & Hk).
  destruct (constructed _ _ H2) as (c2 & s2 & E2 & -> & _).
  rewrite E1, E2 in He. injection He as <- <-.
  now rewrite (round_trip_keys_any P None None _ _ wa wb t Hk eq_refl Ht).
Qed.

(** X10.  Two different override secrets can select the same key: a
    non-empty secret and the same secret followed by U+0000, as a request
    can give it, as long as the UTF-8 form of the secret is shorter than
    the block of the hash (64 bytes): scrypt uses the secret as an HMAC
    key, and HMAC fills a short key with zero bytes.  What [encrypt]
    makes under the one, [decrypt] opens under the other, on any
    instance. *)
Theorem override_with_NUL_same_key (self : EncryptionService) (w : World)
        (k P : jsstring) :
  k <> [] ->
  (List.length (utf8_encode k) < 64)%nat ->
  k ++ [NUL] <> k /\
  fst ((encrypted <- encrypt P (Some k) ;;
        decrypt encrypted (Some (k ++ [NUL]))) (self, w)) = Ok (toWellFormed P) /\
  fst ((encrypted <- encrypt P (Some (k ++ [NUL])) ;;
        decrypt encrypted (Some k)) (self, w)) = Ok (toWellFormed P).
Proof.
  intros Hne Hlen.
  assert (Hk : effective_key self (Some (k ++ [NUL])) = effective_key self (Some k)).
  { destruct k as [|c s]; [contradiction|]. cbn [app effective_key].
    change (c :: s ++ [NUL]) with ((c :: s) ++ [NUL]).
    unfold scrypt_key. now rewrite utf8_encode_NUL, scrypt_zero by exact Hlen. }
  assert (H32 : List.length (effective_key self (Some k)) = 32%nat).
  { destruct k as [|c s]; [contradiction|]. apply scrypt_key_length. }
  split; [|split].
  - intros E. apply (f_equal (@List.length char16)) in E.
    rewrite length_app in E. cbn [List.length] in E. lia.
  - unfold bind. rewrite encrypt_run.
    rewrite seal_ok by (try exact H32; apply next_bytes_length).
    cbn [rethrown].
    erewrite (round_trip_keys_any P (Some k) (Some (k ++ [NUL])) self self w);
      [reflexivity|exact H32|exact Hk|].
    rewrite encrypt_run. cbn [fst].
    now rewrite seal_ok by (try exact H32; apply next_bytes_length).
  - unfold bind. rewrite encrypt_run.
    rewrite seal_ok by (try (rewrite Hk; exact H32); apply next_bytes_length).
    cbn [rethrown].
    erewrite (round_trip_keys_any P (Some (k ++ [NUL])) (Some k) self self w);
      [reflexivity|rewrite Hk; exact H32|now rewrite Hk|].
    rewrite encrypt_run. cbn [fst].
    now rewrite seal_ok by (try (rewrite Hk; exact H32); apply next_bytes_length).
Qed.

(** ** What [base64Encode] and [base64Decode] do *)

(** X11.  Decoding what [base64Encode] wrote, with the same type, gives
    the text back for every text, with two changes the text encoder and
    decoder make: an unpaired surrogate comes back as U+FFFD and a byte
    order mark U+FEFF at the start is dropped.  Nothing is written to
    the console. *)
Theorem base64_round_trip (text : jsstring) (type : option B64Type) (w : World) :
  base64Decode (base64Encode text type) type w =
  (Ok (Some (drop_bom (toWellFormed text))), w).
Proof.
  rewrite base64Decode_run, base64Encode_bytes.
  unfold Oslo.decodeBase64_internal.
  rewrite (decode_loop_encode (alphabet_for type) (table_for type) (table_for_type type))
    by apply Nat.le_refl.
  cbn [app]. now rewrite <- TextDecoder_TextEncoder.
Qed.

(** X12.  [base64Decode] never throws, and it is strict: it returns a
    text only for a string whose length is a multiple of four and whose
    characters are all of the alphabet of the type or the padding; then
    it writes nothing.  Otherwise it returns [null] after one line on the
    console, which names one of the two errors of the reader. *)
Theorem base64Decode_strict (encoded : jsstring) (type : option B64Type) (w : World) :
  match base64Decode encoded type w with
  | (Ok (Some _), w') =>
      w' = w /\
      Nat.modulo (List.length encoded) 4 = 0%nat /\
      forallb (Oslo.acceptable (table_for type)) encoded = true
  | (Ok None, w') =>
      exists e,
        (e = "Invalid character"%string \/ e = "Invalid padding"%string) /\
        w' = with_journal w (journal w ++ [EvConsoleError ("[base64Decode] " ++ e)])
  | (Throw _, _) => False
  end.
Proof.
  rewrite base64Decode_run.
  destruct (Oslo.decodeBase64_internal encoded (table_for type) Oslo.Required)
    as [bs|e] eqn:E.
  - split; [reflexivity|].
    eapply decode_loop_strict; [apply Nat.le_refl | exact E].
  - exists e. split; [|reflexivity]. eapply decode_errors, E.
Qed.

Lemma url_alphabet_safe (c : char16) :
  In c Oslo.base64urlAlphabet \/ c = Oslo.equals_sign -> cu c <> 43 /\ cu c <> 47.
Proof.
  intros [H| ->]; [|split; discriminate].
  assert (Hall : forallb (fun c => negb (cu c =? 43) && negb (cu c =? 47))
                   Oslo.base64urlAlphabet = true) by (vm_compute; reflexivity).
  rewrite forallb_forall in Hall. apply Hall in H.
  apply andb_prop in H as [H1 H2].
  apply negb_true_iff in H1, H2. apply N.eqb_neq in H1, H2. now split.
Qed.

(** X13.  The text [base64Encode] writes has four characters for every
    three bytes begun of the UTF-8 form of its argument, each of the
    alphabet of the type or the padding ['=']; with the type ["url"] (or
    none) no character is ['+'] or ['/']. *)
Theorem base64Encode_shape (text : jsstring) (type : option B64Type) :
  List.length (base64Encode text type)
  = (4 * ((List.length (utf8_encode text) + 2) / 3))%nat /\
  Forall (fun c => In c (alphabet_for type) \/ c = Oslo.equals_sign)
         (base64Encode text type) /\
  match type with
  | Some standard => True
  | _ => Forall (fun c => cu c <> 43 /\ cu c <> 47) (base64Encode text type)
  end.
Proof.
  rewrite base64Encode_bytes.
  destruct (encode_shape (alphabet_for type) (table_for type) (table_for_type type)
              (utf8_encode text)) as [Hl Hf].
  split; [exact Hl|]. split; [exact Hf|].
  destruct type as [[|]|]; [|exact I|];
    (eapply Forall_impl; [|exact Hf]); intros c Hc; now apply url_alphabet_safe.
Qed.

(** ** The exports of the module *)

Section Exports.

Variables (JSON Account Auth Drive : Type).
Variable JSON_parse : jsstring -> M World JSON.
Variable safeParse : JSON -> M World (option Account).
Variable GoogleAuth : Account -> M World Auth.
Variable drive : Auth -> bool -> M World Drive.

(** X14.  With [GD_SERVICE_B64] unset, empty, of a length that is no
    multiple of four, or holding a character that is neither of the
    URL-safe alphabet nor the padding, loading the module throws "Failed
    to decode GD_SERVICE_B64", whatever the JSON reader and the Google
    client would do: neither is reached, and neither is the constructor
    of [EncryptionService], so no key is derived even with a runtime
    secret in place. *)
Theorem module_needs_credentials (GD_SERVICE_B64 : option jsstring) (w : World) :
  match GD_SERVICE_B64 with
  | None => True
  | Some encoded =>
      encoded = [] \/
      Nat.modulo (List.length encoded) 4 <> 0%nat \/
      forallb (Oslo.acceptable Oslo.base64urlDecodeMap) encoded = false
  end ->
  let outcome :=
    module_exports JSON Account Auth Drive JSON_parse safeParse GoogleAuth drive
                   GD_SERVICE_B64 w in
  fst outcome = Throw "Failed to decode GD_SERVICE_B64" /\
  scrypt_runs (journal (snd outcome)) = scrypt_runs (journal w) /\
  drawn (snd outcome) = drawn w.
Proof.
  intros H. cbv zeta.
  unfold module_exports, GoogleDriveService_constructor, decode_service, bind, throw,
    console_error, record, ret.
  destruct GD_SERVICE_B64 as [encoded|].
  - rewrite base64Decode_run. cbn [table_for].
    destruct (Oslo.decodeBase64_internal encoded Oslo.base64urlDecodeMap Oslo.Required)
      as [bs|e] eqn:E.
    + destruct H as [->|H].
      * injection E as <-. cbn. repeat split.
      * apply (decode_loop_strict _ _ _ _ _ (Nat.le_refl _)) in E.
        destruct E as [Hm Ha]. destruct H as [H|H]; [contradiction | congruence].
    + cbn [fst snd with_journal journal drawn].
      split; [reflexivity|]. split; [|reflexivity].
      rewrite scrypt_runs_app. cbn. lia.
  - cbn [fst snd journal drawn].
    split; [reflexivity|]. split; [|reflexivity].
    rewrite scrypt_runs_app. cbn. lia.
Qed.

End Exports.

(** ** The development route *)

Lemma string_eqb_eq (a b : jsstring) : string_eqb a b = true <-> a = b.
Proof.
  revert b. induction a as [|x a IH]; intros [|y b]; cbn [string_eqb];
    try (split; [discriminate | discriminate]); [tauto|].
  rewrite andb_true_iff, N.eqb_eq, IH. split.
  - intros [Hc ->]. now rewrite (cu_injective x y Hc).
  - intros [= -> ->]. now split.
Qed.

(** X15.  Outside development (any value of [NODE_ENV] but
    ["development"], or none) the route answers 404 and does nothing
    else: no parameter is read, nothing is encrypted, no random byte is
    taken, nothing is written. *)
Theorem GET_not_in_production (NODE_ENV : option jsstring)
        (sp : list (jsstring * jsstring)) (s : EncryptionService * World) :
  NODE_ENV <> Some (js "development") ->
  GET NODE_ENV sp s = (Ok (MkResponse 404 (Text "Not available in production")), s).
Proof.
  intros H. unfold GET. destruct NODE_ENV as [env|]; [|reflexivity].
  destruct (string_eqb env (js "development")) eqn:E; [|reflexivity].
  apply string_eqb_eq in E. now subst.
Qed.

(** X16.  In development, a request without the parameter [q], or with
    an empty one, is answered 400, and nothing else happens, whatever
    [key] is. *)
Theorem GET_without_query (sp : list (jsstring * jsstring))
        (s : EncryptionService * World) :
  truthy (searchParams_get sp (js "q")) = false ->
  GET (Some (js "development")) sp s =
  (Ok (MkResponse 400 (Text "Add query parameter 'q' with the value to encrypt")), s).
Proof.
  intros H. unfold GET.
  change (string_eqb (js "development") (js "development")) with true. cbv iota.
  unfold try_catch. cbv zeta.
  destruct (searchParams_get sp (js "q")) as [[|c q]|]; try discriminate; reflexivity.
Qed.

Section Route.

Variables (w0 : World) (self : EncryptionService).
Hypothesis Hself : fst (constructor w0) = Ok self.

Let key_length := effective_key_length w0 self Hself.

Lemma GET_run (sp : list (jsstring * jsstring)) (w : World) (c : char16) (q : jsstring) :
  searchParams_get sp (js "q") = Some (c :: q) ->
  let key := searchParams_get sp (js "key") in
  GET (Some (js "development")) sp (self, w) =
  (Ok (MkResponse 200
         (Json (if truthy key then "Encrypted with provided key"
                else "Encrypted with environment key")
               (token (effective_key self key) (next_bytes w 12) (c :: q))
               (toWellFormed (c :: q)))),
   (self, MkWorld (ENCRYPTION_KEY w) (entropy w) (drawn w + 12)
            (journal w ++ derivations self key ++ [EvRandomBytes 12; EvCreateCipheriv]
               ++ derivations self key ++ [EvCreateDecipheriv]))).
Proof.
  intros Hq key. unfold GET.
  change (string_eqb (js "development") (js "development")) with true. cbv iota.
  unfold try_catch. cbv zeta. rewrite Hq. fold key. unfold bind.
  pose proof (encrypt_run (c :: q) key self w) as E.
  rewrite seal_ok in E by (try apply key_length; apply next_bytes_length).
  cbn [rethrown complaint] in E. rewrite E.
  rewrite (round_trip_keys_any (c :: q) key key self self w _ _ (key_length key) eq_refl)
    by (now rewrite E).
  unfold ret, with_journal. cbn [ENCRYPTION_KEY entropy drawn journal].
  now rewrite !app_nil_r, <- !app_assoc.
Qed.

(** X17.  In development, with a parameter [q] that is not empty, the
    route always answers 200, never 500: [encryptedValue] is the token of
    [q] under the key of [key] (the default key when [key] is absent or
    empty) and the next twelve random bytes, [decryptedValue] is [q] made
    well formed, [q] itself when it has no unpaired surrogate, and the
    message says "provided key" exactly when [key] is not empty. *)
Theorem GET_round_trip (sp : list (jsstring * jsstring)) (w : World) (q : jsstring) :
  searchParams_get sp (js "q") = Some q -> q <> [] ->
  let key := searchParams_get sp (js "key") in
  fst (GET (Some (js "development")) sp (self, w)) =
  Ok (MkResponse 200
        (Json (if truthy key then "Encrypted with provided key"
               else "Encrypted with environment key")
              (token (effective_key self key) (next_bytes w 12) q)
              (toWellFormed q))) /\
  (well_formed q = true -> toWellFormed q = q).
Proof.
  intros Hq Hne key. destruct q as [|c q]; [contradiction|].
  split; [|apply toWellFormed_well_formed].
  now rewrite (GET_run sp w c q Hq).
Qed.

(** X18.  What such a request costs: twelve bytes of the random source,
    and two key derivations when [key] is given and not empty, one in
    [encrypt] and one in [decrypt], none otherwise; the instance is left
    as it was and nothing is written to the console. *)
Theorem GET_effects (sp : list (jsstring * jsstring)) (w : World) (q : jsstring) :
  searchParams_get sp (js "q") = Some q -> q <> [] ->
  let key := searchParams_get sp (js "key") in
  let after := snd (GET (Some (js "development")) sp (self, w)) in
  fst after = self /\
  drawn (snd after) = (drawn w + 12)%nat /\
  scrypt_runs (journal (snd after)) =
    (scrypt_runs (journal w) + if truthy key then 2 else 0)%nat /\
  console_errors (journal (snd after)) = console_errors (journal w).
Proof.
  intros Hq Hne key after. destruct q as [|c q]; [contradiction|].
  unfold after. rewrite (GET_run sp w c q Hq). fold key.
  cbn [fst snd drawn journal]. repeat split.
  - rewrite !scrypt_runs_app, !scrypt_runs_derivations.
    destruct (truthy key); cbn; lia.
  - rewrite !console_errors_app, !console_errors_derivations. cbn.
    now rewrite app_nil_r.
Qed.

End Route.

(** ** More witnesses on the concrete run *)

Lemma tampered_tag_witness :
  fst (constructor world0) = Ok service0 /\
  (96 <= 100 < 224)%nat /\
  fst (decrypt
         (toString_base64url
            (flip_bit 100 (envelope (effective_key service0 None)
                             (next_bytes world0 12) folder_id)))
         None (service0, world1)) =
  Throw "[EncryptionService.decrypt] Unsupported state or unable to authenticate data".
Proof.
  split; [reflexivity|]. split; [lia|].
  exact (tampered_tag_rejected world0 service0 eq_refl world0 world1 folder_id None 100
           ltac:(lia)).
Defined.

Lemma tampered_nonce_witness :
  fst (constructor world0) = Ok service0 /\
  (7 < 96)%nat /\
  fst (decrypt
         (toString_base64url
            (flip_bit 7 (envelope (effective_key service0 None)
                           (next_bytes world0 12) folder_id)))
         None (service0, world1)) =
  Throw "[EncryptionService.decrypt] Unsupported state or unable to authenticate data".
Proof.
  split; [reflexivity|]. split; [lia|].
  exact (tampered_nonce_rejected world0 service0 eq_refl world0 world1 folder_id None 7
           ltac:(lia)).
Defined.

Lemma returned_only_if_authenticated_witness :
  fst (decrypt token0 None (service_by_value, world0)) = Ok folder_id /\
  firstn 16 (GCM.tag (GCM.init key_of_test_secret
                        (slice (Buffer_from_base64url token0) 0 12))
               (slice_from (Buffer_from_base64url token0) 28))
  = slice (Buffer_from_base64url token0) 12 28.
Proof.
  assert (H : fst (decrypt token0 None (service_by_value, world0)) = Ok folder_id)
    by (vm_compute; reflexivity).
  split; [exact H|].
  exact (proj1 (proj2 (returned_only_if_authenticated service_by_value world0 token0
                         None folder_id H))).
Defined.

Lemma mismatch_rejected_witness :
  List.length (effective_key service_by_value None) = 32%nat /\
  (28 <= List.length (Buffer_from_base64url token0_changed))%nat /\
  GCM.tag (GCM.init (effective_key service_by_value None)
             (slice (Buffer_from_base64url token0_changed) 0 12))
          (slice_from (Buffer_from_base64url token0_changed) 28)
  <> slice (Buffer_from_base64url token0_changed) 12 28 /\
  fst (decrypt token0_changed None (service_by_value, world0)) =
  Throw "[EncryptionService.decrypt] Unsupported state or unable to authenticate data".
Proof.
  assert (H1 : List.length (effective_key service_by_value None) = 32%nat)
    by reflexivity.
  assert (H2 : (28 <= List.length (Buffer_from_base64url token0_changed))%nat)
    by (vm_compute; lia).
  assert (H3 : GCM.tag (GCM.init (effective_key service_by_value None)
                          (slice (Buffer_from_base64url token0_changed) 0 12))
                 (slice_from (Buffer_from_base64url token0_changed) 28)
               <> slice (Buffer_from_base64url token0_changed) 12 28)
    by (vm_compute; discriminate).
  split; [exact H1|]. split; [exact H2|]. split; [exact H3|].
  exact (mismatch_rejected service_by_value world0 token0_changed None H1 H2 H3).
Defined.

Lemma decrypt_failures_witness :
  fst (constructor world0) = Ok service0 /\
  fst (snd (decrypt "not-valid-encrypted-data" None (service0, world0))) = service0 /\
  drawn (snd (snd (decrypt "not-valid-encrypted-data" None (service0, world0)))) = 0%nat.
Proof.
  split; [reflexivity|].
  destruct (decrypt_failures world0 service0 eq_refl world0 "not-valid-encrypted-data" None)
    as (H1 & H2 & _).
  split; [exact H1 | exact H2].
Defined.

Lemma encrypt_never_fails_witness :
  fst (constructor world0) = Ok service0 /\
  exists t w',
    encrypt [C16 xd8 x00] (Some (js "keyA")) (service0, world1) = (Ok t, (service0, w')) /\
    drawn w' = 52%nat.
Proof.
  split; [reflexivity|].
  destruct (encrypt_never_fails world0 service0 eq_refl world1 [C16 xd8 x00]
              (Some (js "keyA"))) as (t & w' & H1 & H2 & _).
  exists t, w'. split; [exact H1 | exact H2].
Defined.

Lemma token_length_witness :
  fst (constructor world0) = Ok service0 /\
  fst (encrypt folder_id None (service0, world0))
  = Ok (token (effective_key service0 None) (next_bytes world0 12) folder_id) /\
  String.length (token (effective_key service0 None) (next_bytes world0 12) folder_id)
  = 82%nat.
Proof.
  split; [reflexivity|].
  pose proof (encrypt_token world0 service0 eq_refl folder_id None world0) as H.
  split; [exact H|].
  exact (token_length world0 service0 eq_refl world0 folder_id None _ H).
Defined.

Lemma round_trip_any_string_witness :
  fst (constructor world0) = Ok service0 /\
  fst (round_trip (js "a" ++ [C16 xdc x00] ++ js "b") None (service0, world0))
  = Ok (js "a" ++ [C16 xff xfd] ++ js "b").
Proof.
  split; [reflexivity|].
  exact (proj1 (round_trip_any_string world0 service0 eq_refl world0
                  (js "a" ++ [C16 xdc x00] ++ js "b") None)).
Defined.

Lemma token_determines_plaintext_witness :
  fst (constructor world0) = Ok service0 /\
  fst (encrypt [C16 xd8 x00] None (service0, world0))
  = Ok (token (effective_key service0 None) (next_bytes world0 12) [C16 xd8 x00]) /\
  fst (encrypt [C16 xff xfd] None (service0, world0))
  = Ok (token (effective_key service0 None) (next_bytes world0 12) [C16 xd8 x00]) /\
  toWellFormed [C16 xd8 x00] = toWellFormed [C16 xff xfd].
Proof.
  pose proof (encrypt_token world0 service0 eq_refl [C16 xd8 x00] None world0) as H1.
  pose proof (encrypt_token world0 service0 eq_refl [C16 xff xfd] None world0) as H2.
  assert (E : token (effective_key service0 None) (next_bytes world0 12) [C16 xff xfd]
              = token (effective_key service0 None) (next_bytes world0 12) [C16 xd8 x00]).
  { unfold token, envelope, ciphertext. rewrite utf8_encode_lone_surrogate.
    reflexivity. }
  rewrite E in H2.
  split; [exact eq_refl|]. split; [exact H1|]. split; [exact H2|].
  exact (proj1 (token_determines_plaintext world0 service0 eq_refl world0 world0
                  [C16 xd8 x00] [C16 xff xfd] None
                  (token (effective_key service0 None) (next_bytes world0 12)
                         [C16 xd8 x00])
                  H1 H2)).
Defined.

Lemma tokens_outlive_the_process_witness :
  fst (constructor world0) = Ok service0 /\
  fst (constructor world1) = Ok service0 /\
  ENCRYPTION_KEY world0 = ENCRYPTION_KEY world1 /\
  fst (encrypt greeting None (service0, world0))
  = Ok (token (effective_key service0 None) (next_bytes world0 12) greeting) /\
  fst (decrypt (token (effective_key service0 None) (next_bytes world0 12) greeting)
         None (service0, world1)) = Ok greeting.
Proof.
  pose proof (encrypt_token world0 service0 eq_refl greeting None world0) as H.
  split; [reflexivity|]. split; [reflexivity|]. split; [reflexivity|].
  split; [exact H|].
  exact (tokens_outlive_the_process world0 world1 world0 world1 service0 service0
           greeting _ eq_refl eq_refl eq_refl H).
Defined.

Lemma override_with_NUL_witness :
  js "keyA" <> [] /\
  (List.length (utf8_encode (js "keyA")) < 64)%nat /\
  fst ((encrypted <- encrypt greeting (Some (js "keyA")) ;;
        decrypt encrypted (Some (js "keyA" ++ [NUL]))) (service0, world0))
  = Ok (toWellFormed greeting).
Proof.
  assert (H1 : js "keyA" <> []) by discriminate.
  assert (H2 : (List.length (utf8_encode (js "keyA")) < 64)%nat) by (vm_compute; lia).
  split; [exact H1|]. split; [exact H2|].
  exact (proj1 (proj2 (override_with_NUL_same_key service0 world0 (js "keyA") greeting
                         H1 H2))).
Defined.

Lemma module_needs_credentials_witness :
  Nat.modulo (List.length (js "e30")) 4 <> 0%nat /\
  fst (module_exports unit unit unit unit
         (fun _ => ret tt) (fun _ => ret None) (fun _ => ret tt) (fun _ _ => ret tt)
         (Some (js "e30")) world0)
  = Throw "Failed to decode GD_SERVICE_B64".
Proof.
  assert (H : Nat.modulo (List.length (js "e30")) 4 <> 0%nat) by (vm_compute; discriminate).
  split; [exact H|].
  exact (proj1 (module_needs_credentials unit unit unit unit
                  (fun _ => ret tt) (fun _ => ret None) (fun _ => ret tt)
                  (fun _ _ => ret tt) (Some (js "e30")) world0
                  (or_intror (or_introl H)))).
Defined.

Lemma GET_not_in_production_witness :
  Some (js "production") <> Some (js "development") /\
  GET (Some (js "production")) request0 (service0, world0) =
  (Ok (MkResponse 404 (Text "Not available in production")), (service0, world0)).
Proof.
  assert (H : Some (js "production") <> Some (js "development")) by discriminate.
  split; [exact H|].
  exact (GET_not_in_production (Some (js "production")) request0 (service0, world0) H).
Defined.

Lemma GET_without_query_witness :
  truthy (searchParams_get [(js "key", js "keyA"); (js "q", [])] (js "q")) = false /\
  GET (Some (js "development")) [(js "key", js "keyA"); (js "q", [])] (service0, world0) =
  (Ok (MkResponse 400 (Text "Add query parameter 'q' with the value to encrypt")),
   (service0, world0)).
Proof.
  split; [reflexivity|].
  exact (GET_without_query [(js "key", js "keyA"); (js "q", [])] (service0, world0) eq_refl).
Defined.

Lemma GET_round_trip_witness :
  fst (constructor world0) = Ok service0 /\
  searchParams_get request0 (js "q") = Some folder_id /\
  folder_id <> [] /\
  fst (GET (Some (js "development")) request0 (service0, world0)) =
  Ok (MkResponse 200
        (Json "Encrypted with provided key"
              (token (effective_key service0 (Some (js "keyA"))) (next_bytes world0 12)
                     folder_id)
              folder_id)).
Proof.
  assert (H : folder_id <> []) by discriminate.
  split; [reflexivity|]. split; [reflexivity|]. split; [exact H|].
  exact (proj1 (GET_round_trip world0 service0 eq_refl request0 world0 folder_id
                  eq_refl H)).
Defined.

Lemma GET_effects_witness :
  fst (constructor world0) = Ok service0 /\
  searchParams_get request0 (js "q") = Some folder_id /\
  folder_id <> [] /\
  scrypt_runs (journal (snd (snd (GET (Some (js "development")) request0
                                   (service0, world0))))) = 2%nat.
Proof.
  assert (H : folder_id <> []) by discriminate.
  split; [reflexivity|]. split; [reflexivity|]. split; [exact H|].
  exact (proj1 (proj2 (proj2 (GET_effects world0 service0 eq_refl request0 world0
                                folder_id eq_refl H)))).
Defined.

(** * The model against published values

    The primitives on the test vectors of their specifications, and the
    methods on a key given by value. *)

(** FIPS 180-4, "abc". *)
Example sha256_abc :
  be2N (SHA256.sha256 (ascii_bytes "abc"))
  = 0xba7816bf8f01cfea414140de5dae2223b00361a396177a9cb410ff61f20015ad.
Proof. vm_compute. reflexivity. Qed.

(** RFC 7914, section 11: PBKDF2-HMAC-SHA-256, one iteration. *)
Example pbkdf2_passwd_salt :
  be2N (SHA256.pbkdf2 (ascii_bytes "passwd") (ascii_bytes "salt") 1 64)
  = 0x55ac046e56e3089fec1691c22544b605f94185216dde0465e68b9d57c20dacbc49ca9cccf179b645991664b39d77ef317c71b845b1e30bd509112041d3a19783.
Proof. vm_compute. reflexivity. Qed.

(** RFC 7914, section 12: scrypt of the empty password and salt with
    N = 16, r = 1, p = 1. *)
Example scrypt_empty :
  be2N (Scrypt.scrypt [] [] 16 1 1 64)
  = 0x77d6576238657b203b19ca42c18a0497f16b4844e3074ae8dfdffa3fede21442fcd0069ded0948f8326a753a0fc81f17e8d3e0fb2e0d3628cf35e20c38d18906.
Proof. vm_compute. reflexivity. Qed.

(** FIPS 197, appendix C.3. *)
Example aes256_fips197 :
  AES.encrypt_block
    (AES.round_keys
       (N2be 32 0x000102030405060708090a0b0c0d0e0f101112131415161718191a1b1c1d1e1f))
    0x00112233445566778899aabbccddeeff
  = 0x8ea2b7ca516745bfeafc49904b496089.
Proof. vm_compute. reflexivity. Qed.

(** The GCM specification of McGrew and Viega, test cases 13, 14, 15. *)
Example gcm_test_case_13 :
  be2N (GCM.tag (GCM.init (repeat x00 32) (repeat x00 12)) [])
  = 0x530f8afbc74536b9a963b4f1c4cb738b.
Proof. vm_compute. reflexivity. Qed.

Example gcm_test_case_14 :
  let k := GCM.init (repeat x00 32) (repeat x00 12) in
  let ct := GCM.crypt k 0 (repeat x00 16) in
  be2N ct = 0xcea7403d4d606b6e074ec5d3baf39d18 /\
  be2N (GCM.tag k ct) = 0xd0d1c8a799996bf0265b98b5d48ab919.
Proof. vm_compute. split; reflexivity. Qed.

Example gcm_test_case_15 :
  let k := GCM.init
             (N2be 32 0xfeffe9928665731c6d6a8f9467308308feffe9928665731c6d6a8f9467308308)
             (N2be 12 0xcafebabefacedbaddecaf888) in
  let ct := GCM.crypt k 0
              (N2be 64 0xd9313225f88406e5a55909c5aff5269a86a7a9531534f7da2e4c303d8a318a721c3c0c95956809532fcf0e2449a6b525b16aedf5aa0de657ba637b391aafd255) in
  be2N ct = 0x522dc1f099567d07f47f37a32a84427d643a8cdcbfe5c0c97598a2bd2555d1aa8cb08e48590dbb3da7b08b1056828838c5f61e6393ba7a0abcc9f662898015ad /\
  be2N (GCM.tag k ct) = 0xb094dac5d93471bdec1a502270e3cc6c.
Proof. vm_compute. split; reflexivity. Qed.

Example utf8_greeting :
  utf8_encode greeting
  = N2be 15 0x68c3a96c6c6f20e29c9320f09f9880 /\
  utf8_decode (N2be 15 0x68c3a96c6c6f20e29c9320f09f9880) = greeting.
Proof. vm_compute. split; reflexivity. Qed.

Example base64url_texts :
  toString_base64url (ascii_bytes "ab?>") = "YWI_Pg"%string /\
  Buffer_from_base64url "YWI_Pg" = ascii_bytes "ab?>" /\
  Buffer_from_base64url "YWI/Pg==" = ascii_bytes "ab?>" /\
  Buffer_from_base64url "Y W!I_P
g=YWI" = ascii_bytes "ab?>".
Proof. vm_compute. repeat split; reflexivity. Qed.

(** The methods on [service_by_value], the instance whose key is given
    by value. *)

(** The identifier of the documentation has 33 characters, and its token
    82. *)
Example token_of_folder_id :
  fst (encrypt folder_id None (service_by_value, world0))
  = Ok "AQIDBAUGBwgJCgsMz5AWXsT75BUTGnxchvFrgrVjTq9QOtPaJvh9u2ZhYoWUxMBmn_Nch6XpwQn1OcJt1A"%string
  /\ List.length (utf8_encode folder_id) = 33%nat.
Proof. vm_compute. split; reflexivity. Qed.

Example token_of_empty_string :
  fst (encrypt [] None (service_by_value, world0))
  = Ok "AQIDBAUGBwgJCgsMje0g3nP2LvOGEYOM1UO4Aw"%string.
Proof. vm_compute. reflexivity. Qed.

(** That token without its last byte, and without its last twelve. *)
Example short_tokens_accepted :
  fst (decrypt "AQIDBAUGBwgJCgsMje0g3nP2LvOGEYOM1UO4" None (service_by_value, world0)) = Ok [] /\
  fst (decrypt "AQIDBAUGBwgJCgsMje0g3g" None (service_by_value, world0)) = Ok [].
Proof. vm_compute. split; reflexivity. Qed.

Example short_tokens_rejected :
  fst (decrypt "" None (service_by_value, world0))
  = Throw "[EncryptionService.decrypt] Invalid initialization vector" /\
  fst (decrypt "not-valid-encrypted-data" None (service_by_value, world0))
  = Throw "[EncryptionService.decrypt] Invalid authentication tag length: 6" /\
  fst (decrypt "AQIDBAUGBwgJCg" None (service_by_value, world0))
  = Throw "[EncryptionService.decrypt] Invalid authentication tag length: 0" /\
  fst (decrypt "AQIDBAUGBwgJCgsMje0g3nP2LvOGEYOM1UO5" None (service_by_value, world0))
  = Throw "[EncryptionService.decrypt] Unsupported state or unable to authenticate data".
Proof. vm_compute. repeat split; reflexivity. Qed.

(** The token of the identifier with characters the reader skips, and
    with text after a ['=']. *)
Example noisy_token_accepted :
  fst (decrypt "AQIDBAUGBwgJ!!CgsMz5AWXsT75BUTGnxchvFrgrVjTq9QOtPa Jvh9u2ZhYoWUxMBmn_Nch6XpwQn1OcJt1A=garbage"
         None (service_by_value, world0))
  = Ok folder_id.
Proof. vm_compute. reflexivity. Qed.

(** A code unit above U+00FF is read by its low byte: U+0141 as ['A'],
    which changes the bytes, U+0121 as ['!'], which is skipped, and
    U+013D as ['='], which ends the text. *)
Example wide_code_units :
  JS.Buffer_from_base64url (js "AQ" ++ [C16 x01 x41] ++ js "ID") = [x01; x00; x08] /\
  JS.Buffer_from_base64url (js "AQ" ++ [C16 x01 x21] ++ js "ID") = [x01; x02; x03] /\
  JS.Buffer_from_base64url (js "AQID" ++ [C16 x01 x3d] ++ js "BAUG") = [x01; x02; x03] /\
  fst (JS.decrypt (C16 x01 x41 :: js token0) None (service_by_value, world0))
  = Throw "[EncryptionService.decrypt] Unsupported state or unable to authenticate data" /\
  fst (JS.decrypt (C16 x01 x21 :: js token0 ++ C16 x01 x3d :: js "AQID") None
         (service_by_value, world0))
  = Ok folder_id.
Proof. vm_compute. repeat split; reflexivity. Qed.

(** The base64 functions on the texts of RFC 4648, section 10, and on
    texts the reader refuses. *)
Example base64_rfc4648 :
  map (fun s => Oslo.encodeBase64 (ascii_bytes s)) ["f"; "fo"; "foo"; "foob"]%string
  = map js ["Zg=="; "Zm8="; "Zm9v"; "Zm9vYg=="]%string /\
  Oslo.encodeBase64url [xfb; xff; xfe] = js "-__-" /\
  map (fun s => Oslo.decodeBase64 (js s)) ["Zm9vYg=="; "Zg"; "Zg="; "Zh=="; "Zm-v"]%string
  = [Ok (ascii_bytes "foob"); Throw "Invalid character"; Throw "Invalid padding";
     Throw "Invalid padding"; Throw "Invalid character"].
Proof. vm_compute. repeat split. Qed.

(** A byte order mark at the start of a text does not come back. *)
Example base64_byte_order_mark :
  fst (base64Decode (base64Encode (C16 xfe xff :: js "{}") None) None world0)
  = Ok (Some (js "{}")).
Proof. vm_compute. reflexivity. Qed.
